(** * Kaplan-Meier column inference and survival series (KaplanMeierPlot.tsx)

    A shallow embedding of the column-inference heuristic
    ([deriveMappingHeuristically]), of the survival series builder
    ([buildSeries], [buildEventSeries], [buildSurvivalSeries]), of the
    at-risk lookup ([getAtRiskAtTime]), of the mapping resolution effect
    ([resolveMapping], [fetchLLMMapping]) and of the steps that the chart
    draws from a series, of the Kaplan-Meier plot component.

    Modelling conventions.
    - A finite JavaScript number is an exact rational ([Qc], canonical
      fractions, so that [=] is numeric equality); rounding of binary64
      arithmetic is not modelled.  [NaN] and the infinities are separate
      constructors of [JsValue]: [parseNumber] rejects them.
    - Counts (events, censored, at-risk) are integers ([Z]).
    - A string is a [string] of Latin-1 code units.
    - A [Map] is an association list in insertion order ([JsMap]), since the
      code iterates maps and relies on that order.
    - A row is a plain object: its own properties in the order of
      [Object.keys], and the properties it inherits from [Object.prototype],
      which [key in row] and [row[key]] find as well.
    - The two conversions of the JavaScript runtime between strings and
      numbers, [Number(s)] and [String(n)], are parameters of the model
      ([Section Builtins]); [Runtime] gives reference instances. *)

From Stdlib Require Import List String Ascii Bool Arith ZArith QArith Qabs Qcanon Lia.
From Stdlib Require Import Permutation Sorted PrimFloat.
Import ListNotations.

Local Open Scope string_scope.

(** ** Strings *)

Module JsStr.

Definition code (c : ascii) : nat := nat_of_ascii c.

Definition inRange (lo hi : nat) (c : ascii) : bool :=
  (lo <=? code c)%nat && (code c <=? hi)%nat.

(** [\s] of a regular expression, and the characters [trim] removes:
    TAB, LF, VT, FF, CR, SPACE and NO-BREAK SPACE. *)
Definition isSpace (c : ascii) : bool :=
  inRange 9 13 c || (code c =? 32)%nat || (code c =? 160)%nat.

Definition isDigit (c : ascii) : bool := inRange 48 57 c.
Definition isUpper (c : ascii) : bool := inRange 65 90 c.
Definition isLower (c : ascii) : bool := inRange 97 122 c.

(** [\w] *)
Definition isWord (c : ascii) : bool :=
  isDigit c || isUpper c || isLower c || (code c =? 95)%nat.

(** [[_-]] *)
Definition isUnderscoreOrDash (c : ascii) : bool :=
  (code c =? 95)%nat || (code c =? 45)%nat.

(** [[\s_]] *)
Definition isSpaceOrUnderscore (c : ascii) : bool :=
  isSpace c || (code c =? 95)%nat.

(** [[0-9eE.+-]] *)
Definition isNumericChar (c : ascii) : bool :=
  isDigit c || (code c =? 101)%nat || (code c =? 69)%nat
  || (code c =? 46)%nat || (code c =? 43)%nat || (code c =? 45)%nat.

Definition lowerChar (c : ascii) : ascii :=
  if isUpper c || (inRange 192 222 c && negb (code c =? 215)%nat)
  then ascii_of_nat (code c + 32) else c.

Definition upperChar (c : ascii) : ascii :=
  if isLower c || (inRange 224 254 c && negb (code c =? 247)%nat)
  then ascii_of_nat (code c - 32) else c.

Fixpoint mapChars (f : ascii -> ascii) (s : string) : string :=
  match s with
  | EmptyString => EmptyString
  | String c r => String (f c) (mapChars f r)
  end.

Definition toLowerCase (s : string) : string := mapChars lowerChar s.

Definition isEmpty (s : string) : bool :=
  match s with EmptyString => true | _ => false end.

Definition reverse (s : string) : string :=
  string_of_list_ascii (rev (list_ascii_of_string s)).

Fixpoint trimStart (s : string) : string :=
  match s with
  | EmptyString => EmptyString
  | String c r => if isSpace c then trimStart r else s
  end.

Definition trimEnd (s : string) : string := reverse (trimStart (reverse s)).

Definition trim (s : string) : string := trimEnd (trimStart s).

(** [s.replace(/[p]+/g, r)]: every maximal run of characters of the class
    [p] becomes one copy of [r]. *)
Fixpoint replaceRunsFrom (p : ascii -> bool) (r : string) (inRun : bool)
         (s : string) : string :=
  match s with
  | EmptyString => EmptyString
  | String c t =>
      if p c
      then (if inRun then replaceRunsFrom p r true t
            else r ++ replaceRunsFrom p r true t)
      else String c (replaceRunsFrom p r false t)
  end.

Definition replaceRuns (p : ascii -> bool) (r : string) (s : string) : string :=
  replaceRunsFrom p r false s.

(** [s.replace(/[^p]/g, '')] *)
Fixpoint keepChars (p : ascii -> bool) (s : string) : string :=
  match s with
  | EmptyString => EmptyString
  | String c t => if p c then String c (keepChars p t) else keepChars p t
  end.

(** [s.replace(/\b\w/g, (char) => char.toUpperCase())]: a word character
    that follows a non-word character, or starts the string. *)
Fixpoint capitalizeFrom (afterWord : bool) (s : string) : string :=
  match s with
  | EmptyString => EmptyString
  | String c t =>
      String (if isWord c && negb afterWord then upperChar c else c)
             (capitalizeFrom (isWord c) t)
  end.

Definition capitalizeWords (s : string) : string := capitalizeFrom false s.

(** Case-insensitive match of a literal pattern (flag [i]): characters are
    compared after canonicalisation to upper case. *)
Fixpoint prefixCI (pat s : string) : bool :=
  match pat, s with
  | EmptyString, _ => true
  | String p pat', String c s' =>
      Ascii.eqb (upperChar p) (upperChar c) && prefixCI pat' s'
  | String _ _, EmptyString => false
  end.

(** [/pat/i.test(s)] for a pattern [pat] of literal characters. *)
Fixpoint testCI (pat s : string) : bool :=
  prefixCI pat s
  || match s with
     | EmptyString => false
     | String _ s' => testCI pat s'
     end.

(** [list.includes(s)] *)
Definition includes (l : list string) (s : string) : bool :=
  existsb (String.eqb s) l.

End JsStr.

(** ** Maps in insertion order *)

Module JsMap.
Section Map.
Context {K V : Type}.
Variable keyEq : K -> K -> bool.

Fixpoint get (k : K) (m : list (K * V)) : option V :=
  match m with
  | [] => None
  | (k', v) :: r => if keyEq k k' then Some v else get k r
  end.

Definition has (k : K) (m : list (K * V)) : bool :=
  match get k m with Some _ => true | None => false end.

(** [m.set(k, v)]: an existing key keeps its place, a new key goes last. *)
Fixpoint set (k : K) (v : V) (m : list (K * V)) : list (K * V) :=
  match m with
  | [] => [(k, v)]
  | (k', v') :: r =>
      if keyEq k k' then (k', v) :: r else (k', v') :: set k v r
  end.

Definition keys (m : list (K * V)) : list K := map fst m.
Definition values (m : list (K * V)) : list V := map snd m.
Definition size (m : list (K * V)) : nat := List.length m.
End Map.
End JsMap.

(** ** Numbers *)

Definition number := Qc.

Definition num (z : Z) : number := Q2Qc (inject_Z z).
Definition ratio (n : Z) (d : positive) : number := Q2Qc (n # d).

Definition numEqb (x y : number) : bool := Qeq_bool x y.
Definition numLeb (x y : number) : bool := Qle_bool x y.
Definition numLtb (x y : number) : bool := negb (Qle_bool y x).

(** The product-limit update [survival * ((atRisk - events) / atRisk)] as
    binary64 evaluates it, to compare the exact values of a scenario with
    the values the engine computes. *)
Definition productLimitFloat (survival atRisk events : float) : float :=
  (survival * ((atRisk - events) / atRisk))%float.

(** Stable insertion sort by a numeric key: [xs.sort((a, b) => key(a) - key(b))]. *)
Section Sort.
Context {A : Type}.
Variable key : A -> number.

Fixpoint insertBy (x : A) (l : list A) : list A :=
  match l with
  | [] => [x]
  | y :: r => if numLeb (key x) (key y) then x :: y :: r else y :: insertBy x r
  end.

Fixpoint sortBy (l : list A) : list A :=
  match l with
  | [] => []
  | x :: r => insertBy x (sortBy r)
  end.
End Sort.

(** ** Values and rows *)

Inductive JsValue : Type :=
| JsUndefined
| JsNull
| JsBool (b : bool)
| JsNumber (n : number)
| JsNaN
| JsInfinity (negative : bool)
| JsString (s : string)
| JsObject (text : string).  (* any other object, with its string conversion *)

(** [KaplanRow = Record<string, unknown>]: the own properties of a row, in
    the order of [Object.keys]; the code guards against entries that are not
    objects. *)
Inductive KaplanRow : Type :=
| RowObject (fields : list (string * JsValue))
| RowNotObject.

Definition rowGet (k : string) (fields : list (string * JsValue)) : option JsValue :=
  JsMap.get String.eqb k fields.

Definition rowHas (k : string) (fields : list (string * JsValue)) : bool :=
  JsMap.has String.eqb k fields.

(** The properties that a row inherits from [Object.prototype]: [key in row]
    and [row[key]] find them as well as the own properties.  Their values
    are built-in functions (for [constructor] the function [Object], for
    [__proto__] the prototype object itself), given by their string
    conversion in the notation of V8. *)
Definition nativeFunction (name : string) : JsValue :=
  JsObject ("function " ++ name ++ "() { [native code] }").

Definition inheritedProperties : list (string * JsValue) :=
  [("constructor", nativeFunction "Object");
   ("__defineGetter__", nativeFunction "__defineGetter__");
   ("__defineSetter__", nativeFunction "__defineSetter__");
   ("hasOwnProperty", nativeFunction "hasOwnProperty");
   ("__lookupGetter__", nativeFunction "__lookupGetter__");
   ("__lookupSetter__", nativeFunction "__lookupSetter__");
   ("isPrototypeOf", nativeFunction "isPrototypeOf");
   ("propertyIsEnumerable", nativeFunction "propertyIsEnumerable");
   ("toString", nativeFunction "toString");
   ("valueOf", nativeFunction "valueOf");
   ("__proto__", JsObject "[object Object]");
   ("toLocaleString", nativeFunction "toLocaleString")].

Definition inheritedName (k : string) : bool :=
  JsMap.has String.eqb k inheritedProperties.

(** [k in row] *)
Definition rowIn (k : string) (fields : list (string * JsValue)) : bool :=
  rowHas k fields || inheritedName k.

(** [row[k]]: an own property hides an inherited one. *)
Definition rowRead (k : string) (fields : list (string * JsValue)) : JsValue :=
  match rowGet k fields with
  | Some v => v
  | None =>
      match JsMap.get String.eqb k inheritedProperties with
      | Some v => v
      | None => JsUndefined
      end
  end.

(** [value ?? fallback] *)
Definition nullish (v : JsValue) : bool :=
  match v with JsUndefined | JsNull => true | _ => false end.

Definition coalesce (v fallback : JsValue) : JsValue :=
  if nullish v then fallback else v.

(** The string held by an optional string that is known to be truthy. *)
Definition keyOf (s : option string) : string :=
  match s with Some k => k | None => "" end.

(** Truthiness of an optional string ([undefined] and [''] are falsy). *)
Definition truthy (s : option string) : bool :=
  match s with Some k => negb (JsStr.isEmpty k) | None => false end.

(** ** Data model of the component *)

Record ColumnMapping : Type := {
  time : string;
  group : option string;
  event : option string;
  censored : option string;
  survival : option string
}.

Record LLMColumnInference : Type := {
  llmMapping : option ColumnMapping;
  llmConfidence : option number;
  llmReasoning : option string
}.

Record HeuristicResult : Type := {
  mapping : option ColumnMapping;
  confidence : number
}.

Record SurvivalStep : Type := {
  stepTime : number;
  stepSurvival : number;
  stepAtRisk : option Z
}.

Record CensoredPoint : Type := {
  censTime : number;
  censSurvival : number
}.

Record KaplanSeries : Type := {
  seriesGroup : string;
  steps : list SurvivalStep;
  censoredPoints : list CensoredPoint;
  atRiskMap : list (number * Z)
}.

(** What [getAtRiskAtTime] returns: a count, or the string ['-']. *)
Inductive AtRiskCell : Type :=
| AtRiskCount (n : Z)
| AtRiskDash.

Definition TIME_PATTERNS : list string := ["time"; "month"; "week"; "day"; "follow"].
Definition GROUP_PATTERNS : list string :=
  ["group"; "arm"; "cohort"; "treatment"; "variant"; "strata"].
Definition EVENT_PATTERNS : list string :=
  ["event"; "status"; "outcome"; "dead"; "death"; "failure"; "recurrence"].
Definition SURVIVAL_PATTERNS : list string := ["survival"; "surv"; "prob"; "pct"; "percent"].
Definition CENSOR_PATTERNS : list string := ["censor"].

Definition prettifyLabel (value : string) : string :=
  let label :=
    JsStr.trim
      (JsStr.capitalizeWords
         (JsStr.replaceRuns JsStr.isSpace " "
            (JsStr.replaceRuns JsStr.isUnderscoreOrDash " " value))) in
  if JsStr.isEmpty label then "Series" else label.

(** The test of one key in [findByPatterns]. *)
Definition matchesPatterns (patterns : list string) (key : string) : bool :=
  let trimmed := JsStr.trim key in
  let normalized := JsStr.replaceRuns JsStr.isUnderscoreOrDash " " trimmed in
  let collapsed := JsStr.replaceRuns JsStr.isSpace "" normalized in
  existsb
    (fun pattern =>
       JsStr.testCI pattern key || JsStr.testCI pattern normalized
       || JsStr.testCI pattern collapsed)
    patterns.

Definition findByPatterns (keys : list string) (patterns : list string) : option string :=
  find (matchesPatterns patterns) keys.

(** [set.add(k)] on a [Set<string>] kept in insertion order. *)
Definition setAdd (k : string) (s : list string) : list string :=
  if JsStr.includes s k then s else s ++ [k].

Definition collectKeys (rows : list KaplanRow) : list string :=
  fold_left
    (fun acc row =>
       match row with
       | RowObject fields => fold_left (fun s k => setAdd k s) (map fst fields) acc
       | RowNotObject => acc
       end)
    rows [].

Definition getValue (row : KaplanRow) (key : option string) : JsValue :=
  match row with
  | RowNotObject => JsUndefined
  | RowObject fields =>
      if negb (truthy key) then JsUndefined
      else
        let key := keyOf key in
        if rowIn key fields then rowRead key fields
        else
          let trimmed := JsStr.trim key in
          if negb (JsStr.isEmpty trimmed) && rowIn trimmed fields then rowRead trimmed fields
          else
            let collapsed := JsStr.replaceRuns JsStr.isSpace "" trimmed in
            if negb (JsStr.isEmpty collapsed) && rowIn collapsed fields
            then rowRead collapsed fields
            else
              let underscored := JsStr.replaceRuns JsStr.isSpace "_" trimmed in
              if negb (JsStr.isEmpty underscored) && rowIn underscored fields
              then rowRead underscored fields
              else
                let normalizedTarget :=
                  JsStr.toLowerCase
                    (JsStr.replaceRuns JsStr.isSpaceOrUnderscore "" trimmed) in
                if JsStr.isEmpty normalizedTarget then JsUndefined
                else
                  match
                    find
                      (fun candidate =>
                         String.eqb
                           (JsStr.toLowerCase
                              (JsStr.replaceRuns JsStr.isSpaceOrUnderscore ""
                                 (fst candidate)))
                           normalizedTarget)
                      fields
                  with
                  | Some candidate => snd candidate
                  | None => JsUndefined
                  end
  end.

Definition ensurePercent (value : number) : number :=
  if numLeb value (num 1) then (value * num 100)%Qc else value.

Definition parseBoolean (raw : JsValue) : option bool :=
  match raw with
  | JsNull | JsUndefined => None
  | JsBool b => Some b
  | JsNumber n => Some (numLtb (num 0) n)
  | JsNaN | JsInfinity _ => None
  | JsString s =>
      let normalized := JsStr.toLowerCase (JsStr.trim s) in
      if JsStr.isEmpty normalized then None
      else if JsStr.includes ["true"; "yes"; "y"; "1"] normalized then Some true
      else if JsStr.includes ["false"; "no"; "n"; "0"] normalized then Some false
      else None
  | JsObject _ => None
  end.

(** [a ?? b] on optional booleans. *)
Definition orElse {A : Type} (a : option A) (b : A) : A :=
  match a with Some x => x | None => b end.

(** ** Reference instances of the runtime's conversions

    [Runtime.NumberOfString s] is [Number(s)] when that is finite, for the
    decimal literals of the language ([StrDecimalLiteral]: sign, digits,
    fraction, exponent; the empty string is [0]); its value is the exact
    decimal.  [Runtime.StringOfNumber n] is [String(n)] for integers and
    finite decimals of magnitude below 10^21. *)

Module Runtime.

Fixpoint takeDigits (s : string) (acc : Z) (count : nat) : Z * nat * string :=
  match s with
  | String c r =>
      if JsStr.isDigit c
      then takeDigits r (10 * acc + Z.of_nat (JsStr.code c - 48)) (S count)
      else (acc, count, s)
  | EmptyString => (acc, count, s)
  end.

Definition takeSign (s : string) : bool * string :=
  match s with
  | String c r =>
      if (JsStr.code c =? 45)%nat then (true, r)
      else if (JsStr.code c =? 43)%nat then (false, r)
      else (false, s)
  | EmptyString => (false, s)
  end.

Definition pow10 (e : Z) : Q :=
  if (0 <=? e)%Z then inject_Z (10 ^ e) else / inject_Z (10 ^ (- e)).

Definition decimalLiteral (s : string) : option Q :=
  let '(negative, s1) := takeSign s in
  let '(intPart, intLen, s2) := takeDigits s1 0 0 in
  let '(fracPart, fracLen, s3) :=
    match s2 with
    | String c r => if (JsStr.code c =? 46)%nat then takeDigits r 0 0 else (0%Z, 0%nat, s2)
    | EmptyString => (0%Z, 0%nat, s2)
    end in
  if (intLen + fracLen =? 0)%nat then None
  else
    let mantissa := (intPart * 10 ^ Z.of_nat fracLen + fracPart)%Z in
    let finish (e : Z) : option Q :=
      Some (inject_Z (if negative then - mantissa else mantissa)
            * pow10 (e - Z.of_nat fracLen))%Q in
    match s3 with
    | EmptyString => finish 0%Z
    | String c r =>
        if (JsStr.code c =? 101)%nat || (JsStr.code c =? 69)%nat
        then
          let '(expNegative, s4) := takeSign r in
          let '(expValue, expLen, s5) := takeDigits s4 0 0 in
          if (expLen =? 0)%nat then None
          else if JsStr.isEmpty s5
               then finish (if expNegative then - expValue else expValue)%Z
               else None
        else None
    end.

(** Magnitudes from [2^1024 - 2^970] on round to an infinity. *)
Definition isFinite (q : Q) : bool :=
  negb (Qle_bool (inject_Z (2 ^ 1024 - 2 ^ 970)) (Qabs q)).

Definition NumberOfString (s : string) : option number :=
  let t := JsStr.trim s in
  if JsStr.isEmpty t then Some (num 0)
  else
    match decimalLiteral t with
    | Some q => if isFinite q then Some (Q2Qc q) else None
    | None => None
    end.

Definition digitChar (d : Z) : ascii := ascii_of_nat (48 + Z.to_nat d).

Fixpoint natDigits (fuel : nat) (n : Z) (acc : string) : string :=
  match fuel with
  | O => acc
  | S f =>
      let acc' := String (digitChar (n mod 10)) acc in
      if (n / 10 =? 0)%Z then acc' else natDigits f (n / 10) acc'
  end.

Definition integerDigits (n : Z) : string :=
  natDigits (S (Z.to_nat (Z.log2 n))) n "".

Fixpoint fractionDigits (fuel : nat) (r d : Z) : string :=
  match fuel with
  | O => ""
  | S f =>
      if (r =? 0)%Z then ""
      else String (digitChar (10 * r / d)) (fractionDigits f ((10 * r) mod d) d)
  end.

Definition StringOfNumber (n : number) : string :=
  let p := Qnum n in
  let d := Zpos (Qden n) in
  let a := Z.abs p in
  let body :=
    if (d =? 1)%Z then integerDigits a
    else integerDigits (a / d) ++ "." ++ fractionDigits 20 (a mod d) d in
  if (p <? 0)%Z then "-" ++ body else body.

End Runtime.

(** ** Completions and requests

    A call either returns or throws; the requests sent to the inference
    endpoint are logged next to the completion. *)

Inductive Completion (A : Type) : Type :=
| Return (a : A)
| Throw (error : string).

Arguments Return {A} a.
Arguments Throw {A} error.

(** A computation: its completion and the request bodies it sent. *)
Definition Eff (A : Type) : Type := Completion A * list (list KaplanRow).

Definition ret {A : Type} (a : A) : Eff A := (Return a, []).

Definition bind {A B : Type} (c : Eff A) (k : A -> Eff B) : Eff B :=
  match fst c with
  | Return a => (fst (k a), (snd c ++ snd (k a))%list)
  | Throw e => (Throw e, snd c)
  end.

Definition tryCatch {A : Type} (body : Eff A) (handler : string -> Eff A) : Eff A :=
  match fst body with
  | Return a => body
  | Throw e => (fst (handler e), (snd body ++ snd (handler e))%list)
  end.

Notation "x <- c ;; k" := (bind c (fun x => k))
  (at level 61, c at next level, right associativity).

(** The response of the endpoint: [response.json()] may throw, and the
    parsed body may be [null]. *)
Record Response : Type := {
  ok : bool;
  status : nat;
  json : Completion (option LLMColumnInference)
}.

(** The state of the component that the effect writes, and the calls made
    to [onColumnMappingResolved]. *)
Record ComponentState : Type := {
  columnMapping : option ColumnMapping;
  mappingConfidence : number;
  llmAttempted : bool;
  notified : list (ColumnMapping * number * bool)
}.

(** ** The component's functions *)

Record Bucket : Type := {
  events : Z;
  censoredCount : Z
}.

(** The variables of the loop over [orderedTimes] in [buildEventSeries]. *)
Record EventLoop : Type := {
  atRisk : Z;
  survivalNow : number;
  stepsOut : list SurvivalStep;
  censoredOut : list CensoredPoint;
  atRiskOut : list (number * Z)
}.

(** [bestCandidate] and the per-column tallies of [inferGroupColumn]. *)
Record Candidate : Type := {
  candidateKey : string;
  candidateScore : Z
}.

Record ColumnTally : Type := {
  distinctValues : list string;
  stringCount : Z;
  numericCount : Z
}.

(** ** Inputs of the worked scenarios *)

Module Scenario.

Definition subject (t s : Z) (g : string) : KaplanRow :=
  RowObject [("time", JsNumber (num t)); ("status", JsNumber (num s));
             ("group", JsString g)].

(** [[{time:0,status:1,group:'A'},{time:5,status:1,group:'A'},
      {time:5,status:0,group:'A'},{time:10,status:1,group:'A'}]] *)
Definition eventRows : list KaplanRow :=
  [subject 0 1 "A"; subject 5 1 "A"; subject 5 0 "A"; subject 10 1 "A"].

(** [{time:'time', event:'status', group:'group'}] *)
Definition eventMapping : ColumnMapping :=
  {| time := "time"; group := Some "group"; event := Some "status";
     censored := None; survival := None |}.

Definition percentRow (t s : Z) (g : string) : KaplanRow :=
  RowObject [("month", JsNumber (num t)); ("pct", JsNumber (num s));
             ("arm", JsString g)].

(** [[{month:6,pct:50,arm:'X'},{month:12,pct:80,arm:'X'}]] *)
Definition percentRows : list KaplanRow :=
  [percentRow 6 50 "X"; percentRow 12 80 "X"].

(** [{time:'month', survival:'pct', group:'arm'}] *)
Definition percentMapping : ColumnMapping :=
  {| time := "month"; group := Some "arm"; event := None;
     censored := None; survival := Some "pct" |}.

(** [[{event_time:3,arm:'x'},{event_time:4,arm:'y'}]] *)
Definition eventTimeRows : list KaplanRow :=
  [RowObject [("event_time", JsNumber (num 3)); ("arm", JsString "x")];
   RowObject [("event_time", JsNumber (num 4)); ("arm", JsString "y")]].

(** [[{time:-5,status:1,group:'A'},{time:-2,status:1,group:'A'}]] *)
Definition negativeRows : list KaplanRow :=
  [subject (-5) 1 "A"; subject (-2) 1 "A"].

(** [[{day:3},{day:8}]] and [{time:'day'}] *)
Definition timeOnlyRows : list KaplanRow :=
  [RowObject [("day", JsNumber (num 3))]; RowObject [("day", JsNumber (num 8))]].


(** [[{time:3,status:1,group:'A',event_day:'x'}]]: the standard columns next to
    a column that the patterns also match. *)
Definition fastPathRows : list KaplanRow :=
  [RowObject [("time", JsNumber (num 3)); ("status", JsNumber (num 1));
              ("group", JsString "A"); ("event_day", JsString "x")]].

(** [[{day:1,status:1},{day:2,status:0}]] *)
Definition statusRows : list KaplanRow :=
  [RowObject [("day", JsNumber (num 1)); ("status", JsNumber (num 1))];
   RowObject [("day", JsNumber (num 2)); ("status", JsNumber (num 0))]].

(** [[{month:6,pct:50},{month:12,pct:80}]] *)
Definition percentOnlyRows : list KaplanRow :=
  [RowObject [("month", JsNumber (num 6)); ("pct", JsNumber (num 50))];
   RowObject [("month", JsNumber (num 12)); ("pct", JsNumber (num 80))]].

Definition step (t s : number) (r : Z) : SurvivalStep :=
  {| stepTime := t; stepSurvival := s; stepAtRisk := Some r |}.

(** The series that [eventRows] gives. *)
Definition eventSeries : KaplanSeries :=
  {| seriesGroup := "A";
     steps := [step (num 0) (num 100) 4; step (num 0) (num 75) 4;
               step (num 5) (num 50) 3; step (num 10) (num 0) 1];
     censoredPoints := [{| censTime := num 5; censSurvival := num 50 |}];
     atRiskMap := [(num 0, 4%Z); (num 5, 3%Z); (num 10, 1%Z)] |}.

(** The series that [negativeRows] gives. *)
Definition negativeSeries : KaplanSeries :=
  {| seriesGroup := "A";
     steps := [step (num 0) (num 100) 2; step (num (-5)) (num 50) 2;
               step (num (-2)) (num 0) 1];
     censoredPoints := [];
     atRiskMap := [(num 0, 2%Z); (num (-5), 2%Z); (num (-2), 1%Z)] |}.

(** The series that [percentRows] gives. *)
Definition risingSeries : KaplanSeries :=
  {| seriesGroup := "X";
     steps := [{| stepTime := num 0; stepSurvival := num 100; stepAtRisk := None |};
               {| stepTime := num 6; stepSurvival := num 50; stepAtRisk := None |};
               {| stepTime := num 12; stepSurvival := num 80; stepAtRisk := None |}];
     censoredPoints := [];
     atRiskMap := [] |}.

(** A series without at-risk counts, as [buildSurvivalSeries] gives them. *)
Definition percentSeries : KaplanSeries :=
  {| seriesGroup := "X";
     steps := [{| stepTime := num 0; stepSurvival := num 100; stepAtRisk := None |}];
     censoredPoints := [];
     atRiskMap := [] |}.

(** One event at time 0, two censored subjects at time 5, one event at 10. *)
Definition censoredTimeline : list (number * Bucket) :=
  [(num 0, {| events := 1; censoredCount := 0 |});
   (num 5, {| events := 0; censoredCount := 2 |});
   (num 10, {| events := 1; censoredCount := 0 |})].

(** An endpoint that cannot be reached, and one that answers with a mapping
    and no confidence. *)
Definition failingFetch (body : list KaplanRow) : Completion Response :=
  Throw "Failed to fetch".

Definition answeredMapping : ColumnMapping :=
  {| time := "day"; group := None; event := Some "outcome"; censored := None;
     survival := None |}.

Definition answer : LLMColumnInference :=
  {| llmMapping := Some answeredMapping; llmConfidence := None; llmReasoning := None |}.

Definition answeringFetch (body : list KaplanRow) : Completion Response :=
  Return {| ok := true; status := 200; json := Return (Some answer) |}.

Definition initialState : ComponentState :=
  {| columnMapping := None; mappingConfidence := num 0; llmAttempted := false;
     notified := [] |}.

(** [[{month:0,pct:1,arm:'X'},{month:6,pct:'50%',arm:'X',censored:'yes'}]]:
    a fraction, a percentage written as text, and a censoring mark. *)
Definition markedRows : list KaplanRow :=
  [RowObject [("month", JsNumber (num 0)); ("pct", JsNumber (num 1));
              ("arm", JsString "X")];
   RowObject [("month", JsNumber (num 6)); ("pct", JsString "50%");
              ("arm", JsString "X"); ("censored", JsString "yes")]].

(** The series that [markedRows] gives. *)
Definition markedSeries : KaplanSeries :=
  {| seriesGroup := "X";
     steps := [{| stepTime := num 0; stepSurvival := num 100; stepAtRisk := None |};
               {| stepTime := num 0; stepSurvival := num 100; stepAtRisk := None |};
               {| stepTime := num 6; stepSurvival := num 50; stepAtRisk := None |}];
     censoredPoints := [{| censTime := num 6; censSurvival := num 50 |}];
     atRiskMap := [] |}.

(** [[{'Follow_Up ':3}]]: a column whose name differs from the key in case,
    underscore and spacing. *)
Definition looseFields : list (string * JsValue) :=
  [("Follow_Up ", JsNumber (num 3))].

End Scenario.

Section Builtins.

(** [Number(s)] when it is finite, and [String(n)]. *)
Variable NumberOfString : string -> option number.
Variable StringOfNumber : number -> string.

Definition parseNumber (raw : JsValue) : option number :=
  match raw with
  | JsNull | JsUndefined => None
  | JsNumber n => Some n
  | JsString s =>
      NumberOfString (JsStr.keepChars JsStr.isNumericChar (JsStr.trim s))
  | JsBool _ | JsNaN | JsInfinity _ | JsObject _ => None
  end.

(** [String(raw)] *)
Definition toStr (raw : JsValue) : string :=
  match raw with
  | JsUndefined => "undefined"
  | JsNull => "null"
  | JsBool true => "true"
  | JsBool false => "false"
  | JsNumber n => StringOfNumber n
  | JsNaN => "NaN"
  | JsInfinity false => "Infinity"
  | JsInfinity true => "-Infinity"
  | JsString s => s
  | JsObject text => text
  end.

(** *** inferGroupColumn *)

Definition tallySample (key : string) (tally : ColumnTally) (row : KaplanRow)
  : ColumnTally :=
  let raw := getValue row (Some key) in
  if nullish raw then tally
  else
    let stringValue := JsStr.trim (toStr raw) in
    if JsStr.isEmpty stringValue then tally
    else
      let values := setAdd stringValue (distinctValues tally) in
      match parseNumber raw with
      | Some _ =>
          {| distinctValues := values;
             stringCount := stringCount tally;
             numericCount := numericCount tally + 1 |}
      | None =>
          {| distinctValues := values;
             stringCount := stringCount tally + 1;
             numericCount := numericCount tally |}
      end.

Definition considerKey (samples : list KaplanRow) (reservedKeys : list string)
           (bestCandidate : option Candidate) (key : string) : option Candidate :=
  if JsStr.includes reservedKeys key then bestCandidate
  else
    let tally :=
      fold_left (tallySample key) samples
                {| distinctValues := []; stringCount := 0; numericCount := 0 |} in
    let size := Z.of_nat (List.length (distinctValues tally)) in
    if (size <? 2)%Z || (20 <? size)%Z then bestCandidate
    else
      let isLowCardinality := (size <=? 10)%Z in
      let categoricalScore := (stringCount tally - numericCount tally)%Z in
      if (categoricalScore <=? 0)%Z && negb isLowCardinality then bestCandidate
      else
        let diversityScore := Z.min size 10 in
        let totalScore := (categoricalScore + diversityScore)%Z in
        match bestCandidate with
        | None => Some {| candidateKey := key; candidateScore := totalScore |}
        | Some best =>
            if (candidateScore best <? totalScore)%Z
            then Some {| candidateKey := key; candidateScore := totalScore |}
            else bestCandidate
        end.

Definition SAMPLE_LIMIT : nat := 50.

Definition inferGroupColumn (rows : list KaplanRow) (keys : list string)
           (reservedKeys : list string) : option string :=
  let explicit := findByPatterns keys GROUP_PATTERNS in
  if truthy explicit
     && negb (JsStr.includes reservedKeys (keyOf explicit))
  then explicit
  else
    let samples := firstn SAMPLE_LIMIT rows in
    option_map candidateKey
               (fold_left (considerKey samples reservedKeys) keys None).

(** *** buildEventSeries *)

Definition EVENT_WORDS : list string :=
  ["true"; "yes"; "y"; "event"; "dead"; "death"; "failed"; "failure"; "1"].
Definition CENSORED_WORDS : list string :=
  ["false"; "no"; "n"; "censored"; "censor"; "alive"; "survived"; "0"].

(** The value of [isEvent] for a row whose event cell is [eventRaw]. *)
Definition isEventOf (eventRaw : JsValue) : bool :=
  if nullish eventRaw then true
  else
    let s := JsStr.toLowerCase (JsStr.trim (toStr eventRaw)) in
    match parseNumber eventRaw with
    | Some n => numLtb (num 0) n
    | None =>
        if JsStr.includes EVENT_WORDS s then true
        else if JsStr.includes CENSORED_WORDS s then false
        else true
    end.

(** The cell read as the explicit censoring flag of a row. *)
Definition censorFlagOf (censorKey : option string) (row : KaplanRow) : JsValue :=
  if truthy censorKey then getValue row censorKey
  else
    coalesce (getValue row (Some "censored"))
      (coalesce (getValue row (Some "censor"))
         (coalesce (getValue row (Some "Censored"))
            (getValue row (Some "Censor")))).

(** Whether a row is tallied as an event ([isEvent && !censored]). *)
Definition countsAsEvent (m : ColumnMapping) (row : KaplanRow) : bool :=
  let eventRaw := if truthy (event m) then getValue row (event m) else JsUndefined in
  let isEvent := isEventOf eventRaw in
  let censored := orElse (parseBoolean (censorFlagOf (censored m) row)) (negb isEvent) in
  isEvent && negb censored.

Definition groupLabelOf (groupKey : option string) (fallback : string)
           (row : KaplanRow) : string :=
  let rawGroup := if truthy groupKey then getValue row groupKey else JsUndefined in
  if nullish rawGroup then fallback else toStr rawGroup.

Definition emptyBucket : Bucket := {| events := 0; censoredCount := 0 |}.

(** The body of [rows.forEach] in [buildEventSeries]. *)
Definition addEventRow (m : ColumnMapping)
           (grouped : list (string * list (number * Bucket))) (row : KaplanRow)
  : list (string * list (number * Bucket)) :=
  match row with
  | RowNotObject => grouped
  | RowObject _ =>
      match parseNumber (getValue row (Some (time m))) with
      | None => grouped
      | Some t =>
          let g := groupLabelOf (group m) "Group" row in
          let grouped1 :=
            if JsMap.has String.eqb g grouped then grouped
            else JsMap.set String.eqb g [] grouped in
          let timeline := orElse (JsMap.get String.eqb g grouped1) [] in
          let bucket := orElse (JsMap.get numEqb t timeline) emptyBucket in
          let bucket1 :=
            if countsAsEvent m row
            then {| events := events bucket + 1; censoredCount := censoredCount bucket |}
            else {| events := events bucket; censoredCount := censoredCount bucket + 1 |} in
          JsMap.set String.eqb g (JsMap.set numEqb t bucket1 timeline) grouped1
      end
  end.

Definition groupRows (rows : list KaplanRow) (m : ColumnMapping)
  : list (string * list (number * Bucket)) :=
  fold_left (addEventRow m) rows [].

(** The body of [orderedTimes.forEach]; [t] ranges over the keys of
    [timeline], so that [timeline.get(time)!] is a bucket. *)
Definition eventStep (timeline : list (number * Bucket)) (st : EventLoop)
           (t : number) : EventLoop :=
  let riskMap := JsMap.set numEqb t (atRisk st) (atRiskOut st) in
  if (atRisk st <=? 0)%Z
  then {| atRisk := atRisk st; survivalNow := survivalNow st;
          stepsOut := stepsOut st; censoredOut := censoredOut st;
          atRiskOut := riskMap |}
  else
    let bucket := orElse (JsMap.get numEqb t timeline) emptyBucket in
    let survival1 :=
      if (0 <? events bucket)%Z
      then (survivalNow st * (num (atRisk st - events bucket) / num (atRisk st)))%Qc
      else survivalNow st in
    {| atRisk := atRisk st - (events bucket + censoredCount bucket);
       survivalNow := survival1;
       stepsOut :=
         stepsOut st
         ++ [{| stepTime := t; stepSurvival := survival1; stepAtRisk := Some (atRisk st) |}];
       censoredOut :=
         censoredOut st
         ++ repeat {| censTime := t; censSurvival := survival1 |}
                   (Z.to_nat (censoredCount bucket));
       atRiskOut := riskMap |}.

Definition bucketTotal (timeline : list (number * Bucket)) : Z :=
  fold_left (fun sum bucket => (sum + events bucket + censoredCount bucket)%Z)
            (JsMap.values timeline) 0%Z.

Definition eventLoopInit (total : Z) : EventLoop :=
  {| atRisk := total;
     survivalNow := num 100;
     stepsOut := [{| stepTime := num 0; stepSurvival := num 100; stepAtRisk := Some total |}];
     censoredOut := [];
     atRiskOut := JsMap.set numEqb (num 0) total [] |}.

Definition orderedTimes (timeline : list (number * Bucket)) : list number :=
  sortBy (fun t => t) (JsMap.keys timeline).

Definition runEventLoop (timeline : list (number * Bucket)) : EventLoop :=
  fold_left (eventStep timeline) (orderedTimes timeline)
            (eventLoopInit (bucketTotal timeline)).

(** The body of [grouped.forEach] . *)
Definition eventSeriesOf (entry : string * list (number * Bucket)) : KaplanSeries :=
  let st := runEventLoop (snd entry) in
  {| seriesGroup := fst entry;
     steps := stepsOut st;
     censoredPoints := censoredOut st;
     atRiskMap := atRiskOut st |}.

Definition buildEventSeries (rows : list KaplanRow) (m : ColumnMapping)
  : list KaplanSeries :=
  map eventSeriesOf (groupRows rows m).

(** *** buildSurvivalSeries *)

Definition seedStep : SurvivalStep :=
  {| stepTime := num 0; stepSurvival := num 100; stepAtRisk := None |}.

(** The body of [rows.forEach] in [buildSurvivalSeries]. *)
Definition addSurvivalRow (m : ColumnMapping) (survivalKey : string)
           (grouped : list (string * KaplanSeries)) (row : KaplanRow)
  : list (string * KaplanSeries) :=
  match row with
  | RowNotObject => grouped
  | RowObject _ =>
      match parseNumber (getValue row (Some (time m))),
            parseNumber (getValue row (Some survivalKey)) with
      | Some t, Some s =>
          let g := groupLabelOf (group m) (prettifyLabel survivalKey) row in
          let percent := ensurePercent s in
          let isCensored :=
            orElse
              (parseBoolean
                 (if truthy (censored m) then getValue row (censored m)
                  else getValue row (Some "censored")))
              false in
          let fresh :=
            {| seriesGroup := g; steps := [seedStep]; censoredPoints := [];
               atRiskMap := [] |} in
          let grouped1 :=
            if JsMap.has String.eqb g grouped then grouped
            else JsMap.set String.eqb g fresh grouped in
          let series := orElse (JsMap.get String.eqb g grouped1) fresh in
          let series1 :=
            {| seriesGroup := seriesGroup series;
               steps :=
                 steps series
                 ++ [{| stepTime := t; stepSurvival := percent; stepAtRisk := None |}];
               censoredPoints :=
                 if isCensored
                 then censoredPoints series
                      ++ [{| censTime := t; censSurvival := percent |}]
                 else censoredPoints series;
               atRiskMap := atRiskMap series |} in
          JsMap.set String.eqb g series1 grouped1
      | _, _ => grouped
      end
  end.

(** The body of [grouped.forEach] in [buildSurvivalSeries]. *)
Definition finishSurvivalSeries (series : KaplanSeries) : KaplanSeries :=
  let sorted := sortBy stepTime (steps series) in
  let steps1 :=
    match sorted with
    | [] => [seedStep]
    | first :: rest =>
        if negb (numEqb (stepTime first) (num 0)) then seedStep :: sorted
        else {| stepTime := stepTime first; stepSurvival := num 100;
                stepAtRisk := stepAtRisk first |} :: rest
    end in
  {| seriesGroup := seriesGroup series;
     steps := steps1;
     censoredPoints := sortBy censTime (censoredPoints series);
     atRiskMap := atRiskMap series |}.

Definition buildSurvivalSeries (rows : list KaplanRow) (m : ColumnMapping)
  : list KaplanSeries :=
  if negb (truthy (survival m)) then []
  else
    map finishSurvivalSeries
        (JsMap.values (fold_left (addSurvivalRow m (keyOf (survival m))) rows [])).

(** *** buildSeries *)

Definition buildSeries (rows : list KaplanRow) (m : ColumnMapping)
  : list KaplanSeries :=
  if JsStr.isEmpty (time m) then []
  else if truthy (event m) then buildEventSeries rows m
  else if truthy (survival m) then buildSurvivalSeries rows m
  else buildEventSeries rows m.

(** *** deriveMappingHeuristically *)

Definition noMapping : HeuristicResult := {| mapping := None; confidence := num 0 |}.

Definition weakTimePattern (key : string) : bool :=
  JsStr.testCI "month" key || JsStr.testCI "week" key || JsStr.testCI "day" key.

Definition optOr {A : Type} (a b : option A) : option A :=
  match a with Some _ => a | None => b end.

(** The time column: a [TIME_PATTERNS] match, else a month/week/day match. *)
Definition timeColumn (keys : list string) : option string :=
  optOr (findByPatterns keys TIME_PATTERNS) (find weakTimePattern keys).

(** The set [reserved] handed to [inferGroupColumn]. *)
Definition reservedFor (timeKey : string) (eventCandidate survivalCandidate : option string)
  : list string :=
  let reserved1 := setAdd timeKey [] in
  let reserved2 :=
    if truthy eventCandidate then setAdd (keyOf eventCandidate) reserved1
    else reserved1 in
  if truthy survivalCandidate then setAdd (keyOf survivalCandidate) reserved2
  else reserved2.

Definition fastPathMapping : ColumnMapping :=
  {| time := "time"; group := Some "group"; event := Some "status";
     censored := None; survival := None |}.

Definition deriveMappingHeuristically (rows : list KaplanRow) : HeuristicResult :=
  match rows with
  | [] => noMapping
  | _ :: _ =>
      let keys := collectKeys rows in
      if JsStr.includes keys "time" && JsStr.includes keys "status"
         && JsStr.includes keys "group"
      then {| mapping := Some fastPathMapping; confidence := num 1 |}
      else
        let timeKey := timeColumn keys in
        if negb (truthy timeKey) then noMapping
        else
          let eventCandidate := findByPatterns keys EVENT_PATTERNS in
          let survivalCandidate := findByPatterns keys SURVIVAL_PATTERNS in
          let reserved := reservedFor (keyOf timeKey) eventCandidate survivalCandidate in
          let groupKey := inferGroupColumn rows keys reserved in
          let censorKey := findByPatterns keys CENSOR_PATTERNS in
          let group1 := if truthy groupKey then groupKey else None in
          let censored1 := if truthy censorKey then censorKey else None in
          if truthy eventCandidate
          then {| mapping :=
                    Some {| time := keyOf timeKey; group := group1;
                            event := eventCandidate; censored := censored1;
                            survival := None |};
                  confidence := if truthy groupKey then ratio 8 10 else ratio 6 10 |}
          else if truthy survivalCandidate
          then {| mapping :=
                    Some {| time := keyOf timeKey;
                            group :=
                              if truthy groupKey then group1
                              else Some (prettifyLabel (keyOf survivalCandidate));
                            event := None; censored := censored1;
                            survival := survivalCandidate |};
                  confidence := if truthy groupKey then ratio 7 10 else ratio 5 10 |}
          else noMapping
  end.

(** *** getAtRiskAtTime *)

(** The loop that looks for the closest recorded time. *)
Definition closestTimeBefore (recorded : list number) (t : number) : number :=
  fold_left
    (fun closestTime r =>
       if numLeb r t && numLtb closestTime r then r else closestTime)
    recorded (num (-1)).

Definition getAtRiskAtTime (series : KaplanSeries) (t : number) : AtRiskCell :=
  if (JsMap.size (atRiskMap series) =? 0)%nat then AtRiskDash
  else
    match JsMap.get numEqb t (atRiskMap series) with
    | Some n => AtRiskCount n
    | None =>
        let closestTime := closestTimeBefore (JsMap.keys (atRiskMap series)) t in
        if negb (numEqb closestTime (num (-1)))
        then match JsMap.get numEqb closestTime (atRiskMap series) with
             | Some n => AtRiskCount n
             | None => AtRiskDash  (* not reached: [closestTime] is a key *)
             end
        else match steps series with
             | first :: _ =>
                 match stepAtRisk first with
                 | Some n => AtRiskCount n
                 | None => AtRiskDash
                 end
             | [] => AtRiskDash
             end
    end.

(** *** fetchLLMMapping and resolveMapping *)

Section Endpoint.

(** [fetch('/api/kaplan/infer-columns', ...)] as a function of the rows in
    the request body: it returns a response or throws. *)
Variable fetch : list KaplanRow -> Completion Response.

Definition callFetch (body : list KaplanRow) : Eff Response := (fetch body, [body]).

Definition fetchLLMMapping (rows : list KaplanRow) : Eff (option LLMColumnInference) :=
  match rows with
  | [] => ret None
  | _ :: _ =>
      tryCatch
        (response <- callFetch (firstn 25 rows) ;;
         if negb (ok response) then ret None
         else
           payload <- (json response, []) ;;
           match payload with
           | None => ret None
           | Some p =>
               match llmMapping p with
               | None => ret None
               | Some _ => ret (Some p)
               end
           end)
        (fun _ => ret None)
  end.

Definition acceptsHeuristic (h : HeuristicResult) : bool :=
  match mapping h with
  | Some _ => numLeb (ratio 75 100) (confidence h)
  | None => false
  end.

(** The branch taken before the [await]. *)
Definition commitHeuristic (h : HeuristicResult) (st : ComponentState) : ComponentState :=
  match mapping h with
  | Some m =>
      {| columnMapping := Some m;
         mappingConfidence := confidence h;
         llmAttempted := llmAttempted st;
         notified := notified st ++ [(m, confidence h, false)] |}
  | None => st
  end.

(** The code after [await fetchLLMMapping(data)], for the value [cancelled]
    has when the call settles. *)
Definition afterFetch (h : HeuristicResult) (llmResult : option LLMColumnInference)
           (cancelled : bool) (st : ComponentState) : ComponentState :=
  if cancelled then st
  else
    match llmResult with
    | Some {| llmMapping := Some m; llmConfidence := c |} =>
        {| columnMapping := Some m;
           mappingConfidence := orElse c (confidence h);
           llmAttempted := true;
           notified := notified st ++ [(m, orElse c (confidence h), true)] |}
    | _ =>
        match mapping h with
        | Some m =>
            {| columnMapping := Some m;
               mappingConfidence := confidence h;
               llmAttempted := llmAttempted st;
               notified := notified st ++ [(m, confidence h, false)] |}
        | None =>
            {| columnMapping := None;
               mappingConfidence := num 0;
               llmAttempted := llmAttempted st;
               notified := notified st |}
        end
    end.

(** One run of [resolveMapping] that is not cancelled. *)
Definition resolveMapping (data : list KaplanRow) (h : HeuristicResult)
           (st : ComponentState) : Eff ComponentState :=
  if acceptsHeuristic h then ret (commitHeuristic h st)
  else
    llmResult <- fetchLLMMapping data ;;
    ret (afterFetch h llmResult false st).

End Endpoint.

(** *** The effect and its cancellation flag

    Every run of the effect has its own [cancelled] variable.  When a
    dependency changes, the cleanup returned by the previous run is called,
    which sets that run's flag, and then the effect runs again; a pending
    call settles later, in any order.  [latest] numbers the runs, and
    [pending] holds the runs that wait at [await fetchLLMMapping(data)]. *)

Record EffectRun : Type := {
  runId : nat;
  runData : list KaplanRow;
  runHeuristic : HeuristicResult;
  runCancelled : bool
}.

Record Component : Type := {
  view : ComponentState;
  latest : nat;
  pending : list EffectRun
}.

Inductive ComponentEvent : Type :=
| DataChanged (data : list KaplanRow)
| Settled (id : nat) (llmResult : option LLMColumnInference).

Definition cancelRun (r : EffectRun) : EffectRun :=
  {| runId := runId r; runData := runData r; runHeuristic := runHeuristic r;
     runCancelled := true |}.

Definition findRun (id : nat) (runs : list EffectRun) : option EffectRun :=
  find (fun r => (runId r =? id)%nat) runs.

Definition dropRun (id : nat) (runs : list EffectRun) : list EffectRun :=
  filter (fun r => negb (runId r =? id)%nat) runs.

Definition componentStep (c : Component) (e : ComponentEvent) : Component :=
  match e with
  | DataChanged data =>
      let h := deriveMappingHeuristically data in
      let id := S (latest c) in
      let cleaned :=
        map (fun r => if (runId r =? latest c)%nat then cancelRun r else r) (pending c) in
      if acceptsHeuristic h
      then {| view := commitHeuristic h (view c); latest := id; pending := cleaned |}
      else {| view := view c; latest := id;
              pending :=
                cleaned ++ [{| runId := id; runData := data; runHeuristic := h;
                               runCancelled := false |}] |}
  | Settled id llmResult =>
      match findRun id (pending c) with
      | Some r =>
          {| view := afterFetch (runHeuristic r) llmResult (runCancelled r) (view c);
             latest := latest c;
             pending := dropRun id (pending c) |}
      | None => c
      end
  end.

Definition componentInit : Component :=
  {| view := {| columnMapping := None; mappingConfidence := num 0;
                llmAttempted := false; notified := [] |};
     latest := 0;
     pending := [] |}.

Definition componentRun (events : list ComponentEvent) : Component :=
  fold_left componentStep events componentInit.

(** *** The steps that the chart draws *)

(** The copy of the steps that the chart draws: [steps] in the first
    [seriesList.forEach] of the component. *)
Definition plottedSteps (series : KaplanSeries) : list SurvivalStep :=
  let sorted := sortBy stepTime (steps series) in
  match sorted with
  | [] => [seedStep]
  | first :: rest =>
      if negb (numEqb (stepTime first) (num 0)) then seedStep :: sorted
      else {| stepTime := stepTime first; stepSurvival := num 100;
              stepAtRisk := stepAtRisk first |} :: rest
  end.

(** *** Notions used to state the properties *)

(** [k] is a column of some row of [rows]. *)
Definition keyPresent (k : string) (rows : list KaplanRow) : Prop :=
  exists fields, In (RowObject fields) rows /\ In k (map fst fields).

(** The value that stands for the first step when nothing earlier is found. *)
Definition initialAtRisk (series : KaplanSeries) : AtRiskCell :=
  match steps series with
  | first :: _ =>
      match stepAtRisk first with
      | Some n => AtRiskCount n
      | None => AtRiskDash
      end
  | [] => AtRiskDash
  end.

(** The heuristic result is taken without asking the endpoint. *)
Definition heuristicAccepted (h : HeuristicResult) : Prop :=
  exists m, mapping h = Some m /\ (ratio 75 100 <= confidence h)%Qc.

(** The ways the call for [rows] can fail to deliver a mapping. *)
Inductive CollaboratorFailure (fetch : list KaplanRow -> Completion Response)
          (rows : list KaplanRow) : Prop :=
| NetworkError (e : string) :
    fetch (firstn 25 rows) = Throw e -> CollaboratorFailure fetch rows
| BadStatus (r : Response) :
    fetch (firstn 25 rows) = Return r -> ok r = false -> CollaboratorFailure fetch rows
| MalformedBody (r : Response) (e : string) :
    fetch (firstn 25 rows) = Return r -> ok r = true -> json r = Throw e ->
    CollaboratorFailure fetch rows
| NullBody (r : Response) :
    fetch (firstn 25 rows) = Return r -> ok r = true -> json r = Return None ->
    CollaboratorFailure fetch rows
| NullMapping (r : Response) (p : LLMColumnInference) :
    fetch (firstn 25 rows) = Return r -> ok r = true -> json r = Return (Some p) ->
    llmMapping p = None -> CollaboratorFailure fetch rows.

(** The state written when the endpoint delivers no mapping. *)
Definition fallbackState (h : HeuristicResult) (st : ComponentState) : ComponentState :=
  match mapping h with
  | Some m =>
      {| columnMapping := Some m;
         mappingConfidence := confidence h;
         llmAttempted := llmAttempted st;
         notified := notified st ++ [(m, confidence h, false)] |}
  | None =>
      {| columnMapping := None;
         mappingConfidence := num 0;
         llmAttempted := llmAttempted st;
         notified := notified st |}
  end.

(** Every pending run other than the latest one has its flag set. *)
Definition staleRunsCancelled (c : Component) : Prop :=
  forall r, In r (pending c) -> runId r <> latest c -> runCancelled r = true.

(** Runs are numbered up to [latest], and the latest one is not cancelled. *)
Definition latestRunLive (c : Component) : Prop :=
  forall r, In r (pending c) ->
            (runId r <= latest c)%nat /\ (runId r = latest c -> runCancelled r = false).

(** A parsed time of some row of [rows]. *)
Definition parsedTime (rows : list KaplanRow) (m : ColumnMapping) (t : number) : Prop :=
  exists row, In row rows /\ parseNumber (getValue row (Some (time m))) = Some t.

(** No row has a negative time. *)
Definition nonNegativeTimes (rows : list KaplanRow) (m : ColumnMapping) : Prop :=
  forall t, parsedTime rows m t -> (num 0 <= t)%Qc.

(** Step sequences ordered by time, and with survival going down. *)
Definition timeNonDecreasing (l : list SurvivalStep) : Prop :=
  StronglySorted (fun a b => (stepTime a <= stepTime b)%Qc) l.

Definition survivalNonIncreasing (l : list SurvivalStep) : Prop :=
  StronglySorted (fun a b => (stepSurvival b <= stepSurvival a)%Qc) l.

(** The subjects of a bucket, and of the bucket of a time. *)
Definition weight (b : Bucket) : Z := (events b + censoredCount b)%Z.

Definition weightAt (timeline : list (number * Bucket)) (t : number) : Z :=
  weight (orElse (JsMap.get numEqb t timeline) emptyBucket).

Definition sumZ (l : list Z) : Z := fold_right Z.add 0%Z l.

Definition bucketOk (b : Bucket) : Prop := (0 <= events b)%Z /\ (0 <= censoredCount b)%Z.

(** A timeline as [groupRows] builds them: distinct times, counts from 0 up. *)
Definition timelineOk (timeline : list (number * Bucket)) : Prop :=
  NoDup (JsMap.keys timeline) /\ Forall bucketOk (JsMap.values timeline).

(** The groups as [groupRows] builds them from rows among [rows]. *)
Definition groupedOk (rows : list KaplanRow) (m : ColumnMapping)
           (grouped : list (string * list (number * Bucket))) : Prop :=
  forall g timeline,
    In (g, timeline) grouped ->
    timelineOk timeline
    /\ forall t, In t (JsMap.keys timeline) -> parsedTime rows m t.

(** The last step pushed carries the running survival. *)
Definition lastStepCurrent (st : EventLoop) : Prop :=
  exists earlier previous,
    stepsOut st = (earlier ++ [previous])%list
    /\ stepSurvival previous = survivalNow st.

(** The series is built from per-subject records. *)
Definition eventBased (m : ColumnMapping) : Prop :=
  truthy (event m) = true \/ truthy (survival m) = false.

(** Invariants of the loop over the ordered times, with the times still to
    be visited. *)
Definition survivalInv (timeline : list (number * Bucket)) (st : EventLoop)
           (remaining : list number) : Prop :=
  (sumZ (map (weightAt timeline) remaining) <= atRisk st)%Z
  /\ (num 0 <= survivalNow st)%Qc
  /\ survivalNonIncreasing (stepsOut st)
  /\ Forall (fun x => (survivalNow st <= stepSurvival x)%Qc) (stepsOut st).

Definition timeInv (st : EventLoop) (remaining : list number) : Prop :=
  timeNonDecreasing (stepsOut st)
  /\ Forall (fun x => Forall (fun t => (stepTime x <= t)%Qc) remaining) (stepsOut st)
  /\ StronglySorted Qcle remaining.

(** The series of [buildSurvivalSeries] before they are finished: the seed,
    then one step per row. *)
Definition survivalGroupedOk (rows : list KaplanRow) (m : ColumnMapping)
           (grouped : list (string * KaplanSeries)) : Prop :=
  forall g series,
    In (g, series) grouped ->
    exists pushed,
      steps series = seedStep :: pushed
      /\ Forall (fun x => parsedTime rows m (stepTime x)) pushed.


(** The name of a column with case, whitespace and underscores removed, as
    [getValue] compares names in its last attempt. *)
Definition normalizeKey (s : string) : string :=
  JsStr.toLowerCase (JsStr.replaceRuns JsStr.isSpaceOrUnderscore "" s).

(** The spellings of a key that [getValue] looks up with [in], in order: the
    key, trimmed, without whitespace, with underscores for whitespace. *)
Definition lookupForms (key : string) : list string :=
  [key; JsStr.trim key;
   JsStr.replaceRuns JsStr.isSpace "" (JsStr.trim key);
   JsStr.replaceRuns JsStr.isSpace "_" (JsStr.trim key)].


(** The distinct non-empty values of a column among the sampled rows, as
    [inferGroupColumn] collects them. *)
Definition sampledValues (rows : list KaplanRow) (key : string) : list string :=
  distinctValues
    (fold_left (tallySample key) (firstn SAMPLE_LIMIT rows)
               {| distinctValues := []; stringCount := 0; numericCount := 0 |}).


(** Whether [buildEventSeries] keeps a row: it is an object with a parseable
    time. *)
Definition hasTime (m : ColumnMapping) (row : KaplanRow) : bool :=
  match parseNumber (getValue row (Some (time m))) with
  | Some _ => true
  | None => false
  end.

(** The at-risk count of a step, and the subjects of a series: the at-risk
    count of its first step. *)
Definition atRiskOf (s : SurvivalStep) : Z := orElse (stepAtRisk s) 0%Z.

Definition seriesTotal (s : KaplanSeries) : Z :=
  match steps s with
  | first :: _ => atRiskOf first
  | [] => 0%Z
  end.

(** Every bucket of the timeline holds at least one subject. *)
Definition timelinePositive (timeline : list (number * Bucket)) : Prop :=
  Forall (fun b => (1 <= weight b)%Z) (JsMap.values timeline).

(** A sum over the values of a map. *)
Definition sumOver {K V : Type} (f : V -> Z) (m : list (K * V)) : Z :=
  sumZ (map (fun entry => f (snd entry)) m).

(** A censored point lies on the curve: some step has its time and survival. *)
Definition onCurve (l : list SurvivalStep) (c : CensoredPoint) : Prop :=
  exists s, In s l /\ stepTime s = censTime c /\ stepSurvival s = censSurvival c.


(** The times of the buckets of a group. *)
Definition groupTimes (grouped : list (string * list (number * Bucket)))
           (g : string) (t : number) : Prop :=
  exists timeline,
    JsMap.get String.eqb g grouped = Some timeline /\ In t (JsMap.keys timeline).

(** Invariant of the loop over the ordered times, on the at-risk counts. *)
Definition riskInv (total : Z) (st : EventLoop) : Prop :=
  (atRisk st <= total)%Z
  /\ Forall (fun x => (atRisk st <= atRiskOf x)%Z) (stepsOut st)
  /\ StronglySorted (fun a b => (atRiskOf b <= atRiskOf a)%Z) (stepsOut st)
  /\ Forall (fun x => exists a, stepAtRisk x = Some a /\ (1 <= a <= total)%Z)
            (List.tl (stepsOut st)).


(** A weighted count of the subjects of a bucket. *)
Definition tallyOf (ce cc : Z) (b : Bucket) : Z :=
  (ce * events b + cc * censoredCount b)%Z.


(** Invariant of the loop over the ordered times, on the at-risk map, with
    the times still to be visited. *)
Definition lookupInv (timeline : list (number * Bucket)) (total : Z)
           (st : EventLoop) (remaining : list number) : Prop :=
  stepsOut st <> []
  /\ (sumZ (map (weightAt timeline) remaining) <= atRisk st)%Z
  /\ (atRisk st <= total)%Z
  /\ atRiskOut st <> []
  /\ (forall k v, In (k, v) (atRiskOut st) -> (0 <= v <= total)%Z)
  /\ Forall (fun x => exists a, stepAtRisk x = Some a
                                /\ JsMap.get numEqb (stepTime x) (atRiskOut st) = Some a)
            (List.tl (stepsOut st))
  /\ Forall (fun x => Forall (fun t => (stepTime x < t)%Qc) remaining)
            (List.tl (stepsOut st)).




(** The point that [buildSurvivalSeries] draws for a row: the group it goes
    to, its time and its survival in percent; none when the row is skipped. *)
Definition survivalPoint (m : ColumnMapping) (survivalKey : string) (row : KaplanRow)
  : option (string * number * number) :=
  match row with
  | RowNotObject => None
  | RowObject _ =>
      match parseNumber (getValue row (Some (time m))),
            parseNumber (getValue row (Some survivalKey)) with
      | Some t, Some s =>
          Some (groupLabelOf (group m) (prettifyLabel survivalKey) row, t, ensurePercent s)
      | _, _ => None
      end
  end.

(** A series of [buildSurvivalSeries] before it is finished, after the rows
    [done]: the seed, then the points of the rows of its group, with the
    censored points among them. *)
Definition survivalSeriesOk (m : ColumnMapping) (survivalKey : string)
           (done : list KaplanRow) (g : string) (series : KaplanSeries) : Prop :=
  seriesGroup series = g
  /\ exists pushed,
      steps series = seedStep :: pushed
      /\ (forall x, In x pushed <->
                    stepAtRisk x = None
                    /\ exists row, In row done
                                   /\ survivalPoint m survivalKey row
                                      = Some (g, stepTime x, stepSurvival x))
      /\ Forall (onCurve pushed) (censoredPoints series).

Definition survivalFoldInv (m : ColumnMapping) (survivalKey : string)
           (done : list KaplanRow) (grouped : list (string * KaplanSeries)) : Prop :=
  NoDup (JsMap.keys grouped)
  /\ (forall g series, In (g, series) grouped -> survivalSeriesOk m survivalKey done g series)
  /\ (forall row g t p, In row done -> survivalPoint m survivalKey row = Some (g, t, p) ->
                        In g (JsMap.keys grouped)).


(** Invariant of the loop over the ordered times, on the count recorded at
    time 0. *)
Definition zeroInv (total : Z) (st : EventLoop) (remaining : list number) : Prop :=
  JsMap.get numEqb (num 0) (atRiskOut st) = Some total
  /\ (atRisk st = total \/ Forall (fun t => (num 0 < t)%Qc) remaining).


(** A string that starts neither with white space nor with a lower-case
    letter or an underscore, as the names of the inherited properties do. *)
Definition plainStart (s : string) : Prop :=
  match s with
  | EmptyString => True
  | String c _ =>
      JsStr.isSpace c = false /\ JsStr.isLower c = false
      /\ (JsStr.code c =? 95)%nat = false
  end.


(** [k] is the first of [keys] that matches one of [patterns]: what the loop
    of [findByPatterns] returns. *)
Definition firstMatch (patterns keys : list string) (k : string) : Prop :=
  exists before after,
    keys = (before ++ k :: after)%list
    /\ Forall (fun k' => matchesPatterns patterns k' = false) before
    /\ matchesPatterns patterns k = true.







(** * Properties *)

(** ** Numbers, strings and maps *)

Lemma numEqb_eq (x y : number) : numEqb x y = true <-> x = y.
Proof.
  unfold numEqb. rewrite Qeq_bool_iff. split.
  - apply Qc_is_canon.
  - intros ->. reflexivity.
Qed.

Lemma numEqb_refl (x : number) : numEqb x x = true.
Proof. apply numEqb_eq. reflexivity. Qed.

Lemma numEqb_neq (x y : number) : numEqb x y = false <-> x <> y.
Proof.
  rewrite <- numEqb_eq. destruct (numEqb x y); split; congruence.
Qed.

Lemma numLeb_le (x y : number) : numLeb x y = true <-> (x <= y)%Qc.
Proof. unfold numLeb, Qcle. apply Qle_bool_iff. Qed.

Lemma numLeb_gt (x y : number) : numLeb x y = false <-> (y < x)%Qc.
Proof.
  unfold numLeb, Qclt. split.
  - intros H. apply Qnot_le_lt. intros L. apply Qle_bool_iff in L. congruence.
  - intros H. destruct (Qle_bool x y) eqn:E; [|reflexivity].
    apply Qle_bool_iff in E. exfalso. exact (Qlt_not_le _ _ H E).
Qed.

Lemma numLtb_lt (x y : number) : numLtb x y = true <-> (x < y)%Qc.
Proof.
  unfold numLtb. rewrite negb_true_iff. apply (numLeb_gt y x).
Qed.

Lemma numLtb_ge (x y : number) : numLtb x y = false <-> (y <= x)%Qc.
Proof.
  unfold numLtb. rewrite negb_false_iff. apply (numLeb_le y x).
Qed.

Lemma includes_In (l : list string) (s : string) :
  JsStr.includes l s = true <-> In s l.
Proof.
  unfold JsStr.includes. rewrite existsb_exists. split.
  - intros [x [Hin Heq]]. apply String.eqb_eq in Heq. subst. exact Hin.
  - intros Hin. exists s. split; [exact Hin | apply String.eqb_refl].
Qed.

Lemma setAdd_In (k x : string) (s : list string) :
  In x (setAdd k s) <-> x = k \/ In x s.
Proof.
  unfold setAdd. destruct (JsStr.includes s k) eqn:E.
  - apply includes_In in E. split; [auto | intros [-> | H]; assumption].
  - rewrite in_app_iff. simpl. intuition congruence.
Qed.

Lemma truthy_Some (k : string) : truthy (Some k) = true <-> k <> "".
Proof.
  simpl. destruct k; simpl; split; congruence.
Qed.

(** ** Collected keys *)

Lemma addKeys_In (ks acc : list string) (x : string) :
  In x (fold_left (fun s k => setAdd k s) ks acc) <-> In x acc \/ In x ks.
Proof.
  revert acc. induction ks as [|k ks IH]; intros acc; simpl.
  - tauto.
  - rewrite IH, setAdd_In. split; intros H; intuition (subst; auto).
Qed.

Lemma collectFrom_In (rows : list KaplanRow) (acc : list string) (x : string) :
  In x (fold_left
          (fun acc row =>
             match row with
             | RowObject fields => fold_left (fun s k => setAdd k s) (map fst fields) acc
             | RowNotObject => acc
             end) rows acc)
  <-> In x acc \/ keyPresent x rows.
Proof.
  revert acc. induction rows as [|row rows IH]; intros acc; simpl.
  - split; [auto | intros [H | [f [[] _]]]; exact H].
  - rewrite IH. destruct row as [fields|].
    + rewrite addKeys_In. split.
      * intros [[H | H] | [f [Hf Hk]]].
        -- auto.
        -- right. exists fields. simpl. auto.
        -- right. exists f. simpl. auto.
      * intros [H | [f [[Hf | Hf] Hk]]].
        -- auto.
        -- inversion Hf; subst. auto.
        -- right. exists f. auto.
    + split.
      * intros [H | [f [Hf Hk]]]; [auto | right; exists f; simpl; auto].
      * intros [H | [f [[Hf | Hf] Hk]]]; [auto | discriminate | right; exists f; auto].
Qed.

Lemma collectKeys_In (rows : list KaplanRow) (x : string) :
  In x (collectKeys rows) <-> keyPresent x rows.
Proof.
  unfold collectKeys. rewrite collectFrom_In. simpl. tauto.
Qed.

(** ** Heuristic inference *)

(** C3: for non-empty rows whose columns include [time], [status] and
    [group], the heuristic returns the mapping
    [{time:'time', event:'status', group:'group'}] with confidence 1,
    whatever other columns are present. *)
Theorem fast_path_precedence (rows : list KaplanRow) :
  rows <> [] ->
  keyPresent "time" rows -> keyPresent "status" rows -> keyPresent "group" rows ->
  deriveMappingHeuristically rows =
  {| mapping :=
       Some {| time := "time"; group := Some "group"; event := Some "status";
               censored := None; survival := None |};
     confidence := num 1 |}.
Proof.
  intros Hne Ht Hs Hg.
  apply collectKeys_In, includes_In in Ht, Hs, Hg.
  destruct rows as [|row rows]; [congruence|].
  unfold deriveMappingHeuristically.
  rewrite Ht, Hs, Hg. reflexivity.
Qed.

Lemma findByPatterns_Some (keys patterns : list string) (k : string) :
  findByPatterns keys patterns = Some k ->
  In k keys /\ matchesPatterns patterns k = true.
Proof. unfold findByPatterns. apply find_some. Qed.

Lemma findByPatterns_truthy (keys patterns : list string) (k : string) :
  matchesPatterns patterns "" = false ->
  findByPatterns keys patterns = Some k ->
  truthy (Some k) = true.
Proof.
  intros Hempty Hfind. apply findByPatterns_Some in Hfind as [_ Hm].
  destruct k; [congruence | reflexivity].
Qed.

Lemma timeColumn_truthy (keys : list string) (k : string) :
  timeColumn keys = Some k -> truthy (Some k) = true.
Proof.
  unfold timeColumn, optOr. intros H.
  destruct (findByPatterns keys TIME_PATTERNS) eqn:E.
  - inversion H; subst. eapply findByPatterns_truthy; [|exact E]. reflexivity.
  - apply find_some in H as [_ Hw]. destruct k; [discriminate | reflexivity].
Qed.

Lemma getValue_empty_key (row : KaplanRow) : getValue row (Some "") = JsUndefined.
Proof. destruct row; reflexivity. Qed.

Lemma tally_empty_key (samples : list KaplanRow) (tally : ColumnTally) :
  fold_left (tallySample "") samples tally = tally.
Proof.
  revert tally. induction samples as [|row samples IH]; intros tally; simpl.
  - reflexivity.
  - unfold tallySample at 2. rewrite getValue_empty_key. simpl. apply IH.
Qed.

Lemma considerKey_truthy (samples : list KaplanRow) (reserved : list string)
      (best : option Candidate) (key : string) :
  (forall b, best = Some b -> candidateKey b <> "") ->
  forall c, considerKey samples reserved best key = Some c -> candidateKey c <> "".
Proof.
  intros Hbest c. unfold considerKey.
  destruct key as [|a key].
  - rewrite tally_empty_key. simpl.
    destruct (JsStr.includes reserved ""); intros H; apply Hbest; exact H.
  - repeat match goal with
           | |- context [if ?b then _ else _] => destruct b
           end;
      try (intros H; apply Hbest; exact H).
    all: destruct best as [b|];
      repeat match goal with
             | |- context [if ?b then _ else _] => destruct b
             end;
      intros H; inversion H; subst; simpl; try discriminate;
      apply Hbest; reflexivity.
Qed.

Lemma scan_truthy (samples : list KaplanRow) (reserved keys : list string)
      (best : option Candidate) :
  (forall b, best = Some b -> candidateKey b <> "") ->
  forall c, fold_left (considerKey samples reserved) keys best = Some c ->
            candidateKey c <> "".
Proof.
  revert best. induction keys as [|k keys IH]; intros best Hbest c; simpl.
  - apply Hbest.
  - apply IH. apply considerKey_truthy. exact Hbest.
Qed.

(** A group column inferred by [inferGroupColumn] is never the empty key, so
    the truthiness tests on [groupKey] only ask whether one was found. *)
Lemma inferGroupColumn_truthy (rows : list KaplanRow) (keys reserved : list string)
      (g : string) :
  inferGroupColumn rows keys reserved = Some g -> truthy (Some g) = true.
Proof.
  unfold inferGroupColumn. intros H. apply truthy_Some.
  destruct (truthy (findByPatterns keys GROUP_PATTERNS)
            && negb (JsStr.includes reserved (keyOf (findByPatterns keys GROUP_PATTERNS))))
           eqn:E.
  - rewrite H in E. apply andb_true_iff in E as [E _]. apply truthy_Some. exact E.
  - destruct (fold_left (considerKey (firstn SAMPLE_LIMIT rows) reserved) keys None)
      as [c|] eqn:F; simpl in H; [|discriminate].
    inversion H; subst. eapply scan_truthy; [|exact F]. discriminate.
Qed.

Lemma fast_path_not_taken (rows : list KaplanRow) :
  ~ (keyPresent "time" rows /\ keyPresent "status" rows /\ keyPresent "group" rows) ->
  JsStr.includes (collectKeys rows) "time" && JsStr.includes (collectKeys rows) "status"
  && JsStr.includes (collectKeys rows) "group" = false.
Proof.
  intros H.
  destruct (JsStr.includes (collectKeys rows) "time") eqn:Et;
    destruct (JsStr.includes (collectKeys rows) "status") eqn:Es;
    destruct (JsStr.includes (collectKeys rows) "group") eqn:Eg;
    try reflexivity.
  exfalso. apply H. repeat split; apply collectKeys_In, includes_In; assumption.
Qed.

(** C7: outside the fast path and with a time column, the confidence is 0.8
    for an event column with a group column, 0.6 for an event column without
    one, 0.7 for a survival column (and no event column) with a group column,
    0.5 without one, and the result is no mapping with confidence 0 when
    neither an event nor a survival column is found. *)
Theorem confidence_assignment (rows : list KaplanRow) (timeKey : string) :
  rows <> [] ->
  ~ (keyPresent "time" rows /\ keyPresent "status" rows /\ keyPresent "group" rows) ->
  timeColumn (collectKeys rows) = Some timeKey ->
  let keys := collectKeys rows in
  let eventCandidate := findByPatterns keys EVENT_PATTERNS in
  let survivalCandidate := findByPatterns keys SURVIVAL_PATTERNS in
  let groupKey :=
    inferGroupColumn rows keys (reservedFor timeKey eventCandidate survivalCandidate) in
  let result := deriveMappingHeuristically rows in
  (eventCandidate <> None -> groupKey <> None ->
   confidence result = ratio 8 10 /\
   exists m, mapping result = Some m /\ time m = timeKey /\ event m = eventCandidate
             /\ group m = groupKey /\ survival m = None)
  /\ (eventCandidate <> None -> groupKey = None ->
      confidence result = ratio 6 10 /\
      exists m, mapping result = Some m /\ time m = timeKey /\ event m = eventCandidate
                /\ group m = None /\ survival m = None)
  /\ (eventCandidate = None -> survivalCandidate <> None -> groupKey <> None ->
      confidence result = ratio 7 10 /\
      exists m, mapping result = Some m /\ time m = timeKey /\ event m = None
                /\ group m = groupKey /\ survival m = survivalCandidate)
  /\ (eventCandidate = None -> survivalCandidate <> None -> groupKey = None ->
      confidence result = ratio 5 10 /\
      exists m, mapping result = Some m /\ time m = timeKey /\ event m = None
                /\ survival m = survivalCandidate)
  /\ (eventCandidate = None -> survivalCandidate = None ->
      mapping result = None /\ confidence result = num 0).
Proof.
  intros Hne Hfast Htime keys eventCandidate survivalCandidate groupKey result.
  assert (Hres : result =
    let group1 := if truthy groupKey then groupKey else None in
    let censorKey := findByPatterns keys CENSOR_PATTERNS in
    let censored1 := if truthy censorKey then censorKey else None in
    if truthy eventCandidate
    then {| mapping :=
              Some {| time := timeKey; group := group1; event := eventCandidate;
                      censored := censored1; survival := None |};
            confidence := if truthy groupKey then ratio 8 10 else ratio 6 10 |}
    else if truthy survivalCandidate
    then {| mapping :=
              Some {| time := timeKey;
                      group := if truthy groupKey then group1
                               else Some (prettifyLabel (keyOf survivalCandidate));
                      event := None; censored := censored1;
                      survival := survivalCandidate |};
            confidence := if truthy groupKey then ratio 7 10 else ratio 5 10 |}
    else noMapping).
  { subst result. unfold deriveMappingHeuristically.
    destruct rows as [|row rows]; [congruence|].
    rewrite (fast_path_not_taken _ Hfast). cbv zeta.
    rewrite Htime, (timeColumn_truthy _ _ Htime).
    change (keyOf (Some timeKey)) with timeKey. reflexivity. }
  assert (Hev : forall e, eventCandidate = Some e -> truthy eventCandidate = true).
  { intros e He. rewrite He. eapply findByPatterns_truthy; [|exact He]. reflexivity. }
  assert (Hsv : forall s, survivalCandidate = Some s -> truthy survivalCandidate = true).
  { intros s Hs. rewrite Hs. eapply findByPatterns_truthy; [|exact Hs]. reflexivity. }
  assert (Hgr : forall g, groupKey = Some g -> truthy groupKey = true).
  { intros g Hg. rewrite Hg. eapply inferGroupColumn_truthy. exact Hg. }
  rewrite Hres. clear Hres. cbv zeta.
  repeat split.
  all: intros.
  all: destruct eventCandidate as [e|] eqn:Ee; try congruence.
  all: try rewrite (Hev e eq_refl).
  all: destruct survivalCandidate as [s|] eqn:Es; try congruence.
  all: try rewrite (Hsv s eq_refl).
  all: destruct groupKey as [g|] eqn:Eg; try congruence.
  all: try rewrite (Hgr g eq_refl).
  all: simpl; try reflexivity.
  all: eexists; repeat split; reflexivity.
Qed.

Lemma findByPatterns_first (keys patterns : list string) (k : string) :
  findByPatterns keys patterns = Some k <-> firstMatch patterns keys k.
Proof.
  unfold findByPatterns, firstMatch. induction keys as [|x keys IH]; simpl.
  - split; [discriminate|]. intros [before [after [E _]]].
    destruct before; discriminate.
  - destruct (matchesPatterns patterns x) eqn:M.
    + split.
      * intros E. injection E as <-. exists [], keys. auto.
      * intros [before [after [E [Hall Hk]]]]. destruct before as [|y before].
        -- injection E as -> _. reflexivity.
        -- injection E as <- _. inversion Hall; subst. congruence.
    + rewrite IH. split.
      * intros [before [after [E [Hall Hk]]]]. exists (x :: before), after.
        rewrite E. split; [reflexivity|]. split; [constructor; assumption | exact Hk].
      * intros [before [after [E [Hall Hk]]]]. destruct before as [|y before].
        -- injection E as -> _. congruence.
        -- injection E as <- E. inversion Hall; subst. exists before, after. auto.
Qed.

Lemma timeColumn_In (keys : list string) (k : string) :
  timeColumn keys = Some k -> In k keys.
Proof.
  unfold timeColumn, optOr. intros H.
  destruct (findByPatterns keys TIME_PATTERNS) eqn:E.
  - inversion H; subst. apply findByPatterns_Some in E. apply E.
  - apply find_some in H. apply H.
Qed.

Lemma findByPatterns_falsy (keys patterns : list string) :
  matchesPatterns patterns "" = false ->
  truthy (findByPatterns keys patterns) = false ->
  findByPatterns keys patterns = None.
Proof.
  intros Hempty Hf. destruct (findByPatterns keys patterns) as [k|] eqn:E; [|reflexivity].
  rewrite (findByPatterns_truthy keys patterns k Hempty E) in Hf. discriminate.
Qed.

(** C4 (as amended): the searches for the event and the survival column run
    over all collected keys, the time column included: the event (resp.
    survival) column of the mapping is the first collected key that matches
    an event (resp. survival) pattern (on the fast path, the column
    [status]); when that first key is the time column, the time column is
    the event (resp. survival) column too; so the two differ only when the
    time column matches no such pattern. *)
Theorem event_and_survival_columns (rows : list KaplanRow) (m : ColumnMapping) :
  mapping (deriveMappingHeuristically rows) = Some m ->
  In (time m) (collectKeys rows)
  /\ (forall e, event m = Some e ->
                In e (collectKeys rows)
                /\ matchesPatterns EVENT_PATTERNS e = true
                /\ (m = fastPathMapping \/ firstMatch EVENT_PATTERNS (collectKeys rows) e)
                /\ (matchesPatterns EVENT_PATTERNS (time m) = false -> e <> time m))
  /\ (forall s, survival m = Some s ->
                In s (collectKeys rows)
                /\ matchesPatterns SURVIVAL_PATTERNS s = true
                /\ firstMatch SURVIVAL_PATTERNS (collectKeys rows) s
                /\ event m = None
                /\ (matchesPatterns SURVIVAL_PATTERNS (time m) = false -> s <> time m))
  /\ (firstMatch EVENT_PATTERNS (collectKeys rows) (time m) -> event m = Some (time m))
  /\ (firstMatch SURVIVAL_PATTERNS (collectKeys rows) (time m) ->
      event m = None -> survival m = Some (time m)).
Proof.
  unfold deriveMappingHeuristically.
  destruct rows as [|row rows]; [discriminate|].
  set (keys := collectKeys (row :: rows)).
  destruct (JsStr.includes keys "time" && JsStr.includes keys "status"
            && JsStr.includes keys "group") eqn:Efast.
  - intros H. inversion H; subst m. cbn [time event survival fastPathMapping].
    apply andb_true_iff in Efast as [Efast _].
    apply andb_true_iff in Efast as [Et Es].
    apply includes_In in Et, Es.
    split; [exact Et|]. split; [|split; [|split]].
    + intros e He. injection He as <-.
      split; [exact Es|]. split; [reflexivity|]. split; [left; reflexivity|].
      intros _. discriminate.
    + discriminate.
    + intros [before [after [_ [_ Hm]]]]. vm_compute in Hm. discriminate Hm.
    + discriminate.
  - cbv zeta. destruct (timeColumn keys) as [t|] eqn:Etime; [|discriminate].
    destruct (negb (truthy (Some t))) eqn:Ett; [discriminate|].
    cbn [keyOf].
    pose proof (timeColumn_In keys t Etime) as Htin.
    destruct (truthy (findByPatterns keys EVENT_PATTERNS)) eqn:Ee.
    + intros H. inversion H; subst m. cbn [time event survival].
      split; [exact Htin|]. split; [|split; [|split]].
      * intros e He. pose proof (findByPatterns_Some _ _ _ He) as [Hin Hm].
        split; [exact Hin|]. split; [exact Hm|].
        split; [right; apply findByPatterns_first, He|].
        intros Hno Heq. rewrite <- Heq, Hm in Hno. discriminate.
      * discriminate.
      * intros Hfirst. apply findByPatterns_first, Hfirst.
      * intros _ He. rewrite He in Ee. discriminate.
    + destruct (truthy (findByPatterns keys SURVIVAL_PATTERNS)) eqn:Es; [|discriminate].
      intros H. inversion H; subst m. cbn [time event survival].
      split; [exact Htin|]. split; [|split; [|split]].
      * discriminate.
      * intros s Hs. pose proof (findByPatterns_Some _ _ _ Hs) as [Hin Hm].
        split; [exact Hin|]. split; [exact Hm|].
        split; [apply findByPatterns_first, Hs|]. split; [reflexivity|].
        intros Hno Heq. rewrite <- Heq, Hm in Hno. discriminate.
      * intros Hfirst. apply findByPatterns_first in Hfirst.
        rewrite Hfirst in Ee. rewrite (proj2 (truthy_Some t)) in Ee; [discriminate|].
        apply truthy_Some. apply negb_false_iff, Ett.
      * intros Hfirst _. apply findByPatterns_first, Hfirst.
Qed.

(** ** At-risk lookup *)

Lemma closestTimeBefore_from (recorded : list number) (t init : number) :
  let c :=
    fold_left
      (fun closestTime r => if numLeb r t && numLtb closestTime r then r else closestTime)
      recorded init in
  (init <= c)%Qc
  /\ (c = init \/ (In c recorded /\ (c <= t)%Qc))
  /\ (forall r, In r recorded -> (r <= t)%Qc -> (r <= c)%Qc).
Proof.
  revert init. induction recorded as [|r recorded IH]; intros init; simpl.
  - repeat split; [apply Qcle_refl | auto | intros r []].
  - destruct (numLeb r t && numLtb init r) eqn:E.
    + apply andb_true_iff in E as [Hle Hlt].
      apply numLeb_le in Hle. apply numLtb_lt in Hlt.
      destruct (IH r) as [H1 [H2 H3]]. repeat split.
      * eapply Qcle_trans; [apply Qclt_le_weak; exact Hlt | exact H1].
      * right. destruct H2 as [-> | [Hin Hct]]; [auto | auto].
      * intros r' [<- | Hin] Hr'; [exact H1 | apply H3; assumption].
    + destruct (IH init) as [H1 [H2 H3]]. repeat split.
      * exact H1.
      * destruct H2 as [-> | [Hin Hct]]; [auto | right; auto].
      * intros r' [<- | Hin] Hr'; [| apply H3; assumption].
        apply andb_false_iff in E as [E | E].
        -- apply numLeb_gt in E. exfalso. exact (Qclt_not_le _ _ E Hr').
        -- apply numLtb_ge in E. eapply Qcle_trans; [exact E | exact H1].
Qed.

Lemma closestTimeBefore_spec (recorded : list number) (t : number) :
  let c := closestTimeBefore recorded t in
  (num (-1) <= c)%Qc
  /\ (c = num (-1) \/ (In c recorded /\ (c <= t)%Qc))
  /\ (forall r, In r recorded -> (r <= t)%Qc -> (r <= c)%Qc).
Proof. apply closestTimeBefore_from. Qed.

(** What the lookup computes: ['-'] for an empty at-risk map; the mapped
    count for an exact key; otherwise the count recorded at the largest
    recorded time [r] with [-1 < r <= t], since the search starts from [-1]
    and [-1] also stands for nothing found; and then the first step's
    at-risk value (['-'] when it has none). *)
Lemma at_risk_lookup (series : KaplanSeries) (t : number) :
  let recorded := JsMap.keys (atRiskMap series) in
  let countAt r := JsMap.get numEqb r (atRiskMap series) in
  (atRiskMap series = [] -> getAtRiskAtTime series t = AtRiskDash)
  /\ (forall n, countAt t = Some n -> getAtRiskAtTime series t = AtRiskCount n)
  /\ (forall r n,
         countAt t = None ->
         In r recorded -> (num (-1) < r)%Qc -> (r <= t)%Qc ->
         (forall r', In r' recorded -> (num (-1) < r')%Qc -> (r' <= t)%Qc -> (r' <= r)%Qc) ->
         countAt r = Some n ->
         getAtRiskAtTime series t = AtRiskCount n)
  /\ (atRiskMap series <> [] ->
      countAt t = None ->
      (forall r, In r recorded -> (r <= t)%Qc -> (r <= num (-1))%Qc) ->
      getAtRiskAtTime series t = initialAtRisk series).
Proof.
  intros recorded countAt. unfold getAtRiskAtTime, JsMap.size. fold recorded.
  destruct (closestTimeBefore_spec recorded t) as [Hlow [Hwhich Hmax]].
  repeat split.
  - intros ->. reflexivity.
  - intros n Hn. subst countAt. cbv beta in Hn.
    destruct (atRiskMap series) as [|entry rest]; [discriminate|].
    simpl List.length. simpl Nat.eqb. cbv iota. rewrite Hn. reflexivity.
  - intros r n Hnone Hin Hlo Hle Hbest Hn. subst countAt. cbv beta in Hnone, Hn.
    destruct (atRiskMap series) as [|entry rest] eqn:Emap; [discriminate|].
    simpl List.length. simpl Nat.eqb. cbv iota. rewrite Hnone.
    assert (Hrc : (r <= closestTimeBefore recorded t)%Qc) by (apply Hmax; assumption).
    assert (Hc : (num (-1) < closestTimeBefore recorded t)%Qc)
      by (eapply Qclt_le_trans; eassumption).
    destruct Hwhich as [Heq | [Hcin Hct]].
    + exfalso. rewrite Heq in Hc. exact (Qclt_not_le _ _ Hc (Qcle_refl _)).
    + assert (Hcr : closestTimeBefore recorded t = r).
      { apply Qcle_antisym; [apply Hbest; assumption | exact Hrc]. }
      rewrite Hcr.
      assert (Hne : numEqb r (num (-1)) = false).
      { apply numEqb_neq. intros E. rewrite E in Hlo.
        exact (Qclt_not_le _ _ Hlo (Qcle_refl _)). }
      rewrite Hne. simpl negb. cbv iota. rewrite Hn. reflexivity.
  - intros Hne Hnone Hall. subst countAt. cbv beta in Hnone.
    destruct (atRiskMap series) as [|entry rest] eqn:Emap; [congruence|].
    simpl List.length. simpl Nat.eqb. cbv iota. rewrite Hnone.
    assert (Hc : closestTimeBefore recorded t = num (-1)).
    { destruct Hwhich as [Heq | [Hcin Hct]]; [exact Heq|].
      apply Qcle_antisym; [apply Hall; assumption | exact Hlow]. }
    rewrite Hc, numEqb_refl. reflexivity.
Qed.

(** ** Mapping resolution *)

Lemma acceptsHeuristic_true (h : HeuristicResult) :
  acceptsHeuristic h = true <-> heuristicAccepted h.
Proof.
  unfold acceptsHeuristic, heuristicAccepted. destruct (mapping h) as [m|].
  - rewrite numLeb_le. split.
    + intros H. exists m. auto.
    + intros [m' [_ H]]. exact H.
  - split; [discriminate | intros [m' [H _]]; discriminate].
Qed.

Lemma acceptsHeuristic_false (h : HeuristicResult) :
  acceptsHeuristic h = false <-> ~ heuristicAccepted h.
Proof.
  rewrite <- acceptsHeuristic_true. destruct (acceptsHeuristic h); intuition congruence.
Qed.

Section EndpointFacts.
Variable fetch : list KaplanRow -> Completion Response.

Lemma afterFetch_no_mapping (h : HeuristicResult) (st : ComponentState) :
  afterFetch h None false st = fallbackState h st.
Proof. reflexivity. Qed.

Lemma fetchLLMMapping_returns (rows : list KaplanRow) :
  exists result, fst (fetchLLMMapping fetch rows) = Return result.
Proof.
  unfold fetchLLMMapping, tryCatch, bind, callFetch, ret.
  destruct rows as [|row rows]; [eexists; reflexivity|].
  cbn [fst snd]. destruct (fetch (firstn 25 (row :: rows))) as [r|e];
    cbn [fst snd]; [|eexists; reflexivity].
  destruct (ok r); cbn [negb fst snd]; [|eexists; reflexivity].
  destruct (json r) as [[p|]|e]; cbn [fst snd]; try (eexists; reflexivity).
  destruct (llmMapping p); eexists; reflexivity.
Qed.

Lemma fetchLLMMapping_requests (rows : list KaplanRow) :
  snd (fetchLLMMapping fetch rows) =
  match rows with [] => [] | _ :: _ => [firstn 25 rows] end.
Proof.
  unfold fetchLLMMapping, tryCatch, bind, callFetch, ret.
  destruct rows as [|row rows]; [reflexivity|].
  cbn [fst snd]. destruct (fetch (firstn 25 (row :: rows))) as [r|e];
    cbn [fst snd]; [|reflexivity].
  destruct (ok r); cbn [negb fst snd]; [|reflexivity].
  destruct (json r) as [[p|]|e]; cbn [fst snd]; try reflexivity.
  destruct (llmMapping p); reflexivity.
Qed.

Lemma fetchLLMMapping_failure (rows : list KaplanRow) :
  rows = [] \/ CollaboratorFailure fetch rows ->
  fst (fetchLLMMapping fetch rows) = Return None.
Proof.
  unfold fetchLLMMapping, tryCatch, bind, callFetch, ret.
  intros [-> | Hfail]; [reflexivity|].
  destruct rows as [|row rows]; [reflexivity|].
  cbn [fst snd].
  destruct Hfail as [e He | r Hr Hok | r e Hr Hok Hj | r Hr Hok Hj | r p Hr Hok Hj Hm];
    try rewrite He; try rewrite Hr; cbn [fst snd]; try rewrite Hok; cbn [negb fst snd];
    try rewrite Hj; cbn [fst snd]; try rewrite Hm; reflexivity.
Qed.

Lemma fetchLLMMapping_success (rows : list KaplanRow) (r : Response)
      (p : LLMColumnInference) (m : ColumnMapping) :
  rows <> [] ->
  fetch (firstn 25 rows) = Return r -> ok r = true -> json r = Return (Some p) ->
  llmMapping p = Some m ->
  fst (fetchLLMMapping fetch rows) = Return (Some p).
Proof.
  unfold fetchLLMMapping, tryCatch, bind, callFetch, ret.
  intros Hne Hr Hok Hj Hm. destruct rows as [|row rows]; [congruence|].
  cbn [fst snd]. rewrite Hr. cbn [fst snd]. rewrite Hok. cbn [negb fst snd].
  rewrite Hj. cbn [fst snd]. rewrite Hm. reflexivity.
Qed.

(** C8 (as amended): a heuristic mapping with confidence at least 0.75 is
    taken without a request; otherwise, for non-empty rows, one request is
    sent, with the first 25 rows at most (for empty rows none is sent); a
    response with a mapping is taken whatever its confidence and marked as
    coming from the endpoint; when the call fails (network error, bad status,
    malformed or null body, null mapping) the heuristic mapping is used if
    there is one, else the state is no mapping with confidence 0; and the
    resolution never throws. *)
Theorem resolve_mapping_outcomes (data : list KaplanRow) (h : HeuristicResult)
        (st : ComponentState) :
  let run := resolveMapping fetch data h st in
  (exists st', fst run = Return st')
  /\ (forall m, mapping h = Some m -> (ratio 75 100 <= confidence h)%Qc ->
      run = (Return {| columnMapping := Some m;
                       mappingConfidence := confidence h;
                       llmAttempted := llmAttempted st;
                       notified := notified st ++ [(m, confidence h, false)] |},
             []))
  /\ (~ heuristicAccepted h ->
      snd run = match data with [] => [] | _ :: _ => [firstn 25 data] end
      /\ forall body, In body (snd run) -> (List.length body <= 25)%nat)
  /\ (forall r p m,
         ~ heuristicAccepted h -> data <> [] ->
         fetch (firstn 25 data) = Return r -> ok r = true ->
         json r = Return (Some p) -> llmMapping p = Some m ->
         fst run =
         Return {| columnMapping := Some m;
                   mappingConfidence := orElse (llmConfidence p) (confidence h);
                   llmAttempted := true;
                   notified :=
                     notified st ++ [(m, orElse (llmConfidence p) (confidence h), true)] |})
  /\ (~ heuristicAccepted h -> data = [] \/ CollaboratorFailure fetch data ->
      fst run = Return (fallbackState h st)).
Proof.
  intros run. subst run. unfold resolveMapping.
  repeat split.
  - destruct (acceptsHeuristic h); [eexists; reflexivity|].
    unfold bind. destruct (fetchLLMMapping_returns data) as [result Hres].
    rewrite Hres. eexists. reflexivity.
  - intros m Hm Hc.
    assert (Hacc : acceptsHeuristic h = true)
      by (apply acceptsHeuristic_true; exists m; auto).
    rewrite Hacc. unfold ret, commitHeuristic. rewrite Hm. reflexivity.
  - apply acceptsHeuristic_false in H. rewrite H. unfold bind.
    destruct (fetchLLMMapping_returns data) as [result Hres]. rewrite Hres.
    cbn [fst snd ret]. rewrite app_nil_r. apply fetchLLMMapping_requests.
  - intros body. apply acceptsHeuristic_false in H. rewrite H. unfold bind.
    destruct (fetchLLMMapping_returns data) as [result Hres]. rewrite Hres.
    cbn [fst snd ret]. rewrite app_nil_r, fetchLLMMapping_requests.
    destruct data as [|row data]; [intros []|].
    intros [<- | []]. apply firstn_le_length.
  - intros r p m Hno Hne Hr Hok Hj Hm.
    apply acceptsHeuristic_false in Hno. rewrite Hno. unfold bind.
    rewrite (fetchLLMMapping_success data r p m Hne Hr Hok Hj Hm).
    cbn [fst snd ret]. unfold afterFetch. destruct p as [pm pc pr].
    cbn [llmMapping llmConfidence] in *. rewrite Hm. reflexivity.
  - intros Hno Hfail.
    apply acceptsHeuristic_false in Hno. rewrite Hno. unfold bind.
    rewrite (fetchLLMMapping_failure data Hfail).
    cbn [fst snd ret]. rewrite afterFetch_no_mapping. reflexivity.
Qed.

End EndpointFacts.

(** ** Cancellation of stale resolutions *)

Lemma find_run_In (id : nat) (runs : list EffectRun) (r : EffectRun) :
  findRun id runs = Some r -> In r runs /\ runId r = id.
Proof.
  unfold findRun. intros H. apply find_some in H as [Hin Hid].
  apply Nat.eqb_eq in Hid. auto.
Qed.

Lemma componentStep_invariant (c : Component) (e : ComponentEvent) :
  staleRunsCancelled c -> staleRunsCancelled (componentStep c e).
Proof.
  unfold staleRunsCancelled. intros Hinv. destruct e as [data | id llmResult]; simpl.
  - assert (Hclean : forall r,
               In r (map (fun r => if (runId r =? latest c)%nat then cancelRun r else r)
                         (pending c)) ->
               runCancelled r = true).
    { intros r Hin. apply in_map_iff in Hin as [r0 [<- Hin0]].
      destruct (runId r0 =? latest c)%nat eqn:E; [reflexivity|].
      apply Nat.eqb_neq in E. apply Hinv; assumption. }
    destruct (acceptsHeuristic (deriveMappingHeuristically data)); simpl.
    + intros r Hin _. apply Hclean, Hin.
    + intros r Hin Hid. apply in_app_iff in Hin as [Hin | [<- | []]].
      * apply Hclean, Hin.
      * simpl in Hid. congruence.
  - destruct (findRun id (pending c)) as [r0|]; simpl; [|exact Hinv].
    intros r Hin Hid. unfold dropRun in Hin. apply filter_In in Hin as [Hin _].
    apply Hinv; assumption.
Qed.

Lemma componentRun_invariant (events : list ComponentEvent) :
  staleRunsCancelled (componentRun events).
Proof.
  unfold componentRun.
  assert (H : forall c, staleRunsCancelled c ->
                        staleRunsCancelled (fold_left componentStep events c)).
  { induction events as [|e events IH]; intros c Hc; simpl; [exact Hc|].
    apply IH, componentStep_invariant, Hc. }
  apply H. intros r [].
Qed.

Lemma componentStep_latest (c : Component) (e : ComponentEvent) :
  latestRunLive c -> latestRunLive (componentStep c e).
Proof.
  unfold latestRunLive. intros Hinv. destruct e as [data | id llmResult]; simpl.
  - assert (Hclean : forall r,
               In r (map (fun r => if (runId r =? latest c)%nat then cancelRun r else r)
                         (pending c)) ->
               (runId r <= latest c)%nat).
    { intros r Hin. apply in_map_iff in Hin as [r0 [<- Hin0]].
      destruct (Hinv r0 Hin0) as [Hle _].
      destruct (runId r0 =? latest c)%nat; exact Hle. }
    destruct (acceptsHeuristic (deriveMappingHeuristically data)); simpl.
    + intros r Hin. apply Hclean in Hin. split; lia.
    + intros r Hin. apply in_app_iff in Hin as [Hin | [<- | []]].
      * apply Hclean in Hin. split; lia.
      * simpl. auto.
  - destruct (findRun id (pending c)) as [r0|]; simpl; [|exact Hinv].
    intros r Hin. unfold dropRun in Hin. apply filter_In in Hin as [Hin _].
    apply Hinv; assumption.
Qed.

Lemma componentRun_latest (events : list ComponentEvent) :
  latestRunLive (componentRun events).
Proof.
  unfold componentRun.
  assert (H : forall c, latestRunLive c ->
                        latestRunLive (fold_left componentStep events c)).
  { induction events as [|e events IH]; intros c Hc; simpl; [exact Hc|].
    apply IH, componentStep_latest, Hc. }
  apply H. intros r [].
Qed.

(** X18: the call of the latest run is not discarded: when it settles, the
    code after the [await] runs with [cancelled = false], whatever happened
    before. *)
Lemma latest_result_applied (events : list ComponentEvent) (r : EffectRun)
      (llmResult : option LLMColumnInference) :
  let c := componentRun events in
  findRun (latest c) (pending c) = Some r ->
  view (componentStep c (Settled (latest c) llmResult))
  = afterFetch (runHeuristic r) llmResult false (view c).
Proof.
  intros c Hfind. simpl. rewrite Hfind. simpl.
  apply find_run_In in Hfind as [Hin Hid].
  destruct (componentRun_latest events r Hin) as [_ Hlive].
  rewrite (Hlive Hid). reflexivity.
Qed.

(** C9: after any sequence of input changes and settled calls, the result of
    a call that was started for an earlier input is discarded when it
    arrives: it changes neither the mapping, nor the confidence, nor the
    notifications of the component. *)
Theorem stale_result_discarded (events : list ComponentEvent) (r : EffectRun)
        (llmResult : option LLMColumnInference) :
  let c := componentRun events in
  In r (pending c) -> runId r <> latest c ->
  view (componentStep c (Settled (runId r) llmResult)) = view c.
Proof.
  intros c Hin Hid. simpl.
  destruct (findRun (runId r) (pending c)) as [r0|] eqn:F; [|reflexivity].
  apply find_run_In in F as [Hin0 Hid0]. simpl.
  assert (Hc : runCancelled r0 = true).
  { apply (componentRun_invariant events); [exact Hin0 | rewrite Hid0; exact Hid]. }
  unfold afterFetch. rewrite Hc. reflexivity.
Qed.

(** ** Maps *)

Section MapFacts.
Context {K V : Type}.
Variable keyEq : K -> K -> bool.
Hypothesis keyEq_eq : forall a b, keyEq a b = true <-> a = b.

Lemma map_get_In (k : K) (v : V) (m : list (K * V)) :
  JsMap.get keyEq k m = Some v -> In (k, v) m.
Proof.
  induction m as [|[k' v'] m IH]; simpl; [discriminate|].
  destruct (keyEq k k') eqn:E.
  - apply keyEq_eq in E. subst. intros H. inversion H. auto.
  - auto.
Qed.

Lemma map_get_None (k : K) (m : list (K * V)) :
  JsMap.get keyEq k m = None <-> ~ In k (JsMap.keys m).
Proof.
  induction m as [|[k' v'] m IH]; simpl.
  - tauto.
  - destruct (keyEq k k') eqn:E.
    + apply keyEq_eq in E. subst. split; [discriminate | intros H; exfalso; auto].
    + rewrite IH. split.
      * intros H [H1 | H1]; [|auto]. subst.
        assert (keyEq k k = true) by (apply keyEq_eq; reflexivity). congruence.
      * intros H H1. auto.
Qed.

Lemma map_In_get (k : K) (v : V) (m : list (K * V)) :
  NoDup (JsMap.keys m) -> In (k, v) m -> JsMap.get keyEq k m = Some v.
Proof.
  induction m as [|[k' v'] m IH]; simpl; [intros _ []|].
  intros Hnd [Heq | Hin].
  - inversion Heq; subst.
    assert (E : keyEq k k = true) by (apply keyEq_eq; reflexivity).
    rewrite E. reflexivity.
  - inversion Hnd as [|? ? Hnotin Hnd']; subst.
    destruct (keyEq k k') eqn:E.
    + apply keyEq_eq in E. subst. exfalso. apply Hnotin.
      apply (in_map fst) in Hin. exact Hin.
    + apply IH; assumption.
Qed.

Lemma map_set_In (k k0 : K) (v v0 : V) (m : list (K * V)) :
  In (k, v) (JsMap.set keyEq k0 v0 m) -> (k = k0 /\ v = v0) \/ In (k, v) m.
Proof.
  induction m as [|[k' v'] m IH]; simpl.
  - intros [H | []]. inversion H. auto.
  - destruct (keyEq k0 k') eqn:E.
    + apply keyEq_eq in E. subst. intros [H | H]; [inversion H; auto | auto].
    + intros [H | H]; [auto|]. destruct (IH H); auto.
Qed.

Lemma map_set_keys (k0 : K) (v0 : V) (m : list (K * V)) :
  JsMap.keys (JsMap.set keyEq k0 v0 m) =
  if JsMap.has keyEq k0 m then JsMap.keys m else (JsMap.keys m ++ [k0])%list.
Proof.
  unfold JsMap.has. induction m as [|[k' v'] m IH]; simpl; [reflexivity|].
  destruct (keyEq k0 k') eqn:E; simpl; [reflexivity|].
  rewrite IH. destruct (JsMap.get keyEq k0 m); reflexivity.
Qed.

Lemma map_set_NoDup (k0 : K) (v0 : V) (m : list (K * V)) :
  NoDup (JsMap.keys m) -> NoDup (JsMap.keys (JsMap.set keyEq k0 v0 m)).
Proof.
  intros Hnd. rewrite map_set_keys. unfold JsMap.has.
  destruct (JsMap.get keyEq k0 m) eqn:E; [exact Hnd|].
  apply map_get_None in E.
  apply NoDup_app; [exact Hnd | constructor; [intros [] | constructor] |].
  intros x Hx [<- | []]. contradiction.
Qed.

Lemma map_get_set_same (k0 : K) (v0 : V) (m : list (K * V)) :
  JsMap.get keyEq k0 (JsMap.set keyEq k0 v0 m) = Some v0.
Proof.
  assert (R : keyEq k0 k0 = true) by (apply keyEq_eq; reflexivity).
  induction m as [|[k' v'] m IH]; simpl.
  - rewrite R. reflexivity.
  - destruct (keyEq k0 k') eqn:E; simpl; rewrite E; [reflexivity | exact IH].
Qed.

Lemma map_get_set_other (k k0 : K) (v0 : V) (m : list (K * V)) :
  k <> k0 -> JsMap.get keyEq k (JsMap.set keyEq k0 v0 m) = JsMap.get keyEq k m.
Proof.
  intros Hne.
  assert (N : keyEq k k0 = false).
  { destruct (keyEq k k0) eqn:E; [apply keyEq_eq in E; contradiction | reflexivity]. }
  induction m as [|[k' v'] m IH]; simpl.
  - rewrite N. reflexivity.
  - destruct (keyEq k0 k') eqn:E; simpl.
    + apply keyEq_eq in E. subst. rewrite N. reflexivity.
    + rewrite IH. reflexivity.
Qed.

Lemma map_set_nonempty (k0 : K) (v0 : V) (m : list (K * V)) :
  JsMap.set keyEq k0 v0 m <> [].
Proof.
  destruct m as [|[k' v'] m]; simpl; [discriminate|].
  destruct (keyEq k0 k'); discriminate.
Qed.

End MapFacts.

(** ** Sorting *)

Section SortFacts.
Context {A : Type}.
Variable key : A -> number.

Lemma insertBy_perm (x : A) (l : list A) : Permutation (insertBy key x l) (x :: l).
Proof.
  induction l as [|y l IH]; simpl; [apply Permutation_refl|].
  destruct (numLeb (key x) (key y)); [apply Permutation_refl|].
  eapply Permutation_trans; [apply perm_skip, IH | apply perm_swap].
Qed.

Lemma sortBy_perm (l : list A) : Permutation (sortBy key l) l.
Proof.
  induction l as [|x l IH]; simpl; [apply Permutation_refl|].
  eapply Permutation_trans; [apply insertBy_perm | apply perm_skip, IH].
Qed.

Lemma insertBy_sorted (x : A) (l : list A) :
  StronglySorted (fun a b => (key a <= key b)%Qc) l ->
  StronglySorted (fun a b => (key a <= key b)%Qc) (insertBy key x l).
Proof.
  induction l as [|y l IH]; simpl; intros Hs.
  - constructor; constructor.
  - inversion Hs as [|? ? Hs' Hall]; subst.
    destruct (numLeb (key x) (key y)) eqn:E.
    + apply numLeb_le in E. constructor; [exact Hs|].
      constructor; [exact E|].
      eapply Forall_impl; [|exact Hall]. cbv beta. intros z Hz.
      eapply Qcle_trans; eassumption.
    + apply numLeb_gt in E. constructor; [apply IH; exact Hs'|].
      eapply Permutation_Forall; [apply Permutation_sym, insertBy_perm|].
      constructor; [apply Qclt_le_weak; exact E | exact Hall].
Qed.

Lemma sortBy_sorted (l : list A) :
  StronglySorted (fun a b => (key a <= key b)%Qc) (sortBy key l).
Proof.
  induction l as [|x l IH]; simpl; [constructor | apply insertBy_sorted, IH].
Qed.

End SortFacts.

Lemma sorted_snoc {A : Type} (R : A -> A -> Prop) (l : list A) (y : A) :
  StronglySorted R l -> Forall (fun x => R x y) l -> StronglySorted R (l ++ [y]).
Proof.
  induction l as [|x l IH]; simpl; intros Hs Hall.
  - constructor; constructor.
  - inversion Hs; subst. inversion Hall; subst.
    constructor; [apply IH; assumption|].
    apply Forall_app. split; [assumption | constructor; [assumption | constructor]].
Qed.

Lemma sumZ_perm (l l' : list Z) : Permutation l l' -> sumZ l = sumZ l'.
Proof.
  induction 1; simpl; lia.
Qed.

(** ** Arithmetic of the product-limit update *)

Lemma num_le (x y : Z) : (x <= y)%Z <-> (num x <= num y)%Qc.
Proof.
  unfold Qcle, num, Q2Qc. cbn [this]. rewrite !Qred_correct, <- Zle_Qle. reflexivity.
Qed.

Lemma num_lt (x y : Z) : (x < y)%Z <-> (num x < num y)%Qc.
Proof.
  unfold Qclt, num, Q2Qc. cbn [this]. rewrite !Qred_correct, <- Zlt_Qlt. reflexivity.
Qed.

Lemma num_0 : num 0 = 0%Qc.
Proof. apply Qc_is_canon. reflexivity. Qed.

Lemma num_1 : num 1 = 1%Qc.
Proof. apply Qc_is_canon. reflexivity. Qed.

Lemma product_limit_bounds (s : number) (a e : Z) :
  (num 0 <= s)%Qc -> (0 < a)%Z -> (0 <= e <= a)%Z ->
  (num 0 <= s * (num (a - e) / num a))%Qc
  /\ (s * (num (a - e) / num a) <= s)%Qc.
Proof.
  intros Hs Ha He.
  assert (Hpos : (num 0 < num a)%Qc) by (apply (proj1 (num_lt _ _)); exact Ha).
  assert (Hnum : (num 0 <= num (a - e))%Qc) by (apply (proj1 (num_le _ _)); lia).
  assert (Hden : (num (a - e) <= num a)%Qc) by (apply (proj1 (num_le _ _)); lia).
  rewrite num_0 in *.
  assert (Hnz : num a <> 0%Qc).
  { intros E. rewrite E in Hpos. exact (Qclt_not_le _ _ Hpos (Qcle_refl _)). }
  set (f := (num (a - e) / num a)%Qc).
  assert (Hfa : (f * num a)%Qc = num (a - e)).
  { unfold f. rewrite Qcmult_comm. apply Qcmult_div_r. exact Hnz. }
  assert (Hf0 : (0 <= f)%Qc).
  { apply (Qcmult_lt_0_le_reg_r _ _ (num a) Hpos).
    rewrite Qcmult_0_l, Hfa. exact Hnum. }
  assert (Hf1 : (f <= 1)%Qc).
  { apply (Qcmult_lt_0_le_reg_r _ _ (num a) Hpos).
    rewrite Qcmult_1_l, Hfa. exact Hden. }
  split.
  - rewrite <- (Qcmult_0_l s), (Qcmult_comm s f).
    apply Qcmult_le_compat_r; assumption.
  - rewrite <- (Qcmult_1_l s) at 2. rewrite (Qcmult_comm s f).
    apply Qcmult_le_compat_r; assumption.
Qed.

(** ** Grouping of the rows *)

Lemma values_set_In (t0 t : number) (b0 b : Bucket) (timeline : list (number * Bucket)) :
  In b (JsMap.values (JsMap.set numEqb t0 b0 timeline)) ->
  b = b0 \/ In b (JsMap.values timeline).
Proof.
  unfold JsMap.values. intros H. apply in_map_iff in H as [[k v] [Hv Hin]].
  simpl in Hv. subst v.
  apply (map_set_In numEqb numEqb_eq) in Hin as [[_ ->] | Hin]; [auto|].
  right. apply in_map_iff. exists (k, b). auto.
Qed.

Lemma keys_set_In (t0 t : number) (b0 : Bucket) (timeline : list (number * Bucket)) :
  In t (JsMap.keys (JsMap.set numEqb t0 b0 timeline)) ->
  t = t0 \/ In t (JsMap.keys timeline).
Proof.
  rewrite (map_set_keys numEqb). destruct (JsMap.has numEqb t0 timeline); [auto|].
  rewrite in_app_iff. simpl. intuition.
Qed.

Lemma timelineOk_nil : timelineOk [].
Proof. split; constructor. Qed.

Lemma timelineOk_bucket (timeline : list (number * Bucket)) (t : number) :
  timelineOk timeline ->
  bucketOk (orElse (JsMap.get numEqb t timeline) emptyBucket).
Proof.
  intros [_ Hall]. destruct (JsMap.get numEqb t timeline) as [b|] eqn:E; simpl.
  - apply (map_get_In numEqb numEqb_eq) in E.
    rewrite Forall_forall in Hall. apply Hall.
    unfold JsMap.values. apply in_map_iff. exists (t, b). auto.
  - split; simpl; lia.
Qed.

Lemma timelineOk_set (timeline : list (number * Bucket)) (t : number) (b : Bucket) :
  timelineOk timeline -> bucketOk b -> timelineOk (JsMap.set numEqb t b timeline).
Proof.
  intros [Hnd Hall] Hb. split.
  - apply (map_set_NoDup numEqb numEqb_eq). exact Hnd.
  - apply Forall_forall. intros b' Hin.
    apply (values_set_In t t) in Hin as [-> | Hin]; [exact Hb|].
    rewrite Forall_forall in Hall. apply Hall. exact Hin.
Qed.

Lemma addEventRow_ok (rows : list KaplanRow) (m : ColumnMapping)
      (grouped : list (string * list (number * Bucket))) (row : KaplanRow) :
  In row rows -> groupedOk rows m grouped -> groupedOk rows m (addEventRow m grouped row).
Proof.
  intros Hrow Hok. unfold addEventRow.
  destruct row as [fields|]; [|exact Hok].
  destruct (parseNumber (getValue (RowObject fields) (Some (time m)))) as [t|] eqn:P;
    [|exact Hok].
  set (g := groupLabelOf (group m) "Group" (RowObject fields)).
  set (grouped1 := if JsMap.has String.eqb g grouped then grouped
                   else JsMap.set String.eqb g [] grouped).
  assert (Hok1 : groupedOk rows m grouped1).
  { subst grouped1. destruct (JsMap.has String.eqb g grouped); [exact Hok|].
    intros g' tl' Hin.
    apply (map_set_In String.eqb String.eqb_eq) in Hin as [[_ ->] | Hin].
    - split; [apply timelineOk_nil | intros t' []].
    - apply Hok in Hin. exact Hin. }
  set (timeline := orElse (JsMap.get String.eqb g grouped1) []).
  assert (Htl : timelineOk timeline
                /\ forall t', In t' (JsMap.keys timeline) -> parsedTime rows m t').
  { subst timeline. destruct (JsMap.get String.eqb g grouped1) as [tl|] eqn:E; simpl.
    - apply (map_get_In String.eqb String.eqb_eq) in E. apply Hok1 in E. exact E.
    - split; [apply timelineOk_nil | intros t' []]. }
  destruct Htl as [Htl Hkeys].
  pose proof (timelineOk_bucket timeline t Htl) as [Hb1 Hb2].
  intros g' tl' Hin.
  apply (map_set_In String.eqb String.eqb_eq) in Hin as [[_ ->] | Hin];
    [|apply Hok1 in Hin; exact Hin].
  split.
  - apply timelineOk_set; [exact Htl|].
    destruct (countsAsEvent m (RowObject fields)); split; simpl; lia.
  - intros t' Hin. apply keys_set_In in Hin as [-> | Hin]; [|apply Hkeys; exact Hin].
    exists (RowObject fields). auto.
Qed.

Lemma groupRows_from_ok (all rows : list KaplanRow) (m : ColumnMapping)
      (grouped : list (string * list (number * Bucket))) :
  incl rows all -> groupedOk all m grouped ->
  groupedOk all m (fold_left (addEventRow m) rows grouped).
Proof.
  revert grouped. induction rows as [|row rows IH]; intros grouped Hincl Hok; simpl.
  - exact Hok.
  - apply IH.
    + intros x Hx. apply Hincl. right. exact Hx.
    + apply addEventRow_ok; [apply Hincl; left; reflexivity | exact Hok].
Qed.

Lemma groupRows_ok (rows : list KaplanRow) (m : ColumnMapping) :
  groupedOk rows m (groupRows rows m).
Proof.
  unfold groupRows. apply groupRows_from_ok; [apply incl_refl | intros g tl []].
Qed.

Lemma addEventRow_nonempty (m : ColumnMapping)
      (grouped : list (string * list (number * Bucket))) (row : KaplanRow) :
  grouped <> [] \/ parseNumber (getValue row (Some (time m))) <> None ->
  addEventRow m grouped row <> [].
Proof.
  unfold addEventRow. intros H. destruct row as [fields|].
  - destruct (parseNumber (getValue (RowObject fields) (Some (time m)))) as [t|].
    + apply map_set_nonempty.
    + destruct H as [H | H]; [exact H | congruence].
  - destruct H as [H | H]; [exact H | simpl in H; congruence].
Qed.

Lemma groupRows_nonempty (rows : list KaplanRow) (m : ColumnMapping)
      (grouped : list (string * list (number * Bucket))) :
  grouped <> [] \/ (exists row, In row rows
                                /\ parseNumber (getValue row (Some (time m))) <> None) ->
  fold_left (addEventRow m) rows grouped <> [].
Proof.
  revert grouped. induction rows as [|row rows IH]; intros grouped H; simpl.
  - destruct H as [H | [row [[] _]]]. exact H.
  - apply IH. destruct H as [H | [row' [[<- | Hin] Hp]]].
    + left. apply addEventRow_nonempty. auto.
    + left. apply addEventRow_nonempty. auto.
    + right. exists row'. auto.
Qed.

(** ** The loop over the ordered times *)

Lemma eventStep_lastStepCurrent (timeline : list (number * Bucket)) (st : EventLoop)
      (t : number) :
  lastStepCurrent st -> lastStepCurrent (eventStep timeline st t).
Proof.
  intros [earlier [previous [Hsteps Hsurv]]]. unfold eventStep, lastStepCurrent.
  destruct (atRisk st <=? 0)%Z; cbn [stepsOut survivalNow].
  - exists earlier, previous. auto.
  - eexists. eexists. split; reflexivity.
Qed.

Lemma eventLoop_lastStepCurrent (timeline : list (number * Bucket)) (ts : list number)
      (st : EventLoop) :
  lastStepCurrent st -> lastStepCurrent (fold_left (eventStep timeline) ts st).
Proof.
  revert st. induction ts as [|t ts IH]; intros st H; simpl; [exact H|].
  apply IH, eventStep_lastStepCurrent, H.
Qed.

Lemma eventLoopInit_lastStepCurrent (total : Z) : lastStepCurrent (eventLoopInit total).
Proof.
  exists [], {| stepTime := num 0; stepSurvival := num 100; stepAtRisk := Some total |}.
  split; reflexivity.
Qed.

Lemma eventLoop_appends (timeline : list (number * Bucket)) (ts : list number)
      (st : EventLoop) :
  exists moreSteps moreCensored,
    stepsOut (fold_left (eventStep timeline) ts st) = (stepsOut st ++ moreSteps)%list
    /\ censoredOut (fold_left (eventStep timeline) ts st)
       = (censoredOut st ++ moreCensored)%list.
Proof.
  revert st. induction ts as [|t ts IH]; intros st; simpl.
  - exists [], []. rewrite !app_nil_r. auto.
  - destruct (IH (eventStep timeline st t)) as [ms [mc [Hs Hc]]].
    rewrite Hs, Hc. unfold eventStep.
    destruct (atRisk st <=? 0)%Z; cbn [stepsOut censoredOut].
    + exists ms, mc. auto.
    + rewrite <- !app_assoc. eexists. eexists. split; reflexivity.
Qed.

(** C5: at a time whose bucket holds no event and [c > 0] censored subjects,
    with a positive at-risk count, the step pushed has the survival of the
    step before it, [c] censored points are pushed at that survival, and the
    at-risk count carried to the next time drops by [c]. *)
Theorem censoring_preserves_survival (g : string) (timeline : list (number * Bucket))
        (before after : list number) (t : number) (c : Z) :
  orderedTimes timeline = (before ++ t :: after)%list ->
  JsMap.get numEqb t timeline = Some {| events := 0; censoredCount := c |} ->
  (0 < c)%Z ->
  let st := fold_left (eventStep timeline) before (eventLoopInit (bucketTotal timeline)) in
  let st1 := eventStep timeline st t in
  (0 < atRisk st)%Z ->
  exists earlier previous,
    stepsOut st = (earlier ++ [previous])%list
    /\ stepsOut st1
       = (stepsOut st
          ++ [{| stepTime := t; stepSurvival := stepSurvival previous;
                 stepAtRisk := Some (atRisk st) |}])%list
    /\ censoredOut st1
       = (censoredOut st
          ++ repeat {| censTime := t; censSurvival := stepSurvival previous |}
                    (Z.to_nat c))%list
    /\ atRisk st1 = (atRisk st - c)%Z
    /\ exists laterSteps laterCensored,
        steps (eventSeriesOf (g, timeline)) = (stepsOut st1 ++ laterSteps)%list
        /\ censoredPoints (eventSeriesOf (g, timeline))
           = (censoredOut st1 ++ laterCensored)%list.
Proof.
  intros Hord Hbucket Hc st st1 Hrisk.
  destruct (eventLoop_lastStepCurrent timeline before
              (eventLoopInit (bucketTotal timeline))
              (eventLoopInit_lastStepCurrent _))
    as [earlier [previous [Hsteps Hsurv]]].
  fold st in Hsteps, Hsurv.
  exists earlier, previous. split; [exact Hsteps|].
  assert (Hlater : exists laterSteps laterCensored,
             steps (eventSeriesOf (g, timeline)) = (stepsOut st1 ++ laterSteps)%list
             /\ censoredPoints (eventSeriesOf (g, timeline))
                = (censoredOut st1 ++ laterCensored)%list).
  { unfold eventSeriesOf, runEventLoop. cbn [snd fst steps censoredPoints].
    rewrite Hord, fold_left_app. cbn [fold_left]. fold st. fold st1.
    apply eventLoop_appends. }
  assert (Hguard : (atRisk st <=? 0)%Z = false) by (apply Z.leb_gt; exact Hrisk).
  assert (Hst1 : st1 =
    {| atRisk := atRisk st - c;
       survivalNow := survivalNow st;
       stepsOut :=
         stepsOut st
         ++ [{| stepTime := t; stepSurvival := survivalNow st;
                stepAtRisk := Some (atRisk st) |}];
       censoredOut :=
         censoredOut st
         ++ repeat {| censTime := t; censSurvival := survivalNow st |} (Z.to_nat c);
       atRiskOut := JsMap.set numEqb t (atRisk st) (atRiskOut st) |}).
  { subst st1. unfold eventStep. rewrite Hguard, Hbucket.
    cbn [orElse events censoredCount]. change (0 <? 0)%Z with false. cbv iota.
    f_equal. }
  rewrite Hsurv. clearbody st1. split; [|split; [|split]].
  - rewrite Hst1. reflexivity.
  - rewrite Hst1. reflexivity.
  - rewrite Hst1. reflexivity.
  - exact Hlater.
Qed.

Lemma weightAt_bounds (timeline : list (number * Bucket)) (t : number) :
  timelineOk timeline ->
  (0 <= events (orElse (JsMap.get numEqb t timeline) emptyBucket) <= weightAt timeline t)%Z.
Proof.
  intros Hok. destruct (timelineOk_bucket timeline t Hok) as [H1 H2].
  unfold weightAt, weight. lia.
Qed.

Lemma sumZ_weights_nonneg (timeline : list (number * Bucket)) (ts : list number) :
  timelineOk timeline -> (0 <= sumZ (map (weightAt timeline) ts))%Z.
Proof.
  intros Hok. induction ts as [|t ts IH]; simpl; [lia|].
  pose proof (weightAt_bounds timeline t Hok). lia.
Qed.

Lemma bucketTotal_from (l : list Bucket) (acc : Z) :
  fold_left (fun sum bucket => (sum + events bucket + censoredCount bucket)%Z) l acc
  = (acc + sumZ (map weight l))%Z.
Proof.
  revert acc. induction l as [|b l IH]; intros acc; simpl; [lia|].
  rewrite IH. unfold weight. lia.
Qed.

Lemma bucketTotal_ordered (timeline : list (number * Bucket)) :
  timelineOk timeline ->
  sumZ (map (weightAt timeline) (orderedTimes timeline)) = bucketTotal timeline.
Proof.
  intros [Hnd _]. unfold bucketTotal, orderedTimes. rewrite bucketTotal_from.
  rewrite (sumZ_perm _ (map (weightAt timeline) (JsMap.keys timeline)))
    by (apply Permutation_map, sortBy_perm).
  unfold JsMap.keys, JsMap.values. rewrite !map_map. simpl.
  f_equal. apply map_ext_in. intros [k b] Hin. unfold weightAt. cbn [fst snd].
  rewrite (map_In_get numEqb numEqb_eq k b timeline Hnd Hin). reflexivity.
Qed.

Lemma eventStep_survivalInv (timeline : list (number * Bucket)) (st : EventLoop)
      (t : number) (remaining : list number) :
  timelineOk timeline ->
  survivalInv timeline st (t :: remaining) ->
  survivalInv timeline (eventStep timeline st t) remaining.
Proof.
  intros Hok [Hsum [Hs0 [Hsorted Hall]]]. simpl in Hsum.
  pose proof (weightAt_bounds timeline t Hok) as Hw.
  pose proof (sumZ_weights_nonneg timeline remaining Hok) as Hrest.
  unfold eventStep. destruct (atRisk st <=? 0)%Z eqn:G.
  - repeat split; cbn [atRisk survivalNow stepsOut]; try assumption. lia.
  - apply Z.leb_gt in G. fold (weightAt timeline t) in Hw.
    set (b := orElse (JsMap.get numEqb t timeline) emptyBucket) in *.
    assert (Hwb : weightAt timeline t = (events b + censoredCount b)%Z) by reflexivity.
    set (s1 := if (0 <? events b)%Z
               then (survivalNow st * (num (atRisk st - events b) / num (atRisk st)))%Qc
               else survivalNow st).
    assert (Hs1 : (num 0 <= s1)%Qc /\ (s1 <= survivalNow st)%Qc).
    { subst s1. destruct (0 <? events b)%Z.
      - apply product_limit_bounds; [exact Hs0 | exact G | lia].
      - split; [exact Hs0 | apply Qcle_refl]. }
    destruct Hs1 as [Hs1a Hs1b].
    repeat split; cbn [atRisk survivalNow stepsOut].
    + lia.
    + exact Hs1a.
    + apply sorted_snoc; [exact Hsorted|].
      eapply Forall_impl; [|exact Hall]. cbv beta. intros x Hx. cbn [stepSurvival].
      eapply Qcle_trans; eassumption.
    + apply Forall_app. split.
      * eapply Forall_impl; [|exact Hall]. cbv beta. intros x Hx.
        eapply Qcle_trans; eassumption.
      * constructor; [apply Qcle_refl | constructor].
Qed.

Lemma eventStep_timeInv (timeline : list (number * Bucket)) (st : EventLoop)
      (t : number) (remaining : list number) :
  timeInv st (t :: remaining) -> timeInv (eventStep timeline st t) remaining.
Proof.
  intros [Hsorted [Hall Hrem]]. inversion Hrem as [|? ? Hrem' Hle]; subst.
  assert (Hall' : Forall (fun x => Forall (fun t' => (stepTime x <= t')%Qc) remaining)
                         (stepsOut st)).
  { eapply Forall_impl; [|exact Hall]. cbv beta. intros x Hx.
    inversion Hx; assumption. }
  unfold eventStep. destruct (atRisk st <=? 0)%Z; cbn [stepsOut].
  - repeat split; assumption.
  - repeat split; [| |exact Hrem'].
    + apply sorted_snoc; [exact Hsorted|].
      eapply Forall_impl; [|exact Hall]. cbv beta. intros x Hx. cbn [stepTime].
      inversion Hx; assumption.
    + apply Forall_app. split; [exact Hall'|].
      constructor; [exact Hle | constructor].
Qed.

Lemma eventLoop_invariants (timeline : list (number * Bucket)) (ts : list number)
      (st : EventLoop) :
  timelineOk timeline ->
  (survivalInv timeline st ts ->
   survivalNonIncreasing (stepsOut (fold_left (eventStep timeline) ts st)))
  /\ (timeInv st ts ->
      timeNonDecreasing (stepsOut (fold_left (eventStep timeline) ts st))).
Proof.
  intros Hok. revert st. induction ts as [|t ts IH]; intros st; simpl.
  - split; [intros [_ [_ [H _]]]; exact H | intros [H _]; exact H].
  - split; intros H.
    + apply IH, eventStep_survivalInv; assumption.
    + apply IH, eventStep_timeInv; assumption.
Qed.

Lemma eventSeries_shape (timeline : list (number * Bucket)) :
  timelineOk timeline ->
  (exists rest,
      stepsOut (runEventLoop timeline)
      = {| stepTime := num 0; stepSurvival := num 100;
           stepAtRisk := Some (bucketTotal timeline) |} :: rest)
  /\ survivalNonIncreasing (stepsOut (runEventLoop timeline))
  /\ ((forall t, In t (JsMap.keys timeline) -> (num 0 <= t)%Qc) ->
      timeNonDecreasing (stepsOut (runEventLoop timeline))).
Proof.
  intros Hok. unfold runEventLoop. split; [|split].
  - destruct (eventLoop_appends timeline (orderedTimes timeline)
                (eventLoopInit (bucketTotal timeline))) as [ms [_ [Hs _]]].
    exists ms. rewrite Hs. reflexivity.
  - apply eventLoop_invariants; [exact Hok|].
    unfold survivalInv, eventLoopInit. cbn [atRisk survivalNow stepsOut].
    rewrite (bucketTotal_ordered timeline Hok). repeat split.
    + lia.
    + apply (proj1 (num_le 0 100)). lia.
    + constructor; constructor.
    + constructor; [apply Qcle_refl | constructor].
  - intros Hnonneg. apply eventLoop_invariants; [exact Hok|].
    unfold timeInv, eventLoopInit. cbn [stepsOut]. repeat split.
    + constructor; constructor.
    + constructor; [|constructor]. cbn [stepTime]. apply Forall_forall.
      intros t Hin. apply Hnonneg.
      eapply Permutation_in; [apply sortBy_perm | exact Hin].
    + apply (sortBy_sorted (fun t : number => t)).
Qed.

(** ** Series from survival percentages *)

Lemma addSurvivalRow_ok (rows : list KaplanRow) (m : ColumnMapping) (survivalKey : string)
      (grouped : list (string * KaplanSeries)) (row : KaplanRow) :
  In row rows -> survivalGroupedOk rows m grouped ->
  survivalGroupedOk rows m (addSurvivalRow m survivalKey grouped row).
Proof.
  intros Hrow Hok. unfold addSurvivalRow.
  destruct row as [fields|]; [|exact Hok].
  destruct (parseNumber (getValue (RowObject fields) (Some (time m)))) as [t|] eqn:P;
    [|exact Hok].
  destruct (parseNumber (getValue (RowObject fields) (Some survivalKey))) as [s|];
    [|exact Hok].
  set (g := groupLabelOf (group m) (prettifyLabel survivalKey) (RowObject fields)).
  set (fresh := {| seriesGroup := g; steps := [seedStep]; censoredPoints := [];
                   atRiskMap := [] |}).
  set (grouped1 := if JsMap.has String.eqb g grouped then grouped
                   else JsMap.set String.eqb g fresh grouped).
  assert (Hok1 : survivalGroupedOk rows m grouped1).
  { subst grouped1. destruct (JsMap.has String.eqb g grouped); [exact Hok|].
    intros g' ser Hin.
    apply (map_set_In String.eqb String.eqb_eq) in Hin as [[_ ->] | Hin].
    - exists []. split; [reflexivity | constructor].
    - apply Hok in Hin. exact Hin. }
  set (series := orElse (JsMap.get String.eqb g grouped1) fresh).
  assert (Hser : exists pushed,
             steps series = seedStep :: pushed
             /\ Forall (fun x => parsedTime rows m (stepTime x)) pushed).
  { subst series. destruct (JsMap.get String.eqb g grouped1) as [ser|] eqn:E; simpl.
    - apply (map_get_In String.eqb String.eqb_eq) in E. apply Hok1 in E. exact E.
    - exists []. split; [reflexivity | constructor]. }
  destruct Hser as [pushed [Hsteps Hpushed]].
  intros g' ser Hin.
  apply (map_set_In String.eqb String.eqb_eq) in Hin as [[_ ->] | Hin];
    [|apply Hok1 in Hin; exact Hin].
  cbn [steps]. rewrite Hsteps.
  eexists. split; [rewrite <- app_comm_cons; reflexivity|].
  apply Forall_app. split; [exact Hpushed|].
  constructor; [|constructor]. cbn [stepTime]. exists (RowObject fields). auto.
Qed.

Lemma survivalRows_ok (all rows : list KaplanRow) (m : ColumnMapping) (survivalKey : string)
      (grouped : list (string * KaplanSeries)) :
  incl rows all -> survivalGroupedOk all m grouped ->
  survivalGroupedOk all m (fold_left (addSurvivalRow m survivalKey) rows grouped).
Proof.
  revert grouped. induction rows as [|row rows IH]; intros grouped Hincl Hok; simpl.
  - exact Hok.
  - apply IH.
    + intros x Hx. apply Hincl. right. exact Hx.
    + apply addSurvivalRow_ok; [apply Hincl; left; reflexivity | exact Hok].
Qed.

Lemma finishSurvivalSeries_first (series : KaplanSeries) :
  exists first rest,
    steps (finishSurvivalSeries series) = first :: rest
    /\ stepTime first = num 0 /\ stepSurvival first = num 100.
Proof.
  unfold finishSurvivalSeries. cbn [steps].
  destruct (sortBy stepTime (steps series)) as [|first rest].
  - exists seedStep, []. auto.
  - destruct (numEqb (stepTime first) (num 0)) eqn:E; cbn [negb].
    + apply numEqb_eq in E. eexists. eexists. split; [reflexivity|]. auto.
    + exists seedStep. eexists. split; [reflexivity|]. auto.
Qed.

Lemma finishSurvivalSeries_sorted (series : KaplanSeries) :
  Forall (fun x => (num 0 <= stepTime x)%Qc) (steps series) ->
  timeNonDecreasing (steps (finishSurvivalSeries series)).
Proof.
  intros Hnonneg. unfold finishSurvivalSeries, timeNonDecreasing. cbn [steps].
  pose proof (sortBy_sorted stepTime (steps series)) as Hsorted.
  assert (Hall : Forall (fun x => (num 0 <= stepTime x)%Qc)
                        (sortBy stepTime (steps series))).
  { eapply Permutation_Forall; [apply Permutation_sym, sortBy_perm | exact Hnonneg]. }
  destruct (sortBy stepTime (steps series)) as [|first rest].
  - constructor; constructor.
  - destruct (numEqb (stepTime first) (num 0)); cbn [negb].
    + inversion Hsorted; subst. constructor; assumption.
    + constructor; [exact Hsorted | exact Hall].
Qed.

(** ** Shape of the step sequences *)

(** C2 (as amended): every series starts with the step (time 0, survival
    100); its steps are in non-decreasing order of time when no row has a
    negative time; and in the event-based construction (an event column, or
    no survival column) survival never goes up along the steps.  In the
    construction from survival percentages the values are those of the rows
    and can go up. *)
Theorem step_sequence_shape (rows : list KaplanRow) (m : ColumnMapping)
        (s : KaplanSeries) :
  In s (buildSeries rows m) ->
  (exists first rest,
      steps s = first :: rest /\ stepTime first = num 0 /\ stepSurvival first = num 100)
  /\ (nonNegativeTimes rows m -> timeNonDecreasing (steps s))
  /\ (eventBased m -> survivalNonIncreasing (steps s)).
Proof.
  intros Hin.
  assert (Hevent : In s (buildEventSeries rows m) ->
    (exists first rest,
        steps s = first :: rest /\ stepTime first = num 0 /\ stepSurvival first = num 100)
    /\ (nonNegativeTimes rows m -> timeNonDecreasing (steps s))
    /\ survivalNonIncreasing (steps s)).
  { clear Hin. unfold buildEventSeries. intros Hin.
    apply in_map_iff in Hin as [[g tl] [<- Hin]].
    apply groupRows_ok in Hin as [Hok Hkeys].
    destruct (eventSeries_shape tl Hok) as [[rest Hfirst] [Hsurv Htime]].
    unfold eventSeriesOf. cbn [steps snd]. split; [|split].
    - rewrite Hfirst. eexists. eexists. split; [reflexivity|]. auto.
    - intros Hnonneg. apply Htime. intros t Ht. apply Hnonneg, Hkeys, Ht.
    - exact Hsurv. }
  unfold buildSeries in Hin.
  destruct (JsStr.isEmpty (time m)); [destruct Hin|].
  destruct (truthy (event m)) eqn:Ee.
  { destruct (Hevent Hin) as [H1 [H2 H3]]. auto. }
  destruct (truthy (survival m)) eqn:Es.
  2: { destruct (Hevent Hin) as [H1 [H2 H3]]. auto. }
  clear Hevent. unfold buildSurvivalSeries in Hin. rewrite Es in Hin. cbn [negb] in Hin.
  apply in_map_iff in Hin as [series [<- Hin]].
  unfold JsMap.values in Hin. apply in_map_iff in Hin as [[g series'] [Heq Hin]].
  cbn [snd] in Heq. subst series'.
  split; [apply finishSurvivalSeries_first|]. split.
  - intros Hnonneg. apply finishSurvivalSeries_sorted.
    assert (Hok : survivalGroupedOk rows m
                    (fold_left (addSurvivalRow m (keyOf (survival m))) rows [])).
    { apply survivalRows_ok; [apply incl_refl | intros g' ser []]. }
    destruct (Hok g series Hin) as [pushed [Hsteps Hpushed]]. rewrite Hsteps.
    constructor; [apply Qcle_refl|].
    eapply Forall_impl; [|exact Hpushed]. cbv beta. intros x Hx. apply Hnonneg, Hx.
  - intros [H | H]; congruence.
Qed.

(** * Further properties of the component *)

(** ** String operations *)

Lemma keepChars_filter (q : ascii -> bool) (s : string) :
  JsStr.keepChars q s = string_of_list_ascii (filter q (list_ascii_of_string s)).
Proof.
  induction s as [|c s IH]; simpl; [reflexivity|].
  destruct (q c); simpl; rewrite IH; reflexivity.
Qed.

Lemma keepChars_app (q : ascii -> bool) (s1 s2 : string) :
  JsStr.keepChars q (s1 ++ s2) = JsStr.keepChars q s1 ++ JsStr.keepChars q s2.
Proof.
  induction s1 as [|c s1 IH]; simpl; [reflexivity|].
  destruct (q c); simpl; rewrite IH; reflexivity.
Qed.

Lemma keepChars_reverse (q : ascii -> bool) (s : string) :
  JsStr.keepChars q (JsStr.reverse s) = JsStr.reverse (JsStr.keepChars q s).
Proof.
  unfold JsStr.reverse. rewrite !keepChars_filter.
  rewrite !list_ascii_of_string_of_list_ascii, filter_rev. reflexivity.
Qed.

Lemma reverse_involutive (s : string) : JsStr.reverse (JsStr.reverse s) = s.
Proof.
  unfold JsStr.reverse.
  rewrite list_ascii_of_string_of_list_ascii, rev_involutive.
  apply string_of_list_ascii_of_string.
Qed.

Lemma keepChars_trimStart (q : ascii -> bool) (s : string) :
  (forall c, JsStr.isSpace c = true -> q c = false) ->
  JsStr.keepChars q (JsStr.trimStart s) = JsStr.keepChars q s.
Proof.
  intros Hq. induction s as [|c s IH]; simpl; [reflexivity|].
  destruct (JsStr.isSpace c) eqn:E; [|reflexivity].
  rewrite (Hq c E). exact IH.
Qed.

(** Trimming only removes whitespace. *)
Lemma keepChars_trim (q : ascii -> bool) (s : string) :
  (forall c, JsStr.isSpace c = true -> q c = false) ->
  JsStr.keepChars q (JsStr.trim s) = JsStr.keepChars q s.
Proof.
  intros Hq. unfold JsStr.trim, JsStr.trimEnd.
  rewrite keepChars_reverse, (keepChars_trimStart q _ Hq), keepChars_reverse.
  rewrite reverse_involutive. apply keepChars_trimStart, Hq.
Qed.

Lemma keepChars_replaceRunsFrom (p q : ascii -> bool) (r : string) (inRun : bool)
      (s : string) :
  (forall c, p c = true -> q c = false) ->
  JsStr.keepChars q r = "" ->
  JsStr.keepChars q (JsStr.replaceRunsFrom p r inRun s) = JsStr.keepChars q s.
Proof.
  intros Hp Hr. revert inRun. induction s as [|c s IH]; intros inRun; simpl;
    [reflexivity|].
  destruct (p c) eqn:E.
  - rewrite (Hp c E). destruct inRun; [apply IH|].
    rewrite keepChars_app, Hr. apply IH.
  - simpl. rewrite IH. reflexivity.
Qed.

Lemma replaceRuns_empty (p : ascii -> bool) (s : string) :
  JsStr.replaceRuns p "" s = JsStr.keepChars (fun c => negb (p c)) s.
Proof.
  unfold JsStr.replaceRuns. generalize false.
  induction s as [|c s IH]; intros b; simpl; [reflexivity|].
  destruct (p c); simpl; [destruct b; apply IH | rewrite IH; reflexivity].
Qed.

Lemma space_not_numeric (c : ascii) :
  JsStr.isSpace c = true -> JsStr.isNumericChar c = false.
Proof.
  destruct c as [[] [] [] [] [] [] [] []]; vm_compute; congruence.
Qed.

Lemma space_is_separator (c : ascii) :
  JsStr.isSpace c = true -> negb (JsStr.isSpaceOrUnderscore c) = false.
Proof.
  unfold JsStr.isSpaceOrUnderscore. intros ->. reflexivity.
Qed.

(** ** Permissive parsing *)

(** X1: a text cell with none of the characters [0-9 e E . + -] is reduced
    to the empty string, which [Number] reads as 0: the cell parses to 0
    (it is not rejected), and as an event cell it counts as censored,
    whatever the word. *)
Theorem text_without_digits_reads_as_zero (s : string) :
  NumberOfString "" = Some (num 0) ->
  JsStr.keepChars JsStr.isNumericChar s = "" ->
  parseNumber (JsString s) = Some (num 0) /\ isEventOf (JsString s) = false.
Proof.
  intros Hzero Hs.
  assert (Hp : parseNumber (JsString s) = Some (num 0)).
  { unfold parseNumber. rewrite (keepChars_trim _ _ space_not_numeric), Hs. exact Hzero. }
  split; [exact Hp|].
  unfold isEventOf. rewrite Hp. reflexivity.
Qed.

(** ** Tolerant lookup *)

Lemma rowHas_field (k : string) (fields : list (string * JsValue)) :
  rowHas k fields = true ->
  exists v, rowGet k fields = Some v /\ In (k, v) fields.
Proof.
  unfold rowHas, rowGet, JsMap.has. intros H.
  destruct (JsMap.get String.eqb k fields) as [v|] eqn:E; [|discriminate].
  exists v. split; [reflexivity|].
  apply (map_get_In String.eqb String.eqb_eq). exact E.
Qed.

Lemma normalizeKey_trim (s : string) :
  normalizeKey (JsStr.trim s) = normalizeKey s.
Proof.
  unfold normalizeKey. rewrite !replaceRuns_empty.
  rewrite (keepChars_trim _ _ space_is_separator). reflexivity.
Qed.

Lemma normalizeKey_respaced (r s : string) :
  JsStr.keepChars (fun c => negb (JsStr.isSpaceOrUnderscore c)) r = "" ->
  normalizeKey (JsStr.replaceRuns JsStr.isSpace r s) = normalizeKey s.
Proof.
  intros Hr. unfold normalizeKey. rewrite !replaceRuns_empty.
  unfold JsStr.replaceRuns at 1.
  rewrite (keepChars_replaceRunsFrom JsStr.isSpace _ r false s space_is_separator Hr).
  reflexivity.
Qed.

Lemma rowIn_read (k : string) (fields : list (string * JsValue)) :
  rowIn k fields = true ->
  (rowHas k fields = true /\ In (k, rowRead k fields) fields)
  \/ (rowHas k fields = false /\ In (k, rowRead k fields) inheritedProperties).
Proof.
  unfold rowIn, rowRead, rowHas, inheritedName, rowGet, JsMap.has.
  destruct (JsMap.get String.eqb k fields) as [v|] eqn:E.
  - intros _. left. split; [reflexivity|].
    apply (map_get_In String.eqb String.eqb_eq). exact E.
  - cbn [orb].
    destruct (JsMap.get String.eqb k inheritedProperties) as [v|] eqn:E';
      [|discriminate].
    intros _. right. split; [reflexivity|].
    apply (map_get_In String.eqb String.eqb_eq). exact E'.
Qed.

Lemma lookupForms_normalized (key name : string) :
  In name (lookupForms key) -> normalizeKey name = normalizeKey (JsStr.trim key).
Proof.
  intros [<- | [<- | [<- | [<- | []]]]].
  - symmetry. apply normalizeKey_trim.
  - reflexivity.
  - apply normalizeKey_respaced. reflexivity.
  - apply normalizeKey_respaced. reflexivity.
Qed.

(** The outcome of [getValue] on an object, as the property it reads. *)
Lemma getValue_field (fields : list (string * JsValue)) (key : string) :
  getValue (RowObject fields) (Some key) = JsUndefined
  \/ (exists k, In (k, getValue (RowObject fields) (Some key)) fields
                /\ normalizeKey k = normalizeKey (JsStr.trim key))
  \/ (exists name, In name (lookupForms key)
                   /\ rowHas name fields = false
                   /\ In (name, getValue (RowObject fields) (Some key))
                         inheritedProperties).
Proof.
  unfold getValue.
  destruct (negb (truthy (Some key))); [left; reflexivity|].
  change (keyOf (Some key)) with key.
  assert (Hfield : forall name,
             In name (lookupForms key) -> rowIn name fields = true ->
             (exists k, In (k, rowRead name fields) fields
                        /\ normalizeKey k = normalizeKey (JsStr.trim key))
             \/ (exists name', In name' (lookupForms key)
                               /\ rowHas name' fields = false
                               /\ In (name', rowRead name fields) inheritedProperties)).
  { intros name Hform Hin.
    destruct (rowIn_read name fields Hin) as [[_ Hown] | [Hnot Hinh]].
    - left. exists name. split; [exact Hown | apply lookupForms_normalized, Hform].
    - right. exists name. auto. }
  unfold lookupForms in Hfield.
  destruct (rowIn key fields) eqn:E1.
  { right. apply Hfield; [cbn [In]; auto | exact E1]. }
  destruct (negb (JsStr.isEmpty (JsStr.trim key)) && rowIn (JsStr.trim key) fields)
           eqn:E2.
  { right. apply andb_true_iff in E2 as [_ E2]. apply Hfield; [cbn [In]; auto | exact E2]. }
  destruct (negb (JsStr.isEmpty (JsStr.replaceRuns JsStr.isSpace "" (JsStr.trim key)))
            && rowIn (JsStr.replaceRuns JsStr.isSpace "" (JsStr.trim key)) fields)
           eqn:E3.
  { right. apply andb_true_iff in E3 as [_ E3].
    apply Hfield; [cbn [In]; auto | exact E3]. }
  destruct (negb (JsStr.isEmpty (JsStr.replaceRuns JsStr.isSpace "_" (JsStr.trim key)))
            && rowIn (JsStr.replaceRuns JsStr.isSpace "_" (JsStr.trim key)) fields)
           eqn:E4.
  { right. apply andb_true_iff in E4 as [_ E4].
    apply Hfield; [cbn [In]; auto 6 | exact E4]. }
  fold (normalizeKey (JsStr.trim key)).
  destruct (JsStr.isEmpty (normalizeKey (JsStr.trim key))); [left; reflexivity|].
  match goal with
  | |- context [find ?f fields] => destruct (find f fields) as [[k v]|] eqn:F
  end; [|left; reflexivity].
  right. left. apply find_some in F as [Hin Heq]. cbn [fst snd] in *.
  apply String.eqb_eq in Heq. exists k. split; [exact Hin | exact Heq].
Qed.

(** X2: a value that [getValue] returns is the value of a column of the row
    whose name equals the requested key up to case, whitespace and
    underscores, or else a property that the row inherits from
    [Object.prototype] under one of the spellings of the key that are
    looked up with [in], when the row has no column of that name. *)
Theorem getValue_sound (fields : list (string * JsValue)) (key : string) (v : JsValue) :
  getValue (RowObject fields) (Some key) = v -> v <> JsUndefined ->
  (exists k, In (k, v) fields /\ normalizeKey k = normalizeKey (JsStr.trim key))
  \/ (exists name, In name (lookupForms key)
                   /\ rowHas name fields = false
                   /\ In (name, v) inheritedProperties).
Proof.
  intros Hv Hdef. destruct (getValue_field fields key) as [H | H].
  - congruence.
  - rewrite Hv in H. exact H.
Qed.

Lemma getValue_unique (fields : list (string * JsValue)) (key k : string)
      (v : JsValue) :
  In (k, v) fields ->
  normalizeKey k = normalizeKey (JsStr.trim key) ->
  normalizeKey (JsStr.trim key) <> "" ->
  (forall name, In name (lookupForms key) -> inheritedName name = false) ->
  (forall k' v', In (k', v') fields ->
                 normalizeKey k' = normalizeKey (JsStr.trim key) -> v' = v) ->
  getValue (RowObject fields) (Some key) = v.
Proof.
  intros Hin Hnorm Hne Hplain Huniq.
  destruct (getValue_field fields key)
    as [Hundef | [[k' [Hin' Hnorm']] | [name [Hform [_ Hinh]]]]].
  2: { apply (Huniq k' _ Hin' Hnorm'). }
  2: { exfalso. specialize (Hplain name Hform). unfold inheritedName, JsMap.has in Hplain.
       destruct (JsMap.get String.eqb name inheritedProperties) eqn:G; [discriminate|].
       apply (map_get_None String.eqb String.eqb_eq) in G. apply G.
       apply in_map_iff. eexists. split; [|exact Hinh]. reflexivity. }
  rewrite Hundef. symmetry. revert Hundef. unfold getValue.
  assert (Hkey : truthy (Some key) = true).
  { destruct key; [exfalso; apply Hne; reflexivity | reflexivity]. }
  rewrite Hkey. cbn [negb]. change (keyOf (Some key)) with key.
  assert (Hfield : forall x,
             In x (lookupForms key) -> rowIn x fields = true -> rowRead x fields = v).
  { intros x Hform Hx. destruct (rowIn_read x fields Hx) as [[_ Hown] | [Hnot Hinh]].
    - apply (Huniq x _ Hown). apply lookupForms_normalized, Hform.
    - exfalso. unfold rowIn in Hx. rewrite Hnot, (Hplain x Hform) in Hx. discriminate. }
  unfold lookupForms in Hfield.
  assert (Hscan : match find (fun candidate =>
                                String.eqb (normalizeKey (fst candidate))
                                           (normalizeKey (JsStr.trim key))) fields with
                  | Some candidate => snd candidate
                  | None => JsUndefined
                  end = v).
  { destruct (find (fun candidate =>
                      String.eqb (normalizeKey (fst candidate))
                                 (normalizeKey (JsStr.trim key))) fields)
      as [[k2 v2]|] eqn:F.
    - apply find_some in F as [Hin2 Heq]. cbn [fst snd] in *.
      apply String.eqb_eq in Heq. apply (Huniq k2 v2 Hin2 Heq).
    - exfalso. apply (find_none _ _ F) in Hin. cbn [fst] in Hin.
      rewrite Hnorm, String.eqb_refl in Hin. discriminate. }
  destruct (rowIn key fields) eqn:E1.
  { intros <-. symmetry. apply Hfield; [cbn [In]; auto | exact E1]. }
  destruct (negb (JsStr.isEmpty (JsStr.trim key)) && rowIn (JsStr.trim key) fields)
           eqn:E2.
  { intros <-. symmetry. apply andb_true_iff in E2 as [_ E2].
    apply Hfield; [cbn [In]; auto | exact E2]. }
  destruct (negb (JsStr.isEmpty (JsStr.replaceRuns JsStr.isSpace "" (JsStr.trim key)))
            && rowIn (JsStr.replaceRuns JsStr.isSpace "" (JsStr.trim key)) fields)
           eqn:E3.
  { intros <-. symmetry. apply andb_true_iff in E3 as [_ E3].
    apply Hfield; [cbn [In]; auto | exact E3]. }
  destruct (negb (JsStr.isEmpty (JsStr.replaceRuns JsStr.isSpace "_" (JsStr.trim key)))
            && rowIn (JsStr.replaceRuns JsStr.isSpace "_" (JsStr.trim key)) fields)
           eqn:E4.
  { intros <-. symmetry. apply andb_true_iff in E4 as [_ E4].
    apply Hfield; [cbn [In]; auto 6 | exact E4]. }
  fold (normalizeKey (JsStr.trim key)).
  destruct (JsStr.isEmpty (normalizeKey (JsStr.trim key))) eqn:E5.
  { exfalso. apply Hne. destruct (normalizeKey (JsStr.trim key)); [reflexivity | discriminate]. }
  intros Hu. rewrite <- Hscan. unfold normalizeKey at 1 2. exact Hu.
Qed.

(** X3: when the row has a column whose name equals the key up to case,
    whitespace and underscores, the columns that do so all hold the same
    value, and no spelling of the key that is looked up with [in] names a
    property inherited from [Object.prototype], [getValue] returns that
    value, however the key is spelled. *)
Theorem getValue_tolerant (fields : list (string * JsValue)) (key k : string)
        (v : JsValue) :
  In (k, v) fields ->
  normalizeKey k = normalizeKey (JsStr.trim key) ->
  normalizeKey (JsStr.trim key) <> "" ->
  (forall name, In name (lookupForms key) -> inheritedName name = false) ->
  (forall k' v', In (k', v') fields ->
                 normalizeKey k' = normalizeKey (JsStr.trim key) -> v' = v) ->
  getValue (RowObject fields) (Some key) = v.
Proof. apply getValue_unique. Qed.

(** ** Columns *)

Lemma setAdd_NoDup (k : string) (s : list string) : NoDup s -> NoDup (setAdd k s).
Proof.
  intros Hnd. unfold setAdd. destruct (JsStr.includes s k) eqn:E; [exact Hnd|].
  apply NoDup_app; [exact Hnd | constructor; [intros [] | constructor] |].
  intros x Hx [<- | []]. apply includes_In in Hx. congruence.
Qed.

Lemma addKeys_NoDup (ks acc : list string) :
  NoDup acc -> NoDup (fold_left (fun s k => setAdd k s) ks acc).
Proof.
  revert acc. induction ks as [|k ks IH]; intros acc Hnd; simpl; [exact Hnd|].
  apply IH, setAdd_NoDup, Hnd.
Qed.

(** X4: [collectKeys] returns every column of every row once: the result
    has no duplicates, and a key is in it exactly when some row has it. *)
Theorem collectKeys_distinct (rows : list KaplanRow) :
  NoDup (collectKeys rows)
  /\ forall k, In k (collectKeys rows) <-> keyPresent k rows.
Proof.
  split; [|intros k; apply collectKeys_In].
  unfold collectKeys. generalize (NoDup_nil string). generalize (@nil string).
  induction rows as [|row rows IH]; intros acc Hnd; simpl; [exact Hnd|].
  apply IH. destruct row as [fields|]; [apply addKeys_NoDup, Hnd | exact Hnd].
Qed.

Lemma considerKey_cases (samples : list KaplanRow) (reserved : list string)
      (best : option Candidate) (key : string) :
  considerKey samples reserved best key = best
  \/ (JsStr.includes reserved key = false
      /\ (2 <= List.length
                 (distinctValues
                    (fold_left (tallySample key) samples
                               {| distinctValues := []; stringCount := 0;
                                  numericCount := 0 |})) <= 20)%nat
      /\ exists score,
          considerKey samples reserved best key
          = Some {| candidateKey := key; candidateScore := score |}).
Proof.
  unfold considerKey.
  destruct (JsStr.includes reserved key); [left; reflexivity|].
  set (tally := fold_left (tallySample key) samples
                          {| distinctValues := []; stringCount := 0; numericCount := 0 |}).
  destruct ((Z.of_nat (List.length (distinctValues tally)) <? 2)%Z
            || (20 <? Z.of_nat (List.length (distinctValues tally)))%Z) eqn:E;
    [left; reflexivity|].
  apply orb_false_iff in E as [E1 E2]. apply Z.ltb_ge in E1, E2.
  match goal with
  | |- context [if ?b then best else _] => destruct b
  end; [left; reflexivity|].
  destruct best as [b|].
  - match goal with
    | |- context [if ?c then _ else Some b] => destruct c
    end; [|left; reflexivity].
    right. split; [reflexivity|]. split; [lia|]. eexists. reflexivity.
  - right. split; [reflexivity|]. split; [lia|]. eexists. reflexivity.
Qed.

Lemma scan_candidate (samples : list KaplanRow) (reserved keys : list string)
      (best : option Candidate) (P : string -> Prop) :
  (forall b, best = Some b -> P (candidateKey b)) ->
  (forall k, In k keys -> JsStr.includes reserved k = false ->
             (2 <= List.length
                     (distinctValues
                        (fold_left (tallySample k) samples
                                   {| distinctValues := []; stringCount := 0;
                                      numericCount := 0 |})) <= 20)%nat ->
             P k) ->
  forall c, fold_left (considerKey samples reserved) keys best = Some c ->
            P (candidateKey c).
Proof.
  revert best. induction keys as [|k keys IH]; intros best Hbest Hkeys c; simpl.
  - apply Hbest.
  - apply IH.
    + intros b Hb.
      destruct (considerKey_cases samples reserved best k) as [E | [Hr [Hn [sc E]]]].
      * rewrite E in Hb. apply Hbest, Hb.
      * rewrite E in Hb. inversion Hb; subst. cbn [candidateKey].
        apply Hkeys; [left; reflexivity | exact Hr | exact Hn].
    + intros k' Hin. apply Hkeys. right. exact Hin.
Qed.

Lemma inferGroupColumn_result (rows : list KaplanRow) (keys reserved : list string)
      (g : string) :
  inferGroupColumn rows keys reserved = Some g ->
  In g keys /\ ~ In g reserved /\ g <> "".
Proof.
  intros H. split; [|split; [|apply truthy_Some, (inferGroupColumn_truthy _ _ _ _ H)]];
    revert H; unfold inferGroupColumn;
    destruct (truthy (findByPatterns keys GROUP_PATTERNS)
              && negb (JsStr.includes reserved (keyOf (findByPatterns keys GROUP_PATTERNS))))
             eqn:E.
  - intros H. apply findByPatterns_Some in H. apply H.
  - intros H.
    destruct (fold_left (considerKey (firstn SAMPLE_LIMIT rows) reserved) keys None)
      as [c|] eqn:F; [|discriminate]. inversion H; subst.
    apply (scan_candidate _ _ _ _ (fun k => In k keys)) in F; auto. discriminate.
  - intros H. rewrite H in E. apply andb_true_iff in E as [_ E].
    apply negb_true_iff in E. cbn [keyOf] in E. intros Hin.
    apply includes_In in Hin. congruence.
  - intros H.
    destruct (fold_left (considerKey (firstn SAMPLE_LIMIT rows) reserved) keys None)
      as [c|] eqn:F; [|discriminate]. inversion H; subst.
    apply (scan_candidate _ _ _ _ (fun k => ~ In k reserved)) in F; auto.
    + discriminate.
    + intros k _ Hr _ Hin. apply includes_In in Hin. congruence.
Qed.

(** X5: the group column that [inferGroupColumn] returns is one of the given
    keys, is not reserved, and is not the empty key. *)
Theorem inferGroupColumn_fresh (rows : list KaplanRow) (keys reserved : list string)
        (g : string) :
  inferGroupColumn rows keys reserved = Some g ->
  In g keys /\ ~ In g reserved /\ g <> "".
Proof. apply inferGroupColumn_result. Qed.

(** X7: a group column that is not the column matching a group pattern was
    chosen by its values: among the first 50 rows it has between 2 and 20
    distinct non-empty values. *)
Theorem inferred_group_cardinality (rows : list KaplanRow) (keys reserved : list string)
        (g : string) :
  inferGroupColumn rows keys reserved = Some g ->
  findByPatterns keys GROUP_PATTERNS = Some g
  \/ (2 <= List.length (sampledValues rows g) <= 20)%nat.
Proof.
  unfold inferGroupColumn.
  destruct (truthy (findByPatterns keys GROUP_PATTERNS)
            && negb (JsStr.includes reserved (keyOf (findByPatterns keys GROUP_PATTERNS)))).
  - intros H. left. exact H.
  - intros H. right.
    destruct (fold_left (considerKey (firstn SAMPLE_LIMIT rows) reserved) keys None)
      as [c|] eqn:F; [|discriminate]. inversion H; subst.
    apply (scan_candidate _ _ _ _
             (fun k => (2 <= List.length (sampledValues rows k) <= 20)%nat)) in F; auto.
    discriminate.
Qed.

(** X6: in a mapping that the heuristic builds on an event column, the group
    column is a column of the rows and is neither the time column nor the
    event column. *)
Theorem heuristic_group_column (rows : list KaplanRow) (m : ColumnMapping)
        (e g : string) :
  mapping (deriveMappingHeuristically rows) = Some m ->
  event m = Some e -> group m = Some g ->
  keyPresent g rows /\ g <> time m /\ g <> e.
Proof.
  unfold deriveMappingHeuristically.
  destruct rows as [|row rows]; [discriminate|].
  set (keys := collectKeys (row :: rows)).
  destruct (JsStr.includes keys "time" && JsStr.includes keys "status"
            && JsStr.includes keys "group") eqn:Efast.
  - intros H He Hg. inversion H; subst m. cbn in He, Hg. inversion He; inversion Hg; subst.
    apply andb_true_iff in Efast as [_ Efast].
    split; [apply collectKeys_In, includes_In, Efast|].
    split; discriminate.
  - cbv zeta. destruct (negb (truthy (timeColumn keys))); [discriminate|].
    set (eventCandidate := findByPatterns keys EVENT_PATTERNS).
    set (survivalCandidate := findByPatterns keys SURVIVAL_PATTERNS).
    set (reserved := reservedFor (keyOf (timeColumn keys)) eventCandidate survivalCandidate).
    destruct (truthy eventCandidate) eqn:Ee.
    + intros H He Hg. inversion H; subst m. cbn [event group time] in *.
      destruct (truthy (inferGroupColumn (row :: rows) keys reserved)) eqn:Et;
        [|discriminate].
      destruct (inferGroupColumn_result _ _ _ _ Hg) as [Hin [Hres _]].
      split; [apply collectKeys_In, Hin|].
      assert (Hreserved : In (keyOf (timeColumn keys)) reserved /\ In e reserved).
      { subst reserved. unfold reservedFor. rewrite Ee, He. cbn [keyOf].
        destruct (truthy survivalCandidate); rewrite ?setAdd_In; rewrite ?setAdd_In;
          rewrite ?setAdd_In; split; auto. }
      destruct Hreserved as [Ht Hev].
      split; intros ->; contradiction.
    + destruct (truthy survivalCandidate); [|discriminate].
      intros H He. inversion H; subst m. discriminate.
Qed.

(** ** The two constructions *)

Lemma buildSeries_cases (rows : list KaplanRow) (m : ColumnMapping) (s : KaplanSeries) :
  In s (buildSeries rows m) ->
  (eventBased m
   /\ exists g timeline, In (g, timeline) (groupRows rows m)
                         /\ s = eventSeriesOf (g, timeline))
  \/ (~ eventBased m
      /\ exists g series,
          In (g, series) (fold_left (addSurvivalRow m (keyOf (survival m))) rows [])
          /\ s = finishSurvivalSeries series).
Proof.
  unfold buildSeries, eventBased.
  destruct (JsStr.isEmpty (time m)); [intros []|].
  assert (Hevent : In s (buildEventSeries rows m) ->
                   exists g timeline, In (g, timeline) (groupRows rows m)
                                      /\ s = eventSeriesOf (g, timeline)).
  { unfold buildEventSeries. intros Hin.
    apply in_map_iff in Hin as [[g tl] [<- Hin]]. exists g, tl. auto. }
  destruct (truthy (event m)) eqn:Ee; [intros H; left; auto|].
  destruct (truthy (survival m)) eqn:Es; [|intros H; left; auto].
  intros Hin. right. split; [intros [H | H]; discriminate|].
  unfold buildSurvivalSeries in Hin. rewrite Es in Hin. cbn [negb] in Hin.
  apply in_map_iff in Hin as [series [<- Hin]].
  unfold JsMap.values in Hin. apply in_map_iff in Hin as [[g series'] [Heq Hin]].
  cbn [snd] in Heq. subst series'. exists g, series. auto.
Qed.

(** ** Buckets *)

Lemma addEventRow_positive (m : ColumnMapping)
      (grouped : list (string * list (number * Bucket))) (row : KaplanRow) :
  (forall g tl, In (g, tl) grouped -> timelinePositive tl) ->
  forall g tl, In (g, tl) (addEventRow m grouped row) -> timelinePositive tl.
Proof.
  intros Hok. unfold addEventRow.
  destruct row as [fields|]; [|exact Hok].
  destruct (parseNumber (getValue (RowObject fields) (Some (time m)))) as [t|];
    [|exact Hok].
  set (g := groupLabelOf (group m) "Group" (RowObject fields)).
  set (grouped1 := if JsMap.has String.eqb g grouped then grouped
                   else JsMap.set String.eqb g [] grouped).
  assert (Hok1 : forall g' tl', In (g', tl') grouped1 -> timelinePositive tl').
  { subst grouped1. destruct (JsMap.has String.eqb g grouped); [exact Hok|].
    intros g' tl' Hin.
    apply (map_set_In String.eqb String.eqb_eq) in Hin as [[_ ->] | Hin];
      [constructor | apply (Hok _ _ Hin)]. }
  set (timeline := orElse (JsMap.get String.eqb g grouped1) []).
  assert (Htl : timelinePositive timeline).
  { subst timeline. destruct (JsMap.get String.eqb g grouped1) as [tl|] eqn:E; simpl.
    - apply (map_get_In String.eqb String.eqb_eq) in E. apply (Hok1 _ _ E).
    - constructor. }
  set (bucket := orElse (JsMap.get numEqb t timeline) emptyBucket).
  assert (Hb : (0 <= weight bucket)%Z).
  { subst bucket. destruct (JsMap.get numEqb t timeline) as [b|] eqn:E; simpl.
    - apply (map_get_In numEqb numEqb_eq) in E.
      unfold timelinePositive in Htl. rewrite Forall_forall in Htl.
      assert (1 <= weight b)%Z; [|lia].
      apply Htl. unfold JsMap.values. apply in_map_iff. exists (t, b). auto.
    - unfold weight. simpl. lia. }
  intros g' tl' Hin.
  apply (map_set_In String.eqb String.eqb_eq) in Hin as [[_ ->] | Hin];
    [|apply (Hok1 _ _ Hin)].
  unfold timelinePositive. apply Forall_forall. intros b Hin.
  apply (values_set_In t t) in Hin as [-> | Hin].
  - unfold weight in *. destruct (countsAsEvent m (RowObject fields)); simpl; lia.
  - unfold timelinePositive in Htl. rewrite Forall_forall in Htl. apply Htl, Hin.
Qed.

Lemma groupRows_positive (rows : list KaplanRow) (m : ColumnMapping) (g : string)
      (timeline : list (number * Bucket)) :
  In (g, timeline) (groupRows rows m) -> timelinePositive timeline.
Proof.
  unfold groupRows.
  assert (H : forall grouped,
             (forall g tl, In (g, tl) grouped -> timelinePositive tl) ->
             forall g tl, In (g, tl) (fold_left (addEventRow m) rows grouped) ->
                          timelinePositive tl).
  { induction rows as [|row rows IH]; intros grouped Hok; simpl; [exact Hok|].
    apply IH, addEventRow_positive, Hok. }
  apply H. intros g' tl' [].
Qed.

Lemma weightAt_positive (timeline : list (number * Bucket)) (t : number) :
  timelinePositive timeline -> In t (JsMap.keys timeline) ->
  (1 <= weightAt timeline t)%Z.
Proof.
  intros Hpos Hin. unfold weightAt.
  destruct (JsMap.get numEqb t timeline) as [b|] eqn:E.
  - apply (map_get_In numEqb numEqb_eq) in E. simpl.
    unfold timelinePositive in Hpos. rewrite Forall_forall in Hpos. apply Hpos.
    unfold JsMap.values. apply in_map_iff. exists (t, b). auto.
  - apply (map_get_None numEqb numEqb_eq) in E. contradiction.
Qed.

(** ** The loop when every bucket is inhabited: the guard never fires *)

Lemma eventStep_exact (timeline : list (number * Bucket)) (st : EventLoop) (t : number) :
  (1 <= atRisk st)%Z ->
  stepsOut (eventStep timeline st t)
  = (stepsOut st
     ++ [{| stepTime := t;
            stepSurvival := survivalNow (eventStep timeline st t);
            stepAtRisk := Some (atRisk st) |}])%list
  /\ atRisk (eventStep timeline st t) = (atRisk st - weightAt timeline t)%Z
  /\ censoredOut (eventStep timeline st t)
     = (censoredOut st
        ++ repeat {| censTime := t;
                     censSurvival := survivalNow (eventStep timeline st t) |}
                  (Z.to_nat (censoredCount
                               (orElse (JsMap.get numEqb t timeline) emptyBucket))))%list.
Proof.
  intros Hrisk. unfold eventStep.
  destruct (atRisk st <=? 0)%Z eqn:G; [apply Z.leb_le in G; lia|].
  cbn [stepsOut atRisk censoredOut survivalNow]. auto.
Qed.

Lemma eventLoop_exact (timeline : list (number * Bucket)) (ts : list number)
      (st : EventLoop) :
  timelineOk timeline -> timelinePositive timeline ->
  (forall t, In t ts -> In t (JsMap.keys timeline)) ->
  atRisk st = sumZ (map (weightAt timeline) ts) ->
  let final := fold_left (eventStep timeline) ts st in
  map stepTime (stepsOut final) = (map stepTime (stepsOut st) ++ ts)%list
  /\ atRisk final = 0%Z
  /\ Z.of_nat (List.length (censoredOut final))
     = (Z.of_nat (List.length (censoredOut st))
        + sumZ (map (fun t => censoredCount
                                (orElse (JsMap.get numEqb t timeline) emptyBucket)) ts))%Z.
Proof.
  intros Hok Hpos. revert st. induction ts as [|t ts IH]; intros st Hkeys Hrisk; simpl.
  - rewrite app_nil_r. simpl in Hrisk. repeat split; [exact Hrisk | lia].
  - simpl in Hrisk.
    assert (Hw : (1 <= weightAt timeline t)%Z)
      by (apply weightAt_positive; [exact Hpos | apply Hkeys; left; reflexivity]).
    assert (Hrest : (0 <= sumZ (map (weightAt timeline) ts))%Z).
    { clear - Hpos Hkeys. induction ts as [|u ts IH]; simpl; [lia|].
      assert (1 <= weightAt timeline u)%Z
        by (apply weightAt_positive; [exact Hpos | apply Hkeys; right; left; reflexivity]).
      assert (0 <= sumZ (map (weightAt timeline) ts))%Z; [|lia].
      apply IH. intros x [Hx | Hx]; apply Hkeys; [left | right; right]; assumption. }
    destruct (eventStep_exact timeline st t) as [Hs [Ha Hc]]; [lia|].
    destruct (IH (eventStep timeline st t)) as [H1 [H2 H3]].
    + intros x Hx. apply Hkeys. right. exact Hx.
    + rewrite Ha. lia.
    + split; [|split; [exact H2|]].
      * rewrite H1, Hs, map_app, <- app_assoc. reflexivity.
      * rewrite H3, Hc, length_app, repeat_length.
        assert (Hb : (0 <= censoredCount
                              (orElse (JsMap.get numEqb t timeline) emptyBucket))%Z).
        { apply (timelineOk_bucket timeline t Hok). }
        lia.
Qed.

(** ** The times of a group *)

Lemma addEventRow_times (m : ColumnMapping)
      (grouped : list (string * list (number * Bucket))) (row : KaplanRow)
      (g : string) (t : number) :
  groupTimes (addEventRow m grouped row) g t
  <-> groupTimes grouped g t
      \/ (parseNumber (getValue row (Some (time m))) = Some t
          /\ groupLabelOf (group m) "Group" row = g).
Proof.
  unfold addEventRow. destruct row as [fields|].
  2: { simpl. split; [auto | intros [H | [H _]]; [exact H | discriminate]]. }
  destruct (parseNumber (getValue (RowObject fields) (Some (time m)))) as [t0|] eqn:P.
  2: { split; [auto | intros [H | [H _]]; [exact H | discriminate]]. }
  set (g0 := groupLabelOf (group m) "Group" (RowObject fields)).
  set (grouped1 := if JsMap.has String.eqb g0 grouped then grouped
                   else JsMap.set String.eqb g0 [] grouped).
  assert (H1 : forall g', JsMap.get String.eqb g' grouped1
                          = if String.eqb g' g0
                            then Some (orElse (JsMap.get String.eqb g0 grouped) [])
                            else JsMap.get String.eqb g' grouped).
  { intros g'. subst grouped1. unfold JsMap.has.
    destruct (String.eqb g' g0) eqn:E.
    - apply String.eqb_eq in E. subst g'.
      destruct (JsMap.get String.eqb g0 grouped) as [tl|] eqn:G; [exact G|].
      apply (map_get_set_same String.eqb String.eqb_eq).
    - apply String.eqb_neq in E.
      destruct (JsMap.get String.eqb g0 grouped); [reflexivity|].
      apply (map_get_set_other String.eqb String.eqb_eq). exact E. }
  set (timeline := orElse (JsMap.get String.eqb g0 grouped1) []).
  assert (Htl : timeline = orElse (JsMap.get String.eqb g0 grouped) []).
  { subst timeline. rewrite H1, String.eqb_refl. reflexivity. }
  set (bucket1 := if countsAsEvent m (RowObject fields) then _ else _).
  unfold groupTimes.
  destruct (String.eqb g g0) eqn:E.
  - apply String.eqb_eq in E. subst g.
    rewrite (map_get_set_same String.eqb String.eqb_eq). split.
    + intros [tl [Heq Hin]]. inversion Heq; subst tl.
      apply keys_set_In in Hin as [-> | Hin]; [right; auto|].
      left. rewrite Htl in Hin.
      destruct (JsMap.get String.eqb g0 grouped) as [tl0|]; [|destruct Hin].
      exists tl0. auto.
    + intros H. eexists. split; [reflexivity|].
      rewrite (map_set_keys numEqb).
      destruct H as [[tl0 [Hget Hin]] | [Heq _]].
      * rewrite Htl, Hget. simpl.
        destruct (JsMap.has numEqb t0 tl0); [exact Hin | apply in_or_app; auto].
      * inversion Heq; subst t0. unfold JsMap.has.
        destruct (JsMap.get numEqb t timeline) as [b|] eqn:G.
        -- apply (map_get_In numEqb numEqb_eq) in G.
           unfold JsMap.keys. apply in_map_iff. exists (t, b). auto.
        -- apply in_or_app. right. left. reflexivity.
  - apply String.eqb_neq in E.
    rewrite (map_get_set_other String.eqb String.eqb_eq) by exact E.
    rewrite H1. apply String.eqb_neq in E. rewrite E. apply String.eqb_neq in E.
    split; [auto | intros [H | [_ H]]; [exact H | congruence]].
Qed.

Lemma groupRows_times_from (rows : list KaplanRow) (m : ColumnMapping)
      (grouped : list (string * list (number * Bucket))) (g : string) (t : number) :
  groupTimes (fold_left (addEventRow m) rows grouped) g t
  <-> groupTimes grouped g t
      \/ exists row, In row rows
                     /\ parseNumber (getValue row (Some (time m))) = Some t
                     /\ groupLabelOf (group m) "Group" row = g.
Proof.
  revert grouped. induction rows as [|row rows IH]; intros grouped; simpl.
  - split; [auto | intros [H | [row [[] _]]]; exact H].
  - rewrite IH, addEventRow_times. split.
    + intros [[H | H] | [r [Hin H]]]; [auto | right; exists row; auto |
                                       right; exists r; auto].
    + intros [H | [r [[<- | Hin] H]]]; [auto | left; right; exact H |
                                        right; exists r; auto].
Qed.

Lemma addEventRow_NoDup (m : ColumnMapping)
      (grouped : list (string * list (number * Bucket))) (row : KaplanRow) :
  NoDup (JsMap.keys grouped) -> NoDup (JsMap.keys (addEventRow m grouped row)).
Proof.
  intros Hnd. unfold addEventRow. destruct row as [fields|]; [|exact Hnd].
  destruct (parseNumber (getValue (RowObject fields) (Some (time m)))); [|exact Hnd].
  apply (map_set_NoDup String.eqb String.eqb_eq).
  destruct (JsMap.has String.eqb _ grouped); [exact Hnd|].
  apply (map_set_NoDup String.eqb String.eqb_eq). exact Hnd.
Qed.

Lemma groupRows_NoDup (rows : list KaplanRow) (m : ColumnMapping) :
  NoDup (JsMap.keys (groupRows rows m)).
Proof.
  unfold groupRows. generalize (NoDup_nil string).
  change (@nil string) with (JsMap.keys (@nil (string * list (number * Bucket)))).
  generalize (@nil (string * list (number * Bucket))).
  induction rows as [|row rows IH]; intros grouped Hnd; simpl; [exact Hnd|].
  apply IH, addEventRow_NoDup, Hnd.
Qed.

Lemma sorted_NoDup_strict (l : list number) :
  StronglySorted Qcle l -> NoDup l -> StronglySorted Qclt l.
Proof.
  induction 1 as [|x l Hs IH Hall]; intros Hnd; [constructor|].
  inversion Hnd as [|? ? Hnotin Hnd']; subst.
  constructor; [apply IH; exact Hnd'|].
  rewrite Forall_forall in *. intros y Hy.
  destruct (Qcle_lt_or_eq _ _ (Hall y Hy)) as [Hlt | Heq]; [exact Hlt|].
  subst y. contradiction.
Qed.

Lemma orderedTimes_strict (timeline : list (number * Bucket)) :
  NoDup (JsMap.keys timeline) -> StronglySorted Qclt (orderedTimes timeline).
Proof.
  intros Hnd. apply sorted_NoDup_strict.
  - apply (sortBy_sorted (fun t : number => t)).
  - eapply Permutation_NoDup; [apply Permutation_sym, sortBy_perm | exact Hnd].
Qed.

Lemma eventSeries_times (timeline : list (number * Bucket)) :
  timelineOk timeline -> timelinePositive timeline ->
  let final := runEventLoop timeline in
  map stepTime (stepsOut final) = num 0 :: orderedTimes timeline
  /\ atRisk final = 0%Z
  /\ Z.of_nat (List.length (censoredOut final)) = sumOver censoredCount timeline.
Proof.
  intros Hok Hpos. unfold runEventLoop.
  destruct (eventLoop_exact timeline (orderedTimes timeline)
              (eventLoopInit (bucketTotal timeline)) Hok Hpos) as [H1 [H2 H3]].
  - intros t Hin. eapply Permutation_in; [apply sortBy_perm | exact Hin].
  - simpl. symmetry. apply bucketTotal_ordered, Hok.
  - split; [exact H1|]. split; [exact H2|]. rewrite H3. simpl.
    unfold orderedTimes, sumOver.
    rewrite (sumZ_perm _ (map (fun t => censoredCount
                                          (orElse (JsMap.get numEqb t timeline) emptyBucket))
                              (JsMap.keys timeline)))
      by (apply Permutation_map, sortBy_perm).
    unfold JsMap.keys. rewrite map_map. f_equal. apply map_ext_in.
    intros [k b] Hin. cbn [fst snd].
    rewrite (map_In_get numEqb numEqb_eq k b timeline (proj1 Hok) Hin). reflexivity.
Qed.

(** X8: in the event-based construction a series is the seed step followed
    by one step per distinct time of its group: the times of these steps
    strictly increase (rows with the same time share a step), and they are
    exactly the parsed times of the rows that carry the group's label. *)
Theorem event_steps_times (rows : list KaplanRow) (m : ColumnMapping) (s : KaplanSeries) :
  In s (buildEventSeries rows m) ->
  exists first rest,
    steps s = first :: rest
    /\ StronglySorted Qclt (map stepTime rest)
    /\ forall t,
        In t (map stepTime rest)
        <-> exists row, In row rows
                        /\ parseNumber (getValue row (Some (time m))) = Some t
                        /\ groupLabelOf (group m) "Group" row = seriesGroup s.
Proof.
  unfold buildEventSeries. intros Hin.
  apply in_map_iff in Hin as [[g tl] [<- Hin]].
  pose proof (groupRows_ok rows m g tl Hin) as [Hok _].
  pose proof (groupRows_positive rows m g tl Hin) as Hpos.
  destruct (eventSeries_times tl Hok Hpos) as [Htimes _].
  unfold eventSeriesOf. cbn [steps seriesGroup fst snd].
  destruct (stepsOut (runEventLoop tl)) as [|first rest]; [discriminate|].
  cbn [map] in Htimes. inversion Htimes as [[H0 Hrest]].
  exists first, rest. split; [reflexivity|]. rewrite Hrest. split.
  - apply orderedTimes_strict, Hok.
  - intros t.
    assert (Hget : JsMap.get String.eqb g (groupRows rows m) = Some tl)
      by (apply (map_In_get String.eqb String.eqb_eq);
          [apply groupRows_NoDup | exact Hin]).
    assert (Hkeys : In t (orderedTimes tl) <-> groupTimes (groupRows rows m) g t).
    { unfold groupTimes. rewrite Hget. split.
      - intros Ht. exists tl. split; [reflexivity|].
        eapply Permutation_in; [apply sortBy_perm | exact Ht].
      - intros [tl' [Heq Ht]]. inversion Heq; subst tl'.
        eapply Permutation_in; [apply Permutation_sym, sortBy_perm | exact Ht]. }
    rewrite Hkeys. unfold groupRows. rewrite groupRows_times_from. split.
    + intros [[tl' [Hnone _]] | H]; [discriminate | exact H].
    + auto.
Qed.

(** ** At-risk counts, survival and censored points of a series *)

Lemma tl_snoc {A : Type} (l : list A) (x : A) :
  l <> [] -> List.tl (l ++ [x]) = (List.tl l ++ [x])%list.
Proof. destruct l; [congruence | reflexivity]. Qed.

Lemma eventStep_riskInv (timeline : list (number * Bucket)) (total : Z)
      (st : EventLoop) (t : number) :
  timelineOk timeline -> stepsOut st <> [] ->
  riskInv total st ->
  riskInv total (eventStep timeline st t) /\ stepsOut (eventStep timeline st t) <> [].
Proof.
  intros Hok Hne [Hle [Hall [Hsorted Hrest]]].
  pose proof (weightAt_bounds timeline t Hok) as Hw.
  unfold riskInv, eventStep. destruct (atRisk st <=? 0)%Z eqn:G;
    cbn [atRisk stepsOut].
  - split; [repeat split; assumption | exact Hne].
  - apply Z.leb_gt in G. fold (weightAt timeline t) in Hw.
    assert (Hwb : weightAt timeline t
                  = (events (orElse (JsMap.get numEqb t timeline) emptyBucket)
                     + censoredCount (orElse (JsMap.get numEqb t timeline) emptyBucket))%Z)
      by reflexivity.
    split; [|intros E; apply app_eq_nil in E as [_ E]; discriminate].
    repeat split.
    + lia.
    + apply Forall_app. split.
      * eapply Forall_impl; [|exact Hall]. cbv beta. intros x Hx. lia.
      * constructor; [|constructor]. unfold atRiskOf. simpl. lia.
    + apply sorted_snoc; [exact Hsorted|].
      eapply Forall_impl; [|exact Hall]. cbv beta. intros x Hx. exact Hx.
    + rewrite tl_snoc by exact Hne. apply Forall_app. split; [exact Hrest|].
      constructor; [|constructor]. eexists. split; [reflexivity|]. lia.
Qed.

Lemma eventLoop_riskInv (timeline : list (number * Bucket)) (total : Z)
      (ts : list number) (st : EventLoop) :
  timelineOk timeline -> stepsOut st <> [] -> riskInv total st ->
  riskInv total (fold_left (eventStep timeline) ts st).
Proof.
  intros Hok. revert st. induction ts as [|t ts IH]; intros st Hne Hinv; simpl;
    [exact Hinv|].
  destruct (eventStep_riskInv timeline total st t Hok Hne Hinv) as [Hinv' Hne'].
  apply IH; assumption.
Qed.

(** X9: in the event-based construction the at-risk counts of the steps never
    go up along the sequence, and every step after the first has a count
    between 1 and the number of subjects of the series (the count of the
    first step). *)
Theorem event_steps_at_risk (rows : list KaplanRow) (m : ColumnMapping) (s : KaplanSeries) :
  In s (buildEventSeries rows m) ->
  StronglySorted (fun a b => (atRiskOf b <= atRiskOf a)%Z) (steps s)
  /\ Forall (fun x => exists a, stepAtRisk x = Some a /\ (1 <= a <= seriesTotal s)%Z)
            (List.tl (steps s)).
Proof.
  unfold buildEventSeries. intros Hin.
  apply in_map_iff in Hin as [[g tl] [<- Hin]].
  pose proof (groupRows_ok rows m g tl Hin) as [Hok _].
  assert (Hinv : riskInv (bucketTotal tl) (runEventLoop tl)).
  { unfold runEventLoop. apply eventLoop_riskInv; [exact Hok | discriminate|].
    unfold riskInv, eventLoopInit. cbn [atRisk stepsOut List.tl]. repeat split.
    - lia.
    - constructor; [unfold atRiskOf; simpl; lia | constructor].
    - constructor; constructor.
    - constructor. }
  destruct Hinv as [_ [_ [Hsorted Hrest]]].
  assert (Htotal : seriesTotal (eventSeriesOf (g, tl)) = bucketTotal tl).
  { unfold seriesTotal, eventSeriesOf. cbn [steps snd].
    destruct (eventSeries_shape tl Hok) as [[rest Hfirst] _]. rewrite Hfirst.
    reflexivity. }
  rewrite Htotal. unfold eventSeriesOf. cbn [steps snd]. auto.
Qed.

Lemma eventLoop_survivalInv (timeline : list (number * Bucket)) (ts : list number)
      (st : EventLoop) :
  timelineOk timeline -> survivalInv timeline st ts ->
  survivalInv timeline (fold_left (eventStep timeline) ts st) [].
Proof.
  intros Hok. revert st. induction ts as [|t ts IH]; intros st H; simpl; [exact H|].
  apply IH, eventStep_survivalInv; assumption.
Qed.

(** X10: in the event-based construction every step has a survival between
    0 and 100. *)
Theorem event_steps_survival_range (rows : list KaplanRow) (m : ColumnMapping)
        (s : KaplanSeries) :
  In s (buildEventSeries rows m) ->
  Forall (fun x => (num 0 <= stepSurvival x)%Qc /\ (stepSurvival x <= num 100)%Qc)
         (steps s).
Proof.
  unfold buildEventSeries. intros Hin.
  apply in_map_iff in Hin as [[g tl] [<- Hin]].
  pose proof (groupRows_ok rows m g tl Hin) as [Hok _].
  assert (Hinv : survivalInv tl (runEventLoop tl) []).
  { unfold runEventLoop. apply eventLoop_survivalInv; [exact Hok|].
    unfold survivalInv, eventLoopInit. cbn [atRisk survivalNow stepsOut].
    rewrite (bucketTotal_ordered tl Hok). repeat split.
    - lia.
    - apply (proj1 (num_le 0 100)). lia.
    - constructor; constructor.
    - constructor; [apply Qcle_refl | constructor]. }
  destruct Hinv as [_ [H0 [Hsorted Hall]]].
  destruct (eventSeries_shape tl Hok) as [[rest Hfirst] _].
  unfold eventSeriesOf. cbn [steps snd]. unfold survivalNonIncreasing in Hsorted.
  rewrite Hfirst in *. apply Forall_forall. intros x Hx. split.
  - rewrite Forall_forall in Hall. eapply Qcle_trans; [exact H0 | apply Hall, Hx].
  - destruct Hx as [<- | Hx]; [apply Qcle_refl|].
    inversion Hsorted as [|? ? _ Hhead]; subst.
    rewrite Forall_forall in Hhead. apply (Hhead x Hx).
Qed.

Lemma onCurve_more (l more : list SurvivalStep) (c : CensoredPoint) :
  onCurve l c -> onCurve (l ++ more) c.
Proof.
  intros [s [Hin H]]. exists s. split; [apply in_or_app; auto | exact H].
Qed.

Lemma eventStep_onCurve (timeline : list (number * Bucket)) (st : EventLoop) (t : number) :
  Forall (onCurve (stepsOut st)) (censoredOut st) ->
  Forall (onCurve (stepsOut (eventStep timeline st t)))
         (censoredOut (eventStep timeline st t)).
Proof.
  intros H. unfold eventStep. destruct (atRisk st <=? 0)%Z; cbn [stepsOut censoredOut];
    [exact H|].
  apply Forall_app. split.
  - eapply Forall_impl; [|exact H]. intros c Hc. apply onCurve_more, Hc.
  - apply Forall_forall. intros c Hc. apply repeat_spec in Hc. subst c.
    eexists. split; [apply in_or_app; right; left; reflexivity|]. auto.
Qed.

(** X11: in the event-based construction every censored point lies on the
    curve: some step of the series has its time and its survival. *)
Theorem censored_points_on_curve (rows : list KaplanRow) (m : ColumnMapping)
        (s : KaplanSeries) :
  In s (buildEventSeries rows m) ->
  Forall (onCurve (steps s)) (censoredPoints s).
Proof.
  unfold buildEventSeries. intros Hin.
  apply in_map_iff in Hin as [[g tl] [<- _]].
  unfold eventSeriesOf, runEventLoop. cbn [steps censoredPoints snd].
  assert (H : forall ts st,
             Forall (onCurve (stepsOut st)) (censoredOut st) ->
             Forall (onCurve (stepsOut (fold_left (eventStep tl) ts st)))
                    (censoredOut (fold_left (eventStep tl) ts st))).
  { induction ts as [|t ts IH]; intros st Hst; simpl; [exact Hst|].
    apply IH, eventStep_onCurve, Hst. }
  apply H. constructor.
Qed.

(** ** Every row is counted once *)

Section MapSums.
Context {K V : Type}.
Variable keyEq : K -> K -> bool.
Variable f : V -> Z.

Lemma sumOver_set (k : K) (v : V) (m : list (K * V)) :
  sumOver f (JsMap.set keyEq k v m)
  = (sumOver f m
     - match JsMap.get keyEq k m with Some old => f old | None => 0 end
     + f v)%Z.
Proof.
  unfold sumOver. induction m as [|[k' v'] m IH]; simpl; [lia|].
  destruct (keyEq k k'); simpl; [lia | rewrite IH; lia].
Qed.

End MapSums.

Lemma addEventRow_tally (ce cc : Z) (m : ColumnMapping)
      (grouped : list (string * list (number * Bucket))) (row : KaplanRow) :
  sumOver (sumOver (tallyOf ce cc)) (addEventRow m grouped row)
  = (sumOver (sumOver (tallyOf ce cc)) grouped
     + if hasTime m row then (if countsAsEvent m row then ce else cc) else 0)%Z.
Proof.
  unfold addEventRow, hasTime. destruct row as [fields|]; [|simpl; lia].
  destruct (parseNumber (getValue (RowObject fields) (Some (time m)))) as [t|]; [|lia].
  set (g := groupLabelOf (group m) "Group" (RowObject fields)).
  set (grouped1 := if JsMap.has String.eqb g grouped then grouped
                   else JsMap.set String.eqb g [] grouped).
  assert (H1 : sumOver (sumOver (tallyOf ce cc)) grouped1
               = sumOver (sumOver (tallyOf ce cc)) grouped
               /\ match JsMap.get String.eqb g grouped1 with
                  | Some old => sumOver (tallyOf ce cc) old
                  | None => 0%Z
                  end
                  = sumOver (tallyOf ce cc) (orElse (JsMap.get String.eqb g grouped1) [])).
  { subst grouped1. unfold JsMap.has.
    destruct (JsMap.get String.eqb g grouped) as [tl|] eqn:G.
    - rewrite G. auto.
    - rewrite (map_get_set_same String.eqb String.eqb_eq). split; [|reflexivity].
      rewrite sumOver_set, G.
      change (sumOver (tallyOf ce cc) (@nil (number * Bucket))) with 0%Z. lia. }
  destruct H1 as [H1 H2].
  set (timeline := orElse (JsMap.get String.eqb g grouped1) []) in *.
  rewrite sumOver_set, H2, sumOver_set, H1.
  assert (Hb : match JsMap.get numEqb t timeline with
               | Some old => tallyOf ce cc old
               | None => 0%Z
               end = tallyOf ce cc (orElse (JsMap.get numEqb t timeline) emptyBucket)).
  { destruct (JsMap.get numEqb t timeline); [reflexivity|].
    unfold tallyOf. simpl. lia. }
  rewrite Hb. unfold tallyOf.
  destruct (countsAsEvent m (RowObject fields)); simpl; lia.
Qed.

Lemma groupRows_tally (ce cc : Z) (rows : list KaplanRow) (m : ColumnMapping) :
  sumOver (sumOver (tallyOf ce cc)) (groupRows rows m)
  = sumZ (map (fun row => if hasTime m row
                          then (if countsAsEvent m row then ce else cc) else 0%Z)
              rows).
Proof.
  unfold groupRows.
  assert (H : forall grouped,
             sumOver (sumOver (tallyOf ce cc)) (fold_left (addEventRow m) rows grouped)
             = (sumOver (sumOver (tallyOf ce cc)) grouped
                + sumZ (map (fun row => if hasTime m row
                                        then (if countsAsEvent m row then ce else cc)
                                        else 0%Z) rows))%Z).
  { induction rows as [|row rows IH]; intros grouped; simpl; [lia|].
    rewrite IH, addEventRow_tally. lia. }
  rewrite H. reflexivity.
Qed.

Lemma count_filter (p : KaplanRow -> bool) (rows : list KaplanRow) :
  sumZ (map (fun row => if p row then 1%Z else 0%Z) rows)
  = Z.of_nat (List.length (filter p rows)).
Proof.
  induction rows as [|row rows IH]; simpl; [reflexivity|].
  destruct (p row); simpl List.length; lia.
Qed.

Lemma seriesTotal_event (g : string) (timeline : list (number * Bucket)) :
  seriesTotal (eventSeriesOf (g, timeline)) = sumOver (tallyOf 1 1) timeline.
Proof.
  unfold seriesTotal, eventSeriesOf, runEventLoop. cbn [steps snd].
  destruct (eventLoop_appends timeline (orderedTimes timeline)
              (eventLoopInit (bucketTotal timeline))) as [ms [_ [Hs _]]].
  rewrite Hs. cbn. unfold bucketTotal. rewrite bucketTotal_from.
  unfold sumOver, JsMap.values. rewrite map_map.
  rewrite (map_ext (fun entry => weight (snd entry))
                   (fun entry => tallyOf 1 1 (snd entry)));
    [apply Z.add_0_l | intros [k b]; unfold weight, tallyOf; cbn [snd]; lia].
Qed.

(** X12: the event-based construction counts every row that has a parseable
    time once: the numbers of subjects of the series (the at-risk counts of
    their first steps) add up to the number of such rows. *)
Theorem subjects_are_conserved (rows : list KaplanRow) (m : ColumnMapping) :
  sumZ (map seriesTotal (buildEventSeries rows m))
  = Z.of_nat (List.length (filter (hasTime m) rows)).
Proof.
  unfold buildEventSeries. rewrite map_map.
  rewrite (map_ext _ (fun entry => sumOver (tallyOf 1 1) (snd entry)))
    by (intros [g tl]; apply seriesTotal_event).
  change (sumZ (map (fun entry => sumOver (tallyOf 1 1) (snd entry)) (groupRows rows m)))
    with (sumOver (sumOver (tallyOf 1 1)) (groupRows rows m)).
  rewrite groupRows_tally, <- count_filter. f_equal. apply map_ext. intros row.
  destruct (hasTime m row); [destruct (countsAsEvent m row)|]; reflexivity.
Qed.

(** X13: the censored points of all series are as many as the rows that have
    a parseable time and are not counted as events: one marker per censored
    subject. *)
Theorem censored_points_are_conserved (rows : list KaplanRow) (m : ColumnMapping) :
  sumZ (map (fun s => Z.of_nat (List.length (censoredPoints s)))
            (buildEventSeries rows m))
  = Z.of_nat (List.length
                (filter (fun row => hasTime m row && negb (countsAsEvent m row)) rows)).
Proof.
  unfold buildEventSeries. rewrite map_map.
  rewrite (map_ext_in _ (fun entry => sumOver (tallyOf 0 1) (snd entry))).
  - change (sumZ (map (fun entry => sumOver (tallyOf 0 1) (snd entry))
                      (groupRows rows m)))
      with (sumOver (sumOver (tallyOf 0 1)) (groupRows rows m)).
    rewrite groupRows_tally, <- count_filter. f_equal. apply map_ext. intros row.
    destruct (hasTime m row); [destruct (countsAsEvent m row)|]; reflexivity.
  - intros [g tl] Hin.
    pose proof (groupRows_ok rows m g tl Hin) as [Hok _].
    pose proof (groupRows_positive rows m g tl Hin) as Hpos.
    destruct (eventSeries_times tl Hok Hpos) as [_ [_ Hc]].
    unfold eventSeriesOf. cbn [censoredPoints snd]. rewrite Hc.
    unfold sumOver. f_equal. apply map_ext. intros [k b].
    unfold tallyOf. cbn [snd]. lia.
Qed.

(** ** One series per group *)

Lemma addSurvivalRow_keys (m : ColumnMapping) (survivalKey : string)
      (grouped : list (string * KaplanSeries)) (row : KaplanRow) :
  NoDup (JsMap.keys grouped)
  /\ (forall g series, In (g, series) grouped -> seriesGroup series = g) ->
  NoDup (JsMap.keys (addSurvivalRow m survivalKey grouped row))
  /\ (forall g series, In (g, series) (addSurvivalRow m survivalKey grouped row) ->
                       seriesGroup series = g).
Proof.
  intros [Hnd Hkey]. unfold addSurvivalRow. destruct row as [fields|]; [|auto].
  destruct (parseNumber (getValue (RowObject fields) (Some (time m)))); [|auto].
  destruct (parseNumber (getValue (RowObject fields) (Some survivalKey))); [|auto].
  set (g := groupLabelOf (group m) (prettifyLabel survivalKey) (RowObject fields)).
  set (fresh := {| seriesGroup := g; steps := [seedStep]; censoredPoints := [];
                   atRiskMap := [] |}).
  set (grouped1 := if JsMap.has String.eqb g grouped then grouped
                   else JsMap.set String.eqb g fresh grouped).
  assert (H1 : NoDup (JsMap.keys grouped1)
               /\ forall g' series, In (g', series) grouped1 -> seriesGroup series = g').
  { subst grouped1. destruct (JsMap.has String.eqb g grouped); [auto|]. split.
    - apply (map_set_NoDup String.eqb String.eqb_eq), Hnd.
    - intros g' series Hin.
      apply (map_set_In String.eqb String.eqb_eq) in Hin as [[-> ->] | Hin];
        [reflexivity | apply Hkey, Hin]. }
  destruct H1 as [Hnd1 Hkey1].
  set (series := orElse (JsMap.get String.eqb g grouped1) fresh).
  assert (Hs : seriesGroup series = g).
  { subst series. destruct (JsMap.get String.eqb g grouped1) as [ser|] eqn:E; simpl;
      [|reflexivity].
    apply (map_get_In String.eqb String.eqb_eq) in E. apply Hkey1, E. }
  split.
  - apply (map_set_NoDup String.eqb String.eqb_eq), Hnd1.
  - intros g' ser Hin.
    apply (map_set_In String.eqb String.eqb_eq) in Hin as [[-> ->] | Hin];
      [exact Hs | apply Hkey1, Hin].
Qed.

(** X14: [buildSeries] returns one series per group label: no two series of
    the result have the same group. *)
Theorem series_groups_distinct (rows : list KaplanRow) (m : ColumnMapping) :
  NoDup (map seriesGroup (buildSeries rows m)).
Proof.
  assert (Hevent : NoDup (map seriesGroup (buildEventSeries rows m))).
  { unfold buildEventSeries. rewrite map_map.
    rewrite (map_ext _ fst) by (intros [g tl]; reflexivity).
    apply groupRows_NoDup. }
  unfold buildSeries.
  destruct (JsStr.isEmpty (time m)); [constructor|].
  destruct (truthy (event m)); [exact Hevent|].
  destruct (truthy (survival m)) eqn:Es; [|exact Hevent].
  unfold buildSurvivalSeries. rewrite Es. cbn [negb].
  assert (H : forall grouped,
             NoDup (JsMap.keys grouped)
             /\ (forall g series, In (g, series) grouped -> seriesGroup series = g) ->
             let final := fold_left (addSurvivalRow m (keyOf (survival m))) rows grouped in
             NoDup (JsMap.keys final)
             /\ (forall g series, In (g, series) final -> seriesGroup series = g)).
  { clear Hevent. induction rows as [|row rows IH]; intros grouped Hg; simpl;
      [exact Hg|].
    apply IH, addSurvivalRow_keys, Hg. }
  destruct (H []) as [Hnd Hkey]; [split; [constructor | intros g s []]|].
  unfold JsMap.values. rewrite !map_map.
  rewrite (map_ext_in _ fst); [exact Hnd|].
  intros [g series] Hin. cbn [fst snd]. unfold finishSurvivalSeries. cbn [seriesGroup].
  apply Hkey, Hin.
Qed.

(** ** The at-risk table *)

Lemma eventStep_lookupInv (timeline : list (number * Bucket)) (total : Z)
      (st : EventLoop) (t : number) (remaining : list number) :
  timelineOk timeline -> StronglySorted Qclt (t :: remaining) ->
  lookupInv timeline total st (t :: remaining) ->
  lookupInv timeline total (eventStep timeline st t) remaining.
Proof.
  intros Hok Hsorted [Hne [Hsum [Hle [Hmap [Hvals [Hget Htimes]]]]]].
  pose proof (weightAt_bounds timeline t Hok) as Hw.
  pose proof (sumZ_weights_nonneg timeline remaining Hok) as Hrest.
  simpl in Hsum. inversion Hsorted as [|? ? Hsorted' Hlt]; subst.
  assert (Hvals' : forall k v, In (k, v) (JsMap.set numEqb t (atRisk st) (atRiskOut st)) ->
                               (0 <= v <= total)%Z).
  { intros k v Hin. apply (map_set_In numEqb numEqb_eq) in Hin as [[_ ->] | Hin];
      [lia | apply (Hvals k v Hin)]. }
  assert (Hget' : Forall (fun x => exists a,
                              stepAtRisk x = Some a
                              /\ JsMap.get numEqb (stepTime x)
                                   (JsMap.set numEqb t (atRisk st) (atRiskOut st)) = Some a)
                         (List.tl (stepsOut st))).
  { rewrite Forall_forall in *. intros x Hx. destruct (Hget x Hx) as [a [Ha Hg]].
    exists a. split; [exact Ha|].
    rewrite (map_get_set_other numEqb numEqb_eq); [exact Hg|].
    specialize (Htimes x Hx). inversion Htimes as [|? ? Hxt _]; subst.
    intros E. rewrite E in Hxt. exact (Qclt_not_eq _ _ Hxt eq_refl). }
  assert (Htimes' : Forall (fun x => Forall (fun t' => (stepTime x < t')%Qc) remaining)
                           (List.tl (stepsOut st))).
  { rewrite Forall_forall in *. intros x Hx. specialize (Htimes x Hx).
    inversion Htimes; subst; assumption. }
  unfold lookupInv, eventStep. destruct (atRisk st <=? 0)%Z eqn:G;
    cbn [atRisk stepsOut atRiskOut].
  - apply Z.leb_le in G.
    repeat (split; [first [assumption | lia
                          | apply (map_set_nonempty numEqb)]|]).
    assumption.
  - apply Z.leb_gt in G. fold (weightAt timeline t) in Hw.
    set (later := sumZ (map (weightAt timeline) remaining)) in *.
    unfold weightAt, weight in Hw, Hsum.
    set (b := orElse (JsMap.get numEqb t timeline) emptyBucket) in *.
    rewrite (tl_snoc _ _ Hne).
    split; [intros E; apply app_eq_nil in E as [_ E]; discriminate|].
    split; [lia|]. split; [lia|].
    split; [apply (map_set_nonempty numEqb)|].
    split; [exact Hvals'|]. split.
    + apply Forall_app. split; [exact Hget'|]. constructor; [|constructor].
      exists (atRisk st). cbn [stepAtRisk stepTime]. split; [reflexivity|].
      apply (map_get_set_same numEqb numEqb_eq).
    + apply Forall_app. split; [exact Htimes'|]. constructor; [|constructor].
      cbn [stepTime]. exact Hlt.
Qed.

Lemma eventLoop_lookupInv (timeline : list (number * Bucket)) (total : Z)
      (ts : list number) (st : EventLoop) :
  timelineOk timeline -> StronglySorted Qclt ts ->
  lookupInv timeline total st ts ->
  lookupInv timeline total (fold_left (eventStep timeline) ts st) [].
Proof.
  intros Hok. revert st. induction ts as [|t ts IH]; intros st Hsorted Hinv; simpl;
    [exact Hinv|].
  apply IH.
  - inversion Hsorted; assumption.
  - apply eventStep_lookupInv; assumption.
Qed.

Lemma eventSeries_lookupInv (timeline : list (number * Bucket)) :
  timelineOk timeline ->
  lookupInv timeline (bucketTotal timeline) (runEventLoop timeline) []
  /\ exists rest,
      stepsOut (runEventLoop timeline)
      = {| stepTime := num 0; stepSurvival := num 100;
           stepAtRisk := Some (bucketTotal timeline) |} :: rest.
Proof.
  intros Hok. split.
  - unfold runEventLoop. apply eventLoop_lookupInv; [exact Hok | |].
    + apply orderedTimes_strict, Hok.
    + pose proof (sumZ_weights_nonneg timeline (orderedTimes timeline) Hok) as H0.
      rewrite (bucketTotal_ordered timeline Hok) in H0.
      unfold lookupInv, eventLoopInit. cbn [atRisk stepsOut atRiskOut List.tl].
      split; [discriminate|].
      split; [rewrite (bucketTotal_ordered timeline Hok); lia|].
      split; [lia|].
      split; [apply (map_set_nonempty numEqb)|].
      split; [|split; constructor].
      intros k v Hin. apply (map_set_In numEqb numEqb_eq) in Hin as [[_ ->] | []]. lia.
  - unfold runEventLoop.
    destruct (eventLoop_appends timeline (orderedTimes timeline)
                (eventLoopInit (bucketTotal timeline))) as [ms [_ [Hs _]]].
    rewrite Hs. exists ms. reflexivity.
Qed.

Lemma size_nonempty {K V : Type} (m : list (K * V)) :
  m <> [] -> (JsMap.size m =? 0)%nat = false.
Proof. destruct m; [congruence | reflexivity]. Qed.

(** X15: the at-risk table agrees with the curve: in the event-based
    construction, looking up the time of a step after the first returns the
    at-risk count of that step. *)
Theorem lookup_at_step_time (rows : list KaplanRow) (m : ColumnMapping)
        (s : KaplanSeries) (x : SurvivalStep) :
  In s (buildEventSeries rows m) -> In x (List.tl (steps s)) ->
  exists a, stepAtRisk x = Some a /\ getAtRiskAtTime s (stepTime x) = AtRiskCount a.
Proof.
  unfold buildEventSeries. intros Hin Hx.
  apply in_map_iff in Hin as [[g tl] [<- Hin]].
  pose proof (groupRows_ok rows m g tl Hin) as [Hok _].
  destruct (eventSeries_lookupInv tl Hok) as [[_ [_ [_ [Hmap [_ [Hget _]]]]]] _].
  unfold eventSeriesOf in *. cbn [steps snd] in Hx.
  rewrite Forall_forall in Hget. destruct (Hget x Hx) as [a [Ha Hg]].
  exists a. split; [exact Ha|].
  unfold getAtRiskAtTime. cbn [atRiskMap snd].
  rewrite (size_nonempty _ Hmap), Hg. reflexivity.
Qed.

(** X16: in the event-based construction the at-risk table never shows a
    dash: at every time the lookup returns a count, between 0 and the number
    of subjects of the series. *)
Theorem event_lookup_is_a_count (rows : list KaplanRow) (m : ColumnMapping)
        (s : KaplanSeries) (t : number) :
  In s (buildEventSeries rows m) ->
  exists n, getAtRiskAtTime s t = AtRiskCount n /\ (0 <= n <= seriesTotal s)%Z.
Proof.
  unfold buildEventSeries. intros Hin.
  apply in_map_iff in Hin as [[g tl] [<- Hin]].
  pose proof (groupRows_ok rows m g tl Hin) as [Hok _].
  destruct (eventSeries_lookupInv tl Hok)
    as [[_ [Hsum [Hle [Hmap [Hvals _]]]]] [rest Hsteps]].
  change (0 <= atRisk (runEventLoop tl))%Z in Hsum.
  unfold getAtRiskAtTime, seriesTotal, eventSeriesOf. cbn [atRiskMap steps snd].
  rewrite (size_nonempty _ Hmap), Hsteps. unfold atRiskOf. cbn [stepAtRisk orElse].
  destruct (JsMap.get numEqb t (atRiskOut (runEventLoop tl))) as [n|] eqn:G.
  - exists n. split; [reflexivity|].
    apply (map_get_In numEqb numEqb_eq) in G. apply (Hvals _ _ G).
  - destruct (closestTimeBefore_spec (JsMap.keys (atRiskOut (runEventLoop tl))) t)
      as [_ [Hc _]].
    destruct (numEqb (closestTimeBefore (JsMap.keys (atRiskOut (runEventLoop tl))) t)
                     (num (-1))) eqn:E; cbn [negb].
    + exists (bucketTotal tl). split; [reflexivity | lia].
    + destruct Hc as [Hc | [Hc _]];
        [rewrite Hc in E; rewrite numEqb_refl in E; discriminate|].
      destruct (JsMap.get numEqb
                  (closestTimeBefore (JsMap.keys (atRiskOut (runEventLoop tl))) t)
                  (atRiskOut (runEventLoop tl))) as [n|] eqn:G'.
      * exists n. split; [reflexivity|].
        apply (map_get_In numEqb numEqb_eq) in G'. apply (Hvals _ _ G').
      * apply (map_get_None numEqb numEqb_eq) in G'. contradiction.
Qed.

Lemma addSurvivalRow_noRisk (m : ColumnMapping) (survivalKey : string)
      (grouped : list (string * KaplanSeries)) (row : KaplanRow) :
  (forall g series, In (g, series) grouped -> atRiskMap series = []) ->
  forall g series, In (g, series) (addSurvivalRow m survivalKey grouped row) ->
                   atRiskMap series = [].
Proof.
  intros Hall. unfold addSurvivalRow. destruct row as [fields|]; [|exact Hall].
  destruct (parseNumber (getValue (RowObject fields) (Some (time m)))); [|exact Hall].
  destruct (parseNumber (getValue (RowObject fields) (Some survivalKey))); [|exact Hall].
  set (g := groupLabelOf (group m) (prettifyLabel survivalKey) (RowObject fields)).
  set (fresh := {| seriesGroup := g; steps := [seedStep]; censoredPoints := [];
                   atRiskMap := [] |}).
  set (grouped1 := if JsMap.has String.eqb g grouped then grouped
                   else JsMap.set String.eqb g fresh grouped).
  assert (H1 : forall g' series, In (g', series) grouped1 -> atRiskMap series = []).
  { subst grouped1. destruct (JsMap.has String.eqb g grouped); [exact Hall|].
    intros g' series Hin.
    apply (map_set_In String.eqb String.eqb_eq) in Hin as [[_ ->] | Hin];
      [reflexivity | apply (Hall _ _ Hin)]. }
  set (series := orElse (JsMap.get String.eqb g grouped1) fresh).
  assert (Hs : atRiskMap series = []).
  { subst series. destruct (JsMap.get String.eqb g grouped1) as [ser|] eqn:E; simpl;
      [|reflexivity].
    apply (map_get_In String.eqb String.eqb_eq) in E. apply (H1 _ _ E). }
  intros g' ser Hin.
  apply (map_set_In String.eqb String.eqb_eq) in Hin as [[_ ->] | Hin];
    [exact Hs | apply (H1 _ _ Hin)].
Qed.

(** X17: a series built from a survival column has no at-risk counts: the
    at-risk table shows a dash at every time. *)
Theorem survival_lookup_is_a_dash (rows : list KaplanRow) (m : ColumnMapping)
        (s : KaplanSeries) (t : number) :
  In s (buildSeries rows m) -> ~ eventBased m ->
  getAtRiskAtTime s t = AtRiskDash.
Proof.
  intros Hin Hnot.
  destruct (buildSeries_cases rows m s Hin) as [[He _] | [_ [g [series [Hs ->]]]]];
    [contradiction|].
  assert (H : forall grouped,
             (forall g' ser, In (g', ser) grouped -> atRiskMap ser = []) ->
             forall g' ser,
               In (g', ser) (fold_left (addSurvivalRow m (keyOf (survival m))) rows grouped) ->
               atRiskMap ser = []).
  { clear Hin Hs. induction rows as [|row rows IH]; intros grouped Hg; simpl;
      [exact Hg|].
    apply IH, addSurvivalRow_noRisk, Hg. }
  unfold getAtRiskAtTime, finishSurvivalSeries. cbn [atRiskMap].
  rewrite (H [] (fun g' ser (F : In (g', ser) []) => match F with end) g series Hs).
  reflexivity.
Qed.

(** ** Nothing to draw *)

Lemma addEventRow_skips (m : ColumnMapping)
      (grouped : list (string * list (number * Bucket))) (row : KaplanRow) :
  hasTime m row = false -> addEventRow m grouped row = grouped.
Proof.
  unfold hasTime, addEventRow. destruct row as [fields|]; [|reflexivity].
  destruct (parseNumber (getValue (RowObject fields) (Some (time m))));
    [discriminate | reflexivity].
Qed.

(** X19: the event-based construction returns no series exactly when no row
    has a parseable time (the chart then shows that no data is available). *)
Theorem event_series_empty (rows : list KaplanRow) (m : ColumnMapping) :
  buildEventSeries rows m = [] <-> filter (hasTime m) rows = [].
Proof.
  unfold buildEventSeries. split.
  - intros Hnil. destruct (filter (hasTime m) rows) as [|row rest] eqn:F;
      [reflexivity | exfalso].
    assert (Hrow : In row (filter (hasTime m) rows)) by (rewrite F; left; reflexivity).
    apply filter_In in Hrow as [Hin Ht].
    apply map_eq_nil in Hnil. revert Hnil. unfold groupRows.
    apply groupRows_nonempty. right. exists row. split; [exact Hin|].
    unfold hasTime in Ht.
    destruct (parseNumber (getValue row (Some (time m)))); [discriminate|discriminate].
  - intros Hnone.
    assert (H : forall grouped, fold_left (addEventRow m) rows grouped = grouped).
    { induction rows as [|row rows IH]; intros grouped; simpl; [reflexivity|].
      simpl in Hnone. destruct (hasTime m row) eqn:Ht; [discriminate|].
      rewrite (addEventRow_skips m grouped row Ht). apply IH, Hnone. }
    unfold groupRows. rewrite H. reflexivity.
Qed.

(** ** What the parent is told *)





(** ** The points of a survival column *)

Section MapUpdate.
Context {K V : Type}.
Variable keyEq : K -> K -> bool.
Hypothesis keyEq_eq : forall x y, keyEq x y = true <-> x = y.

Lemma map_set_In_other (k k0 : K) (v v0 : V) (m : list (K * V)) :
  NoDup (JsMap.keys m) ->
  In (k, v) (JsMap.set keyEq k0 v0 m) ->
  (k = k0 /\ v = v0) \/ (k <> k0 /\ In (k, v) m).
Proof.
  induction m as [|[k' v'] m IH]; simpl; intros Hnd.
  - intros [H | []]. inversion H. auto.
  - inversion Hnd as [|? ? Hnotin Hnd']; subst.
    destruct (keyEq k0 k') eqn:E.
    + apply keyEq_eq in E. subst k'. intros [H | H]; [inversion H; auto|].
      right. split; [|auto]. intros ->. apply Hnotin.
      apply in_map_iff. exists (k0, v). auto.
    + intros [H | H].
      * inversion H; subst. right. split; [|auto].
        intros ->. rewrite (proj2 (keyEq_eq k0 k0) eq_refl) in E. discriminate.
      * destruct (IH Hnd' H) as [? | [? ?]]; auto.
Qed.

Lemma map_set_In_new (k0 : K) (v0 : V) (m : list (K * V)) :
  In (k0, v0) (JsMap.set keyEq k0 v0 m).
Proof.
  induction m as [|[k' v'] m IH]; simpl; [auto|].
  destruct (keyEq k0 k') eqn:E; [|right; exact IH].
  apply keyEq_eq in E. subst. left. reflexivity.
Qed.

Lemma map_set_keys_incl (k k0 : K) (v0 : V) (m : list (K * V)) :
  In k (JsMap.keys m) -> In k (JsMap.keys (JsMap.set keyEq k0 v0 m)).
Proof.
  rewrite (map_set_keys keyEq). destruct (JsMap.has keyEq k0 m); [auto|].
  intros H. apply in_or_app. auto.
Qed.

End MapUpdate.

Lemma addSurvivalRow_skips (m : ColumnMapping) (survivalKey : string)
      (grouped : list (string * KaplanSeries)) (row : KaplanRow) :
  survivalPoint m survivalKey row = None ->
  addSurvivalRow m survivalKey grouped row = grouped.
Proof.
  unfold survivalPoint, addSurvivalRow. destruct row as [fields|]; [|reflexivity].
  destruct (parseNumber (getValue (RowObject fields) (Some (time m)))); [|reflexivity].
  destruct (parseNumber (getValue (RowObject fields) (Some survivalKey)));
    [discriminate | reflexivity].
Qed.

Lemma survivalSeriesOk_skip (m : ColumnMapping) (survivalKey : string)
      (done : list KaplanRow) (row : KaplanRow) (g : string) (series : KaplanSeries) :
  (forall t p, survivalPoint m survivalKey row <> Some (g, t, p)) ->
  survivalSeriesOk m survivalKey done g series ->
  survivalSeriesOk m survivalKey (done ++ [row]) g series.
Proof.
  intros Hother [Hg [pushed [Hsteps [Hin Hcens]]]].
  split; [exact Hg|]. exists pushed. split; [exact Hsteps|]. split; [|exact Hcens].
  intros x. rewrite Hin. split; intros [Hnone [row' [Hrow Hp]]]; (split; [exact Hnone|]).
  - exists row'. split; [apply in_or_app; auto | exact Hp].
  - apply in_app_iff in Hrow as [Hrow | [<- | []]].
    + exists row'. auto.
    + exfalso. exact (Hother _ _ Hp).
Qed.

Lemma addSurvivalRow_inv (m : ColumnMapping) (survivalKey : string)
      (done : list KaplanRow) (grouped : list (string * KaplanSeries)) (row : KaplanRow) :
  survivalFoldInv m survivalKey done grouped ->
  survivalFoldInv m survivalKey (done ++ [row]) (addSurvivalRow m survivalKey grouped row).
Proof.
  intros [Hnd [Hall Hkeys]].
  destruct (survivalPoint m survivalKey row) as [[[g t] p]|] eqn:Hpoint.
  2:{ rewrite (addSurvivalRow_skips _ _ _ _ Hpoint). split; [exact Hnd|]. split.
      - intros g series Hin. apply survivalSeriesOk_skip; [|apply Hall, Hin].
        intros t p. rewrite Hpoint. discriminate.
      - intros row' g t p Hrow Hp. apply in_app_iff in Hrow as [Hrow | [<- | []]].
        + apply (Hkeys _ _ _ _ Hrow Hp).
        + rewrite Hpoint in Hp. discriminate. }
  revert Hpoint. unfold survivalPoint, addSurvivalRow.
  destruct row as [fields|]; [|discriminate].
  destruct (parseNumber (getValue (RowObject fields) (Some (time m)))) as [t0|] eqn:Pt;
    [|discriminate].
  destruct (parseNumber (getValue (RowObject fields) (Some survivalKey))) as [s0|] eqn:Ps;
    [|discriminate].
  intros Hpoint. injection Hpoint as Hg Ht Hp. subst t0.
  assert (Hrowpoint : survivalPoint m survivalKey (RowObject fields) = Some (g, t, p)).
  { unfold survivalPoint. rewrite Pt, Ps, Hg, Hp. reflexivity. }
  rewrite Hg, Hp.
  set (isCensored := orElse _ false).
  set (fresh := {| seriesGroup := g; steps := [seedStep]; censoredPoints := [];
                   atRiskMap := [] |}).
  set (grouped1 := if JsMap.has String.eqb g grouped then grouped
                   else JsMap.set String.eqb g fresh grouped).
  set (series := orElse (JsMap.get String.eqb g grouped1) fresh).
  assert (H1 : NoDup (JsMap.keys grouped1)
               /\ (forall g' s', In (g', s') grouped1 -> g' <> g -> In (g', s') grouped)
               /\ (forall g', In g' (JsMap.keys grouped) -> In g' (JsMap.keys grouped1))
               /\ survivalSeriesOk m survivalKey done g series).
  { subst series grouped1. unfold JsMap.has.
    destruct (JsMap.get String.eqb g grouped) as [series0|] eqn:G.
    - rewrite G. cbn [orElse]. repeat split; auto.
      + apply Hall, (map_get_In String.eqb String.eqb_eq), G.
      + apply Hall, (map_get_In String.eqb String.eqb_eq), G.
    - rewrite (map_get_set_same String.eqb String.eqb_eq). cbn [orElse].
      split; [apply (map_set_NoDup String.eqb String.eqb_eq), Hnd|].
      split; [|split].
      + intros g' s' Hin Hne.
        apply (map_set_In String.eqb String.eqb_eq) in Hin as [[? _] | Hin];
          [contradiction | exact Hin].
      + intros g'. apply map_set_keys_incl.
      + split; [reflexivity|]. exists []. split; [reflexivity|]. split; [|constructor].
        intros x. split; [intros []|]. intros [_ [row' [Hrow Hp']]]. exfalso.
        apply (map_get_None String.eqb String.eqb_eq) in G. apply G.
        apply (Hkeys _ _ _ _ Hrow Hp'). }
  destruct H1 as [Hnd1 [Hold [Hincl [Hsg [pushed [Hsteps [Hpushed Hcens]]]]]]].
  split; [apply (map_set_NoDup String.eqb String.eqb_eq), Hnd1|]. split.
  - intros g' s' Hin.
    apply (map_set_In_other String.eqb String.eqb_eq _ _ _ _ _ Hnd1) in Hin
      as [[-> ->] | [Hne Hin]].
    + split; [exact Hsg|]. cbn [steps censoredPoints]. rewrite Hsteps.
      exists (pushed ++ [{| stepTime := t; stepSurvival := p; stepAtRisk := None |}])%list.
      split; [reflexivity|]. split.
      * intros x. rewrite in_app_iff, Hpushed. split.
        -- intros [[Hnone [row' [Hrow Hp']]] | [<- | []]].
           ++ split; [exact Hnone|]. exists row'. split; [apply in_or_app; auto | exact Hp'].
           ++ split; [reflexivity|]. exists (RowObject fields).
              split; [apply in_or_app; right; left; reflexivity | exact Hrowpoint].
        -- intros [Hnone [row' [Hrow Hp']]].
           apply in_app_iff in Hrow as [Hrow | [<- | []]].
           ++ left. split; [exact Hnone|]. exists row'. auto.
           ++ right. left. rewrite Hrowpoint in Hp'. injection Hp' as -> ->.
              destruct x as [xt xs xa]. cbn in Hnone. subst xa. reflexivity.
      * assert (Hmore : Forall (onCurve (pushed ++ [{| stepTime := t; stepSurvival := p;
                                                       stepAtRisk := None |}]))
                               (censoredPoints series)).
        { eapply Forall_impl; [|exact Hcens]. intros c. apply onCurve_more. }
        destruct isCensored; [|exact Hmore].
        apply Forall_app. split; [exact Hmore|]. constructor; [|constructor].
        eexists. split; [apply in_or_app; right; left; reflexivity|].
        split; reflexivity.
    + apply survivalSeriesOk_skip; [|apply Hall, Hold; assumption].
      intros t' p' E. rewrite Hrowpoint in E. injection E as E _ _. congruence.
  - intros row' g' t' p' Hrow Hp'. apply map_set_keys_incl.
    apply in_app_iff in Hrow as [Hrow | [<- | []]].
    + apply Hincl, (Hkeys _ _ _ _ Hrow Hp').
    + rewrite Hrowpoint in Hp'. injection Hp' as <- _ _.
      subst grouped1. unfold JsMap.has.
      destruct (JsMap.get String.eqb g grouped) eqn:G.
      * apply (map_get_In String.eqb String.eqb_eq) in G.
        apply in_map_iff. eexists. split; [|exact G]. reflexivity.
      * rewrite (map_set_keys String.eqb). unfold JsMap.has. rewrite G.
        apply in_or_app. right. left. reflexivity.
Qed.

Lemma survivalRows_inv (m : ColumnMapping) (survivalKey : string) (rows : list KaplanRow) :
  survivalFoldInv m survivalKey rows
    (fold_left (addSurvivalRow m survivalKey) rows []).
Proof.
  assert (H : forall done grouped,
             survivalFoldInv m survivalKey done grouped ->
             survivalFoldInv m survivalKey (done ++ rows)
               (fold_left (addSurvivalRow m survivalKey) rows grouped)).
  { induction rows as [|row rows IH]; intros done grouped Hinv; simpl.
    - rewrite app_nil_r. exact Hinv.
    - replace (done ++ row :: rows)%list with ((done ++ [row]) ++ rows)%list
        by (rewrite <- app_assoc; reflexivity).
      apply IH, addSurvivalRow_inv, Hinv. }
  apply (H [] []). split; [constructor|]. split; [intros g s []|intros row g t p []].
Qed.

Lemma insertBy_head {A : Type} (key : A -> number) (x : A) (l : list A) :
  insertBy key x l = x :: l
  \/ exists y r, l = y :: r /\ numLeb (key x) (key y) = false
                 /\ insertBy key x l = y :: insertBy key x r.
Proof.
  destruct l as [|y r]; simpl; [auto|].
  destruct (numLeb (key x) (key y)) eqn:E; [auto|].
  right. exists y, r. auto.
Qed.

(** The finishing of a series changes no point: the sorted steps keep the
    seed in front unless a time is negative, and then a second seed goes
    in front. *)
Lemma finishSurvivalSeries_steps (series : KaplanSeries) (pushed : list SurvivalStep) :
  steps series = seedStep :: pushed ->
  forall x, In x (steps (finishSurvivalSeries series)) <-> x = seedStep \/ In x pushed.
Proof.
  intros Hsteps x.
  assert (Hperm : forall y, In y (sortBy stepTime (steps series))
                            <-> y = seedStep \/ In y pushed).
  { intros y. rewrite Hsteps. split; intros H.
    - apply (Permutation_in _ (sortBy_perm stepTime (seedStep :: pushed))) in H.
      destruct H as [<- | H]; auto.
    - apply (Permutation_in _ (Permutation_sym (sortBy_perm stepTime (seedStep :: pushed)))).
      destruct H as [-> | H]; [left; reflexivity | right; exact H]. }
  unfold finishSurvivalSeries. cbn [steps]. revert Hperm. rewrite Hsteps.
  cbn [sortBy].
  destruct (insertBy_head stepTime seedStep (sortBy stepTime pushed))
    as [E | [y [r [E1 [E2 E3]]]]].
  - rewrite E. cbn [stepTime seedStep]. rewrite numEqb_refl. cbn [negb stepAtRisk].
    intros Hperm. apply Hperm.
  - rewrite E3. intros Hperm.
    assert (Hne : numEqb (stepTime y) (num 0) = false).
    { destruct (numEqb (stepTime y) (num 0)) eqn:E; [|reflexivity].
      apply numEqb_eq in E. rewrite E in E2. cbn [stepTime seedStep] in E2.
      unfold numLeb in E2. rewrite (proj2 (Qle_bool_iff _ _) (Qle_refl _)) in E2.
      discriminate. }
    rewrite Hne. cbn [negb]. split.
    + intros [<- | H]; [auto | apply Hperm, H].
    + intros H. right. apply Hperm, H.
Qed.

Lemma buildSurvivalSeries_In (rows : list KaplanRow) (m : ColumnMapping) (s : KaplanSeries) :
  In s (buildSurvivalSeries rows m) ->
  exists series,
    s = finishSurvivalSeries series
    /\ survivalSeriesOk m (keyOf (survival m)) rows (seriesGroup s) series.
Proof.
  unfold buildSurvivalSeries. destruct (negb (truthy (survival m))); [intros []|].
  intros Hin. apply in_map_iff in Hin as [series [<- Hin]].
  unfold JsMap.values in Hin. apply in_map_iff in Hin as [[g series'] [E Hin]].
  cbn [snd] in E. subst series'.
  destruct (survivalRows_inv m (keyOf (survival m)) rows) as [_ [Hall _]].
  pose proof (Hall g series Hin) as Hok.
  exists series. split; [reflexivity|].
  unfold finishSurvivalSeries. cbn [seriesGroup].
  destruct Hok as [Hg Hrest]. rewrite Hg. split; [exact Hg | exact Hrest].
Qed.


(** X22: every row with a parseable time and survival is drawn: the series
    of its group has a step at the row's time with its survival in
    percent. *)
Theorem survival_row_is_drawn (rows : list KaplanRow) (m : ColumnMapping)
        (row : KaplanRow) (g : string) (t p : number) :
  truthy (survival m) = true -> In row rows ->
  survivalPoint m (keyOf (survival m)) row = Some (g, t, p) ->
  exists s, In s (buildSurvivalSeries rows m)
            /\ seriesGroup s = g
            /\ In {| stepTime := t; stepSurvival := p; stepAtRisk := None |} (steps s).
Proof.
  intros Hs Hrow Hpoint.
  destruct (survivalRows_inv m (keyOf (survival m)) rows) as [_ [Hall Hkeys]].
  pose proof (Hkeys row g t p Hrow Hpoint) as Hg.
  unfold JsMap.keys in Hg. apply in_map_iff in Hg as [[g' series] [E Hin]].
  cbn [fst] in E. subst g'.
  destruct (Hall g series Hin) as [Hsg [pushed [Hsteps [Hpushed _]]]].
  exists (finishSurvivalSeries series). split; [|split].
  - unfold buildSurvivalSeries. rewrite Hs. cbn [negb].
    apply in_map. unfold JsMap.values. apply in_map_iff. exists (g, series). auto.
  - exact Hsg.
  - apply (finishSurvivalSeries_steps series pushed Hsteps). right.
    apply Hpushed. cbn [stepAtRisk stepTime stepSurvival]. split; [reflexivity|].
    exists row. auto.
Qed.

(** X23: in a series built from a survival column every censored point lies
    on the curve: some step has its time and survival. *)
Theorem survival_censored_on_curve (rows : list KaplanRow) (m : ColumnMapping)
        (s : KaplanSeries) :
  In s (buildSurvivalSeries rows m) ->
  Forall (onCurve (steps s)) (censoredPoints s).
Proof.
  intros Hin.
  destruct (buildSurvivalSeries_In rows m s Hin)
    as [series [-> [_ [pushed [Hsteps [_ Hcens]]]]]].
  assert (Hall : Forall (onCurve (steps (finishSurvivalSeries series)))
                        (censoredPoints series)).
  { eapply Forall_impl; [|exact Hcens]. intros c [x [Hx Hc]]. exists x.
    split; [|exact Hc].
    apply (finishSurvivalSeries_steps series pushed Hsteps). auto. }
  unfold finishSurvivalSeries at 2. cbn [censoredPoints].
  eapply Permutation_Forall; [apply Permutation_sym, sortBy_perm | exact Hall].
Qed.

(** ** The steps that are drawn *)

Lemma sortBy_sorted_id {A : Type} (key : A -> number) (l : list A) :
  StronglySorted (fun a b => (key a <= key b)%Qc) l -> sortBy key l = l.
Proof.
  induction l as [|x l IH]; intros Hs; simpl; [reflexivity|].
  inversion Hs as [|? ? Hs' Hall]; subst. rewrite (IH Hs').
  destruct l as [|y l]; simpl; [reflexivity|].
  inversion Hall as [|? ? Hxy _]; subst.
  rewrite (proj2 (numLeb_le _ _) Hxy). reflexivity.
Qed.

Lemma series_from_seed (rows : list KaplanRow) (m : ColumnMapping) (s : KaplanSeries) :
  In s (buildSeries rows m) -> nonNegativeTimes rows m ->
  timeNonDecreasing (steps s)
  /\ exists first rest,
      steps s = first :: rest /\ stepTime first = num 0 /\ stepSurvival first = num 100.
Proof.
  intros Hin Hnonneg.
  destruct (buildSeries_cases rows m s Hin)
    as [[_ [g [tl [Hg ->]]]] | [_ [g [series [Hg ->]]]]].
  - apply groupRows_ok in Hg as [Hok Hkeys].
    destruct (eventSeries_shape tl Hok) as [[rest Hfirst] [_ Htime]].
    unfold eventSeriesOf. cbn [steps snd]. split.
    + apply Htime. intros t Ht. apply Hnonneg, Hkeys, Ht.
    + rewrite Hfirst. eexists. eexists. split; [reflexivity|]. auto.
  - split; [|apply finishSurvivalSeries_first].
    apply finishSurvivalSeries_sorted.
    assert (Hok : survivalGroupedOk rows m
                    (fold_left (addSurvivalRow m (keyOf (survival m))) rows [])).
    { apply survivalRows_ok; [apply incl_refl | intros g' ser []]. }
    destruct (Hok g series Hg) as [pushed [Hsteps Hpushed]]. rewrite Hsteps.
    constructor; [apply Qcle_refl|].
    eapply Forall_impl; [|exact Hpushed]. cbv beta. intros x Hx. apply Hnonneg, Hx.
Qed.

(** X24: when no row has a negative time the chart draws the steps as
    [buildSeries] computed them: sorting them again and resetting the first
    survival to 100 changes nothing. *)
Theorem plotted_steps_are_the_steps (rows : list KaplanRow) (m : ColumnMapping)
        (s : KaplanSeries) :
  In s (buildSeries rows m) -> nonNegativeTimes rows m ->
  plottedSteps s = steps s.
Proof.
  intros Hin Hnonneg.
  destruct (series_from_seed rows m s Hin Hnonneg)
    as [Hsorted [first [rest [Hsteps [Ht Hs]]]]].
  unfold plottedSteps. rewrite (sortBy_sorted_id stepTime _ Hsorted), Hsteps.
  rewrite Ht, numEqb_refl. cbn [negb]. rewrite <- Ht, <- Hs.
  destruct first; reflexivity.
Qed.

(** ** The first column of the at-risk table *)

Lemma eventStep_zeroInv (timeline : list (number * Bucket)) (total : Z)
      (st : EventLoop) (t : number) (remaining : list number) :
  StronglySorted Qclt (t :: remaining) -> (num 0 <= t)%Qc ->
  zeroInv total st (t :: remaining) ->
  zeroInv total (eventStep timeline st t) remaining.
Proof.
  intros Hsorted Ht [Hget Hcase].
  inversion Hsorted as [|? ? _ Hlt]; subst.
  assert (Hget' : JsMap.get numEqb (num 0)
                    (JsMap.set numEqb t (atRisk st) (atRiskOut st)) = Some total).
  { destruct (Qc_eq_dec (num 0) t) as [<- | Hne].
    - rewrite (map_get_set_same numEqb numEqb_eq). f_equal.
      destruct Hcase as [E | Hall]; [exact E|].
      inversion Hall as [|? ? H0 _]; subst. exfalso. exact (Qclt_not_eq _ _ H0 eq_refl).
    - rewrite (map_get_set_other numEqb numEqb_eq _ _ _ _ Hne). exact Hget. }
  assert (Hlater : Forall (fun t' => (num 0 < t')%Qc) remaining).
  { eapply Forall_impl; [|exact Hlt]. cbv beta. intros t' Ht'.
    eapply Qcle_lt_trans; [exact Ht | exact Ht']. }
  unfold zeroInv, eventStep. destruct (atRisk st <=? 0)%Z; cbn [atRisk atRiskOut]; auto.
Qed.

Lemma eventLoop_zeroInv (timeline : list (number * Bucket)) (total : Z)
      (ts : list number) (st : EventLoop) :
  StronglySorted Qclt ts -> Forall (fun t => (num 0 <= t)%Qc) ts ->
  zeroInv total st ts ->
  zeroInv total (fold_left (eventStep timeline) ts st) [].
Proof.
  revert st. induction ts as [|t ts IH]; intros st Hsorted Hall Hinv; simpl;
    [exact Hinv|].
  inversion Hall; subst. apply IH; [inversion Hsorted; assumption | assumption|].
  apply eventStep_zeroInv; assumption.
Qed.

(** X26: when no row has a negative time, the at-risk table of an
    event-based series shows at time 0 the number of subjects of the
    series. *)
Theorem lookup_at_time_zero (rows : list KaplanRow) (m : ColumnMapping) (s : KaplanSeries) :
  In s (buildEventSeries rows m) -> nonNegativeTimes rows m ->
  getAtRiskAtTime s (num 0) = AtRiskCount (seriesTotal s).
Proof.
  unfold buildEventSeries. intros Hin Hnonneg.
  apply in_map_iff in Hin as [[g tl] [<- Hin]].
  pose proof (groupRows_ok rows m g tl Hin) as [Hok Hkeys].
  assert (Hinv : zeroInv (bucketTotal tl) (runEventLoop tl) []).
  { unfold runEventLoop. apply eventLoop_zeroInv.
    - apply orderedTimes_strict, Hok.
    - apply Forall_forall. intros t Ht. apply Hnonneg, Hkeys.
      apply (Permutation_in _ (sortBy_perm (fun t : number => t) (JsMap.keys tl))), Ht.
    - split; [|left; reflexivity]. unfold eventLoopInit. cbn [atRiskOut].
      apply (map_get_set_same numEqb numEqb_eq). }
  destruct Hinv as [Hget _].
  destruct (eventLoop_appends tl (orderedTimes tl) (eventLoopInit (bucketTotal tl)))
    as [ms [_ [Hs _]]].
  unfold getAtRiskAtTime, seriesTotal, eventSeriesOf. cbn [atRiskMap steps snd].
  fold (runEventLoop tl) in Hs. rewrite Hs, Hget.
  destruct (atRiskOut (runEventLoop tl)); [discriminate | reflexivity].
Qed.

(** ** The group of a survival mapping *)

Lemma keepChars_replaceRunsFrom_in (p q : ascii -> bool) (r : string) (inRun : bool)
      (s : string) :
  (forall c, In c (list_ascii_of_string s) -> p c = true -> q c = false) ->
  JsStr.keepChars q r = "" ->
  JsStr.keepChars q (JsStr.replaceRunsFrom p r inRun s) = JsStr.keepChars q s.
Proof.
  intros Hp Hr. revert inRun. induction s as [|c s IH]; intros inRun; simpl;
    [reflexivity|].
  assert (IH' : forall b, JsStr.keepChars q (JsStr.replaceRunsFrom p r b s)
                          = JsStr.keepChars q s).
  { apply IH. intros c' Hc'. apply Hp. right. exact Hc'. }
  destruct (p c) eqn:E.
  - rewrite (Hp c (or_introl eq_refl) E). destruct inRun; [apply IH'|].
    rewrite keepChars_app, Hr. apply IH'.
  - simpl. rewrite IH'. reflexivity.
Qed.

Lemma upperChar_word (c : ascii) :
  JsStr.isWord c = true ->
  JsStr.isSpaceOrUnderscore (JsStr.upperChar c) = JsStr.isSpaceOrUnderscore c
  /\ JsStr.lowerChar (JsStr.upperChar c) = JsStr.lowerChar c.
Proof.
  destruct c as [[] [] [] [] [] [] [] []]; vm_compute; intros H;
    first [discriminate H | split; reflexivity].
Qed.

Lemma separator_not_dash (c : ascii) :
  c <> "-"%char -> JsStr.isUnderscoreOrDash c = true ->
  negb (JsStr.isSpaceOrUnderscore c) = false.
Proof.
  destruct c as [[] [] [] [] [] [] [] []]; vm_compute; intros Hne H;
    first [discriminate H | reflexivity | exfalso; apply Hne; reflexivity].
Qed.

Lemma normalizeKey_capitalizeFrom (afterWord : bool) (s : string) :
  normalizeKey (JsStr.capitalizeFrom afterWord s) = normalizeKey s.
Proof.
  unfold normalizeKey. rewrite !replaceRuns_empty. unfold JsStr.toLowerCase.
  revert afterWord. induction s as [|c s IH]; intros afterWord; simpl; [reflexivity|].
  destruct (JsStr.isWord c && negb afterWord) eqn:E.
  - apply andb_true_iff in E as [E _]. destruct (upperChar_word c E) as [H1 H2].
    rewrite H1. destruct (JsStr.isSpaceOrUnderscore c); simpl; rewrite IH;
      [reflexivity | rewrite H2; reflexivity].
  - destruct (JsStr.isSpaceOrUnderscore c); simpl; rewrite IH; reflexivity.
Qed.

Lemma normalizeKey_prettifyLabel (k : string) :
  ~ In "-"%char (list_ascii_of_string k) -> normalizeKey k <> "" ->
  normalizeKey (prettifyLabel k) = normalizeKey k.
Proof.
  intros Hdash Hne.
  assert (H : normalizeKey
                (JsStr.trim
                   (JsStr.capitalizeWords
                      (JsStr.replaceRuns JsStr.isSpace " "
                         (JsStr.replaceRuns JsStr.isUnderscoreOrDash " " k))))
              = normalizeKey k).
  { rewrite normalizeKey_trim. unfold JsStr.capitalizeWords.
    rewrite normalizeKey_capitalizeFrom, (normalizeKey_respaced " ") by reflexivity.
    unfold normalizeKey. rewrite !replaceRuns_empty. f_equal.
    unfold JsStr.replaceRuns. apply keepChars_replaceRunsFrom_in; [|reflexivity].
    intros c Hc. apply separator_not_dash. intros ->. exact (Hdash Hc). }
  unfold prettifyLabel.
  destruct (JsStr.trim _) as [|c label] eqn:E; cbn [JsStr.isEmpty]; [|exact H].
  exfalso. apply Hne. rewrite <- H. reflexivity.
Qed.

Lemma plainStart_not_inherited (s : string) : plainStart s -> inheritedName s = false.
Proof.
  destruct s as [|c r]; [reflexivity|]. intros [_ [Hl Hu]]. revert Hl Hu.
  destruct c as [[] [] [] [] [] [] [] []]; vm_compute; intros Hl Hu;
    first [discriminate Hl | discriminate Hu | reflexivity].
Qed.

Lemma trimStart_last (l : list ascii) (c : ascii) :
  JsStr.isSpace c = false ->
  exists l', JsStr.trimStart (string_of_list_ascii (l ++ [c]))
             = string_of_list_ascii (l' ++ [c]).
Proof.
  intros Hc. induction l as [|a l IH]; simpl.
  - rewrite Hc. exists []. reflexivity.
  - destruct (JsStr.isSpace a); [exact IH|]. exists (a :: l). reflexivity.
Qed.

Lemma plainStart_trimEnd (s : string) : plainStart s -> plainStart (JsStr.trimEnd s).
Proof.
  destruct s as [|c r]; [intros _; exact I|]. intros [Hs [Hl Hu]].
  unfold JsStr.trimEnd, JsStr.reverse at 2. cbn [list_ascii_of_string rev].
  destruct (trimStart_last (rev (list_ascii_of_string r)) c Hs) as [l' E].
  rewrite E. unfold JsStr.reverse.
  rewrite list_ascii_of_string_of_list_ascii, rev_app_distr. simpl. auto.
Qed.

Lemma plainStart_trim (s : string) : plainStart s -> plainStart (JsStr.trim s).
Proof.
  intros H. unfold JsStr.trim.
  assert (E : JsStr.trimStart s = s).
  { destruct s as [|c r]; [reflexivity|]. destruct H as [Hs _]. simpl. rewrite Hs.
    reflexivity. }
  rewrite E. apply plainStart_trimEnd, H.
Qed.

Lemma plainStart_respaced (r s : string) :
  plainStart s -> plainStart (JsStr.replaceRuns JsStr.isSpace r s).
Proof.
  destruct s as [|c t]; [intros _; exact I|]. intros [Hs [Hl Hu]].
  unfold JsStr.replaceRuns. simpl. rewrite Hs. simpl. auto.
Qed.

Lemma capital_char (c : ascii) :
  (JsStr.code c =? 95)%nat = false ->
  let c' := if JsStr.isWord c then JsStr.upperChar c else c in
  JsStr.isLower c' = false
  /\ (JsStr.code c' =? 95)%nat = false
  /\ (JsStr.isSpace c' = true -> JsStr.isWord c = false).
Proof.
  destruct c as [[] [] [] [] [] [] [] []]; vm_compute; intros H;
    first [discriminate H | repeat split; intros; first [reflexivity | discriminate]].
Qed.

Lemma space_not_underscore (c : ascii) :
  JsStr.isSpace c = true -> (JsStr.code c =? 95)%nat = false.
Proof.
  destruct c as [[] [] [] [] [] [] [] []]; vm_compute; congruence.
Qed.

Lemma keepChars_replaced (p q : ascii -> bool) (r : string) (inRun : bool) (s : string) :
  (forall c, q c = true -> p c = true) ->
  JsStr.keepChars q r = "" ->
  JsStr.keepChars q (JsStr.replaceRunsFrom p r inRun s) = "".
Proof.
  intros Hq Hr. revert inRun. induction s as [|c s IH]; intros inRun; simpl;
    [reflexivity|].
  destruct (p c) eqn:E.
  - destruct inRun; [apply IH|]. rewrite keepChars_app, Hr. apply IH.
  - simpl. destruct (q c) eqn:Q; [rewrite (Hq c Q) in E; discriminate | apply IH].
Qed.

Lemma capitalized_start (u : string) :
  JsStr.keepChars (fun c => (JsStr.code c =? 95)%nat) u = "" ->
  plainStart (JsStr.trimStart (JsStr.capitalizeFrom false u)).
Proof.
  induction u as [|c t IH]; [intros _; exact I|].
  cbn [JsStr.keepChars]. destruct (JsStr.code c =? 95)%nat eqn:U; [discriminate|].
  intros Ht. cbn [JsStr.capitalizeFrom negb]. rewrite andb_true_r.
  destruct (capital_char c U) as [Hl [Hu Hsp]].
  cbn [JsStr.trimStart].
  destruct (JsStr.isSpace (if JsStr.isWord c then JsStr.upperChar c else c)) eqn:S.
  - rewrite (Hsp eq_refl). apply IH, Ht.
  - cbn [plainStart]. auto.
Qed.

Lemma prettifyLabel_plainStart (k : string) : plainStart (prettifyLabel k).
Proof.
  assert (H : plainStart
                (JsStr.trim
                   (JsStr.capitalizeWords
                      (JsStr.replaceRuns JsStr.isSpace " "
                         (JsStr.replaceRuns JsStr.isUnderscoreOrDash " " k))))).
  { unfold JsStr.trim. apply plainStart_trimEnd. unfold JsStr.capitalizeWords.
    apply capitalized_start. unfold JsStr.replaceRuns at 1.
    rewrite (keepChars_replaceRunsFrom JsStr.isSpace _ " " false _ space_not_underscore)
      by reflexivity.
    apply keepChars_replaced; [|reflexivity].
    intros c Hc. unfold JsStr.isUnderscoreOrDash. rewrite Hc. reflexivity. }
  unfold prettifyLabel.
  destruct (JsStr.trim _) as [|c label]; cbn [JsStr.isEmpty]; [|exact H].
  repeat split; reflexivity.
Qed.

Lemma prettifyLabel_forms (k name : string) :
  In name (lookupForms (prettifyLabel k)) -> inheritedName name = false.
Proof.
  pose proof (prettifyLabel_plainStart k) as H.
  intros [<- | [<- | [<- | [<- | []]]]]; apply plainStart_not_inherited.
  - exact H.
  - apply plainStart_trim, H.
  - apply plainStart_respaced, plainStart_trim, H.
  - apply plainStart_respaced, plainStart_trim, H.
Qed.

Lemma prettifyLabel_truthy (k : string) : truthy (Some (prettifyLabel k)) = true.
Proof.
  unfold prettifyLabel, truthy.
  destruct (JsStr.trim _) as [|c label]; reflexivity.
Qed.

(** X27: the prettified name of a column, which the heuristic puts in
    [mapping.group] when it finds no group column, is read by [getValue] as
    that column: for a name without a hyphen, [getValue] with the pretty
    label returns the value of the column itself, and the group of the row
    is the text of that value. *)
Theorem pretty_label_reads_the_column (fields : list (string * JsValue)) (k : string)
        (v : JsValue) (fallback : string) :
  In (k, v) fields ->
  ~ In "-"%char (list_ascii_of_string k) ->
  normalizeKey k <> "" ->
  (forall k' v', In (k', v') fields -> normalizeKey k' = normalizeKey k -> v' = v) ->
  getValue (RowObject fields) (Some (prettifyLabel k)) = v
  /\ (nullish v = false ->
      groupLabelOf (Some (prettifyLabel k)) fallback (RowObject fields) = toStr v).
Proof.
  intros Hin Hdash Hne Huniq.
  assert (E : normalizeKey (JsStr.trim (prettifyLabel k)) = normalizeKey k).
  { rewrite normalizeKey_trim. apply normalizeKey_prettifyLabel; assumption. }
  assert (Hget : getValue (RowObject fields) (Some (prettifyLabel k)) = v).
  { apply (getValue_unique fields (prettifyLabel k) k v Hin).
    - symmetry. exact E.
    - rewrite E. exact Hne.
    - apply prettifyLabel_forms.
    - intros k' v' Hin' Hk'. apply (Huniq k' v' Hin'). rewrite <- E. exact Hk'. }
  split; [exact Hget|]. intros Hv.
  unfold groupLabelOf. rewrite prettifyLabel_truthy, Hget, Hv. reflexivity.
Qed.

(** X28: a mapping that the heuristic builds on a survival column always
    names a group: a column of the rows that is neither the time column nor
    the survival column, or else the prettified name of the survival
    column. *)
Theorem heuristic_survival_group (rows : list KaplanRow) (m : ColumnMapping) (k : string) :
  mapping (deriveMappingHeuristically rows) = Some m ->
  survival m = Some k ->
  exists g,
    group m = Some g
    /\ (g = prettifyLabel k \/ (keyPresent g rows /\ g <> time m /\ g <> k)).
Proof.
  unfold deriveMappingHeuristically.
  destruct rows as [|row rows]; [discriminate|].
  set (keys := collectKeys (row :: rows)).
  destruct (JsStr.includes keys "time" && JsStr.includes keys "status"
            && JsStr.includes keys "group").
  - intros H Hs. inversion H; subst m. discriminate.
  - cbv zeta. destruct (negb (truthy (timeColumn keys))); [discriminate|].
    set (eventCandidate := findByPatterns keys EVENT_PATTERNS).
    set (survivalCandidate := findByPatterns keys SURVIVAL_PATTERNS).
    set (reserved := reservedFor (keyOf (timeColumn keys)) eventCandidate survivalCandidate).
    destruct (truthy eventCandidate) eqn:Ee.
    + intros H Hs. inversion H; subst m. discriminate.
    + destruct (truthy survivalCandidate) eqn:Es; [|discriminate].
      intros H Hs. inversion H; subst m. cbn [survival group time] in *.
      rewrite Hs. cbn [keyOf].
      destruct (truthy (inferGroupColumn (row :: rows) keys reserved)) eqn:Et.
      * destruct (inferGroupColumn (row :: rows) keys reserved) as [g|] eqn:Eg;
          [|discriminate].
        exists g. split; [reflexivity|]. right.
        destruct (inferGroupColumn_result _ _ _ _ Eg) as [Hin [Hres _]].
        split; [apply collectKeys_In, Hin|].
        assert (Hreserved : In (keyOf (timeColumn keys)) reserved /\ In k reserved).
        { subst reserved. unfold reservedFor. rewrite Ee, Es, Hs. cbn [keyOf].
          rewrite !setAdd_In. split; auto. }
        destruct Hreserved as [Ht Hk].
        split; intros ->; contradiction.
      * exists (prettifyLabel k). split; [reflexivity | left; reflexivity].
Qed.

(** ** Rows counted as events *)









End Builtins.

(** * The worked scenarios *)

(** Equality of computed series: the structures are compared by evaluation,
    the numbers as canonical fractions. *)
Ltac series_eq :=
  vm_compute; repeat (f_equal; try (apply Qc_is_canon; reflexivity)).

(** A comparison of two given numbers, as goal or as absurd hypothesis. *)
Ltac compare_numbers H :=
  first [ vm_compute; reflexivity | vm_compute in H; discriminate H ].

(** The rows have no column [time], so the fast path is not taken. *)
Ltac no_time_column :=
  let fields := fresh "fields" in
  let Hin := fresh "Hin" in
  let Hk := fresh "Hk" in
  intros [[fields [Hin Hk]] _];
  repeat (destruct Hin as [Hin | Hin]; [injection Hin as <- |]);
  [cbn [map fst In] in Hk; intuition discriminate .. | destruct Hin].

(** C1 (as amended): for the four rows of the scenario, [buildSeries] returns
    one series, for group "A", of 4 subjects; the row at time 0 is an event,
    so the steps are (0, 100, 4), (0, 75, 4), (5, 50, 3), (10, 0, 1), with
    one censored point (5, 50), and the at-risk count after the last time
    is 0. *)
Theorem scenario_event_series :
  buildSeries Runtime.NumberOfString Runtime.StringOfNumber
              Scenario.eventRows Scenario.eventMapping
  = [{| seriesGroup := "A";
        steps := [Scenario.step (num 0) (num 100) 4; Scenario.step (num 0) (num 75) 4;
                  Scenario.step (num 5) (num 50) 3; Scenario.step (num 10) (num 0) 1];
        censoredPoints := [{| censTime := num 5; censSurvival := num 50 |}];
        atRiskMap := [(num 0, 4%Z); (num 5, 3%Z); (num 10, 1%Z)] |}]
  /\ map (fun entry => (bucketTotal (snd entry), atRisk (runEventLoop (snd entry))))
         (groupRows Runtime.NumberOfString Runtime.StringOfNumber
                    Scenario.eventRows Scenario.eventMapping)
     = [(4%Z, 0%Z)].
Proof.
  split.
  - series_eq.
  - vm_compute. reflexivity.
Qed.

(** The survival values 75, 50 and 0 of the scenario are exact in binary64. *)
Lemma scenario_binary64 :
  productLimitFloat 100 4 1 = 75%float
  /\ productLimitFloat 75 3 1 = 50%float
  /\ productLimitFloat 50 1 1 = 0%float.
Proof. repeat split; vm_compute; reflexivity. Qed.

(** The steps (5, 75, 4) and (10, 37.5, 2) of C1 are not steps of the series. *)
Lemma scenario_claimed_steps_absent :
  ~ exists s,
      buildSeries Runtime.NumberOfString Runtime.StringOfNumber
                  Scenario.eventRows Scenario.eventMapping = [s]
      /\ seriesGroup s = "A"
      /\ In (Scenario.step (num 0) (num 100) 4) (steps s)
      /\ In (Scenario.step (num 5) (num 75) 4) (steps s)
      /\ In (Scenario.step (num 10) (ratio 75 2) 2) (steps s).
Proof.
  intros [s [Hs [_ [_ [H5 _]]]]].
  vm_compute in Hs. injection Hs as <-.
  cbn [steps In] in H5.
  destruct H5 as [H | [H | [H | [H | []]]]]; vm_compute in H; discriminate H.
Qed.

(** C2 fails in two ways.  For series built from survival percentages (the
    mapping is the one the heuristic gives for these rows) survival goes
    from 50 up to 80.  And for rows with negative times the seed step at
    time 0 comes before the steps at times -5 and -2. *)
Lemma survival_rises_and_time_falls :
  mapping (deriveMappingHeuristically Runtime.NumberOfString Runtime.StringOfNumber
                                      Scenario.percentRows)
  = Some Scenario.percentMapping
  /\ In Scenario.risingSeries
        (buildSeries Runtime.NumberOfString Runtime.StringOfNumber
                     Scenario.percentRows Scenario.percentMapping)
  /\ ~ survivalNonIncreasing (steps Scenario.risingSeries)
  /\ In Scenario.negativeSeries
        (buildSeries Runtime.NumberOfString Runtime.StringOfNumber
                     Scenario.negativeRows Scenario.eventMapping)
  /\ ~ timeNonDecreasing (steps Scenario.negativeSeries).
Proof.
  split; [vm_compute; reflexivity|]. split; [|split; [|split]].
  - left. series_eq.
  - intros H. vm_compute in H.
    inversion H as [|? ? H1 _]; subst. inversion H1 as [|? ? _ H2]; subst.
    inversion H2 as [|? ? H3 _]; subst. apply H3. reflexivity.
  - left. series_eq.
  - intros H. vm_compute in H.
    inversion H as [|? ? _ H1]; subst.
    inversion H1 as [|? ? H2 _]; subst. apply H2. reflexivity.
Qed.

Lemma step_sequence_shape_witness :
  In Scenario.eventSeries
     (buildSeries Runtime.NumberOfString Runtime.StringOfNumber
                  Scenario.eventRows Scenario.eventMapping)
  /\ (exists first rest,
         steps Scenario.eventSeries = first :: rest
         /\ stepTime first = num 0 /\ stepSurvival first = num 100)
  /\ timeNonDecreasing (steps Scenario.eventSeries)
  /\ survivalNonIncreasing (steps Scenario.eventSeries).
Proof.
  assert (Hin : In Scenario.eventSeries
                   (buildSeries Runtime.NumberOfString Runtime.StringOfNumber
                                Scenario.eventRows Scenario.eventMapping)).
  { left. series_eq. }
  destruct (step_sequence_shape Runtime.NumberOfString Runtime.StringOfNumber
              Scenario.eventRows Scenario.eventMapping Scenario.eventSeries Hin)
    as [H1 [H2 H3]].
  split; [exact Hin|]. split; [exact H1|]. split.
  - apply H2. intros t [row [Hrow Hp]].
    destruct Hrow as [<- | [<- | [<- | [<- | []]]]];
      vm_compute in Hp; injection Hp as <-; apply numLeb_le; reflexivity.
  - apply H3. left. reflexivity.
Defined.

(** * Instances of the general properties *)

Lemma fast_path_precedence_witness :
  Scenario.fastPathRows <> []
  /\ deriveMappingHeuristically Runtime.NumberOfString Runtime.StringOfNumber
                                Scenario.fastPathRows
     = {| mapping :=
            Some {| time := "time"; group := Some "group"; event := Some "status";
                    censored := None; survival := None |};
          confidence := num 1 |}.
Proof.
  split; [discriminate|].
  apply fast_path_precedence.
  - discriminate.
  - eexists. split; [left; reflexivity | cbn [map fst In]; auto].
  - eexists. split; [left; reflexivity | cbn [map fst In]; auto].
  - eexists. split; [left; reflexivity | cbn [map fst In]; auto 6].
Defined.

(** C4 fails when the time column itself matches an event pattern: for the
    column [event_time] the heuristic returns it both as time and as event. *)
Lemma event_column_is_time_column :
  exists m,
    mapping (deriveMappingHeuristically Runtime.NumberOfString Runtime.StringOfNumber
                                        Scenario.eventTimeRows) = Some m
    /\ time m = "event_time" /\ event m = Some (time m).
Proof.
  eexists. split; [vm_compute; reflexivity|]. split; reflexivity.
Qed.

Lemma event_and_survival_columns_witness :
  mapping (deriveMappingHeuristically Runtime.NumberOfString Runtime.StringOfNumber
                                      Scenario.percentRows)
  = Some Scenario.percentMapping
  /\ In "pct" (collectKeys Scenario.percentRows)
  /\ matchesPatterns SURVIVAL_PATTERNS "pct" = true
  /\ firstMatch SURVIVAL_PATTERNS (collectKeys Scenario.percentRows) "pct"
  /\ "pct" <> time Scenario.percentMapping.
Proof.
  assert (H : mapping (deriveMappingHeuristically
                         Runtime.NumberOfString Runtime.StringOfNumber
                         Scenario.percentRows) = Some Scenario.percentMapping)
    by (vm_compute; reflexivity).
  destruct (event_and_survival_columns Runtime.NumberOfString Runtime.StringOfNumber
              Scenario.percentRows Scenario.percentMapping H) as [_ [_ [Hs _]]].
  destruct (Hs "pct" eq_refl) as [H1 [H2 [H3 [_ H4]]]].
  split; [exact H|]. split; [exact H1|]. split; [exact H2|]. split; [exact H3|].
  apply H4. vm_compute. reflexivity.
Defined.

Lemma censoring_preserves_survival_witness :
  let timeline := Scenario.censoredTimeline in
  let st := fold_left (eventStep timeline) [num 0] (eventLoopInit (bucketTotal timeline)) in
  let st1 := eventStep timeline st (num 5) in
  (0 < atRisk st)%Z
  /\ exists earlier previous,
      stepsOut st = (earlier ++ [previous])%list
      /\ stepsOut st1
         = (stepsOut st
            ++ [{| stepTime := num 5; stepSurvival := stepSurvival previous;
                   stepAtRisk := Some (atRisk st) |}])%list
      /\ censoredOut st1
         = (censoredOut st
            ++ repeat {| censTime := num 5; censSurvival := stepSurvival previous |}
                      (Z.to_nat 2))%list
      /\ atRisk st1 = (atRisk st - 2)%Z
      /\ exists laterSteps laterCensored,
          steps (eventSeriesOf ("A", timeline)) = (stepsOut st1 ++ laterSteps)%list
          /\ censoredPoints (eventSeriesOf ("A", timeline))
             = (censoredOut st1 ++ laterCensored)%list.
Proof.
  intros timeline st st1.
  assert (Hrisk : (0 < atRisk st)%Z) by (vm_compute; reflexivity).
  split; [exact Hrisk|].
  apply (censoring_preserves_survival "A" timeline [num 0] [num 10] (num 5) 2).
  - vm_compute. reflexivity.
  - vm_compute. reflexivity.
  - reflexivity.
  - exact Hrisk.
Defined.


Lemma at_risk_lookup_witness :
  getAtRiskAtTime Scenario.percentSeries (num 7) = AtRiskDash
  /\ getAtRiskAtTime Scenario.eventSeries (num 5) = AtRiskCount 3
  /\ getAtRiskAtTime Scenario.eventSeries (num 7) = AtRiskCount 3
  /\ getAtRiskAtTime Scenario.eventSeries (num (-3)) = AtRiskCount 4.
Proof.
  split; [|split; [|split]].
  - apply (proj1 (at_risk_lookup Scenario.percentSeries (num 7))). reflexivity.
  - apply (proj1 (proj2 (at_risk_lookup Scenario.eventSeries (num 5)))).
    vm_compute. reflexivity.
  - apply (proj1 (proj2 (proj2 (at_risk_lookup Scenario.eventSeries (num 7))))
             (num 5) 3%Z).
    + vm_compute. reflexivity.
    + right; left; reflexivity.
    + apply numLtb_lt. vm_compute. reflexivity.
    + apply numLeb_le. vm_compute. reflexivity.
    + intros r Hin _ Hle. apply numLeb_le in Hle. apply numLeb_le.
      destruct Hin as [<- | [<- | [<- | []]]]; compare_numbers Hle.
    + vm_compute. reflexivity.
  - apply (proj2 (proj2 (proj2 (at_risk_lookup Scenario.eventSeries (num (-3)))))).
    + discriminate.
    + vm_compute. reflexivity.
    + intros r Hin Hle. apply numLeb_le in Hle.
      destruct Hin as [<- | [<- | [<- | []]]]; vm_compute in Hle; discriminate Hle.
Defined.

Lemma confidence_assignment_witness :
  let derive := deriveMappingHeuristically Runtime.NumberOfString Runtime.StringOfNumber in
  confidence (derive Scenario.eventTimeRows) = ratio 8 10
  /\ confidence (derive Scenario.statusRows) = ratio 6 10
  /\ confidence (derive Scenario.percentRows) = ratio 7 10
  /\ confidence (derive Scenario.percentOnlyRows) = ratio 5 10
  /\ mapping (derive Scenario.timeOnlyRows) = None
  /\ confidence (derive Scenario.timeOnlyRows) = num 0.
Proof.
  intros derive. subst derive. cbv beta.
  split; [|split; [|split; [|split]]].
  - apply (confidence_assignment Runtime.NumberOfString Runtime.StringOfNumber
             Scenario.eventTimeRows "event_time").
    + discriminate.
    + no_time_column.
    + vm_compute. reflexivity.
    + vm_compute. discriminate.
    + vm_compute. discriminate.
  - apply (confidence_assignment Runtime.NumberOfString Runtime.StringOfNumber
             Scenario.statusRows "day").
    + discriminate.
    + no_time_column.
    + vm_compute. reflexivity.
    + vm_compute. discriminate.
    + vm_compute. reflexivity.
  - apply (confidence_assignment Runtime.NumberOfString Runtime.StringOfNumber
             Scenario.percentRows "month").
    + discriminate.
    + no_time_column.
    + vm_compute. reflexivity.
    + vm_compute. reflexivity.
    + vm_compute. discriminate.
    + vm_compute. discriminate.
  - apply (confidence_assignment Runtime.NumberOfString Runtime.StringOfNumber
             Scenario.percentOnlyRows "month").
    + discriminate.
    + no_time_column.
    + vm_compute. reflexivity.
    + vm_compute. reflexivity.
    + vm_compute. discriminate.
    + vm_compute. reflexivity.
  - apply (confidence_assignment Runtime.NumberOfString Runtime.StringOfNumber
             Scenario.timeOnlyRows "day").
    + discriminate.
    + no_time_column.
    + vm_compute. reflexivity.
    + vm_compute. reflexivity.
    + vm_compute. reflexivity.
Defined.

(** C8 fails for empty rows: the heuristic result is not accepted, and yet no
    request is sent. *)
Lemma empty_rows_send_no_request :
  let h := deriveMappingHeuristically Runtime.NumberOfString Runtime.StringOfNumber [] in
  ~ heuristicAccepted h
  /\ snd (resolveMapping Scenario.answeringFetch [] h Scenario.initialState) = []
  /\ columnMapping
       (match fst (resolveMapping Scenario.answeringFetch [] h Scenario.initialState) with
        | Return st => st
        | Throw _ => Scenario.initialState
        end) = None.
Proof.
  split; [|split; reflexivity].
  intros [m [Hm _]]. discriminate Hm.
Qed.

Lemma resolve_mapping_outcomes_witness :
  let derive := deriveMappingHeuristically Runtime.NumberOfString Runtime.StringOfNumber in
  resolveMapping Scenario.failingFetch Scenario.eventRows (derive Scenario.eventRows)
                 Scenario.initialState
  = (Return {| columnMapping := Some Scenario.eventMapping;
               mappingConfidence := num 1;
               llmAttempted := false;
               notified := [(Scenario.eventMapping, num 1, false)] |},
     [])
  /\ snd (resolveMapping Scenario.answeringFetch Scenario.timeOnlyRows
                         (derive Scenario.timeOnlyRows) Scenario.initialState)
     = [Scenario.timeOnlyRows]
  /\ fst (resolveMapping Scenario.answeringFetch Scenario.timeOnlyRows
                         (derive Scenario.timeOnlyRows) Scenario.initialState)
     = Return {| columnMapping := Some Scenario.answeredMapping;
                 mappingConfidence := num 0;
                 llmAttempted := true;
                 notified := [(Scenario.answeredMapping, num 0, true)] |}
  /\ fst (resolveMapping Scenario.failingFetch Scenario.timeOnlyRows
                         (derive Scenario.timeOnlyRows) Scenario.initialState)
     = Return {| columnMapping := None;
                 mappingConfidence := num 0;
                 llmAttempted := false;
                 notified := [] |}.
Proof.
  intros derive.
  assert (Hfast : derive Scenario.eventRows
                  = {| mapping := Some Scenario.eventMapping; confidence := num 1 |})
    by (vm_compute; reflexivity).
  assert (Hnone : derive Scenario.timeOnlyRows = {| mapping := None; confidence := num 0 |})
    by (vm_compute; reflexivity).
  assert (Hno : ~ heuristicAccepted (derive Scenario.timeOnlyRows)).
  { rewrite Hnone. intros [m [Hm _]]. discriminate Hm. }
  split; [|split; [|split]].
  - rewrite Hfast.
    apply (proj1 (proj2 (resolve_mapping_outcomes Scenario.failingFetch Scenario.eventRows
                           {| mapping := Some Scenario.eventMapping; confidence := num 1 |}
                           Scenario.initialState))
             Scenario.eventMapping).
    + reflexivity.
    + apply numLeb_le. vm_compute. reflexivity.
  - apply (proj1 (proj2 (proj2 (resolve_mapping_outcomes
                                  Scenario.answeringFetch Scenario.timeOnlyRows
                                  (derive Scenario.timeOnlyRows) Scenario.initialState)))
             Hno).
  - rewrite Hnone in *.
    apply (proj1 (proj2 (proj2 (proj2 (resolve_mapping_outcomes
                                         Scenario.answeringFetch Scenario.timeOnlyRows
                                         {| mapping := None; confidence := num 0 |}
                                         Scenario.initialState))))
             {| ok := true; status := 200; json := Return (Some Scenario.answer) |}
             Scenario.answer Scenario.answeredMapping Hno).
    + discriminate.
    + reflexivity.
    + reflexivity.
    + reflexivity.
    + reflexivity.
  - rewrite Hnone in *.
    apply (proj2 (proj2 (proj2 (proj2 (resolve_mapping_outcomes
                                         Scenario.failingFetch Scenario.timeOnlyRows
                                         {| mapping := None; confidence := num 0 |}
                                         Scenario.initialState))))
             Hno).
    right. apply (NetworkError _ _ "Failed to fetch"). reflexivity.
Defined.

Lemma stale_result_discarded_witness :
  let c := componentRun Runtime.NumberOfString Runtime.StringOfNumber
                        [DataChanged Scenario.timeOnlyRows;
                         DataChanged Scenario.percentRows] in
  latest c = 2%nat
  /\ map runId (pending c) = [1%nat; 2%nat]
  /\ view (componentStep Runtime.NumberOfString Runtime.StringOfNumber c
                         (Settled 1 (Some Scenario.answer)))
     = view c.
Proof.
  intros c.
  split; [vm_compute; reflexivity|]. split; [vm_compute; reflexivity|].
  apply (stale_result_discarded Runtime.NumberOfString Runtime.StringOfNumber
           [DataChanged Scenario.timeOnlyRows; DataChanged Scenario.percentRows]
           {| runId := 1; runData := Scenario.timeOnlyRows;
              runHeuristic := deriveMappingHeuristically
                                Runtime.NumberOfString Runtime.StringOfNumber
                                Scenario.timeOnlyRows;
              runCancelled := true |}
           (Some Scenario.answer)).
  - vm_compute. left. reflexivity.
  - vm_compute. discriminate.
Defined.


(** * Instances of the further properties *)

Lemma text_without_digits_reads_as_zero_witness :
  parseNumber Runtime.NumberOfString (JsString "n/a") = Some (num 0)
  /\ isEventOf Runtime.NumberOfString Runtime.StringOfNumber (JsString "n/a") = false.
Proof.
  apply (text_without_digits_reads_as_zero
           Runtime.NumberOfString Runtime.StringOfNumber "n/a").
  - vm_compute. reflexivity.
  - reflexivity.
Defined.

Lemma getValue_sound_witness :
  ((exists k,
       In (k, JsNumber (num 3)) Scenario.looseFields
       /\ normalizeKey k = normalizeKey (JsStr.trim "follow up"))
   \/ (exists name,
          In name (lookupForms "follow up")
          /\ rowHas name Scenario.looseFields = false
          /\ In (name, JsNumber (num 3)) inheritedProperties))
  /\ ((exists k,
          In (k, nativeFunction "Object") Scenario.looseFields
          /\ normalizeKey k = normalizeKey (JsStr.trim "constructor"))
      \/ (exists name,
             In name (lookupForms "constructor")
             /\ rowHas name Scenario.looseFields = false
             /\ In (name, nativeFunction "Object") inheritedProperties)).
Proof.
  split.
  - apply (getValue_sound Scenario.looseFields "follow up" (JsNumber (num 3))).
    + vm_compute. reflexivity.
    + discriminate.
  - apply (getValue_sound Scenario.looseFields "constructor" (nativeFunction "Object")).
    + vm_compute. reflexivity.
    + discriminate.
Defined.

Lemma getValue_tolerant_witness :
  getValue (RowObject Scenario.looseFields) (Some "follow up") = JsNumber (num 3).
Proof.
  apply (getValue_tolerant Scenario.looseFields "follow up" "Follow_Up "
                           (JsNumber (num 3))).
  - left. reflexivity.
  - vm_compute. reflexivity.
  - vm_compute. discriminate.
  - intros name [<- | [<- | [<- | [<- | []]]]]; reflexivity.
  - intros k' v' [H | []] _. injection H as _ <-. reflexivity.
Defined.

Lemma inferGroupColumn_fresh_witness :
  In "group" ["time"; "status"; "group"]
  /\ ~ In "group" ["time"; "status"]
  /\ "group" <> "".
Proof.
  apply (inferGroupColumn_fresh Runtime.NumberOfString Runtime.StringOfNumber
           Scenario.eventRows ["time"; "status"; "group"] ["time"; "status"] "group").
  vm_compute. reflexivity.
Defined.

Lemma heuristic_group_column_witness :
  keyPresent "arm" Scenario.eventTimeRows
  /\ "arm" <> "event_time"
  /\ "arm" <> "event_time".
Proof.
  apply (heuristic_group_column Runtime.NumberOfString Runtime.StringOfNumber
           Scenario.eventTimeRows
           {| time := "event_time"; group := Some "arm"; event := Some "event_time";
              censored := None; survival := None |}
           "event_time" "arm").
  - vm_compute. reflexivity.
  - reflexivity.
  - reflexivity.
Defined.

Lemma inferred_group_cardinality_witness :
  findByPatterns ["day"; "status"] GROUP_PATTERNS = Some "status"
  \/ (2 <= List.length (sampledValues Runtime.NumberOfString Runtime.StringOfNumber
                                      Scenario.statusRows "status") <= 20)%nat.
Proof.
  apply (inferred_group_cardinality Runtime.NumberOfString Runtime.StringOfNumber
           Scenario.statusRows ["day"; "status"] ["day"] "status").
  vm_compute. reflexivity.
Defined.

Lemma event_steps_times_witness :
  exists first rest,
    steps Scenario.eventSeries = first :: rest
    /\ StronglySorted Qclt (map stepTime rest)
    /\ forall t,
        In t (map stepTime rest) <->
        exists row,
          In row Scenario.eventRows
          /\ parseNumber Runtime.NumberOfString
                         (getValue row (Some (time Scenario.eventMapping))) = Some t
          /\ groupLabelOf Runtime.StringOfNumber (group Scenario.eventMapping) "Group" row
             = seriesGroup Scenario.eventSeries.
Proof.
  apply (event_steps_times Runtime.NumberOfString Runtime.StringOfNumber
           Scenario.eventRows Scenario.eventMapping Scenario.eventSeries).
  left. series_eq.
Defined.

Lemma event_steps_at_risk_witness :
  StronglySorted (fun a b => (atRiskOf b <= atRiskOf a)%Z) (steps Scenario.eventSeries)
  /\ Forall (fun x => exists a, stepAtRisk x = Some a
                                /\ (1 <= a <= seriesTotal Scenario.eventSeries)%Z)
            (List.tl (steps Scenario.eventSeries)).
Proof.
  apply (event_steps_at_risk Runtime.NumberOfString Runtime.StringOfNumber
           Scenario.eventRows Scenario.eventMapping Scenario.eventSeries).
  left. series_eq.
Defined.

Lemma event_steps_survival_range_witness :
  Forall (fun x => (num 0 <= stepSurvival x)%Qc /\ (stepSurvival x <= num 100)%Qc)
         (steps Scenario.eventSeries).
Proof.
  apply (event_steps_survival_range Runtime.NumberOfString Runtime.StringOfNumber
           Scenario.eventRows Scenario.eventMapping Scenario.eventSeries).
  left. series_eq.
Defined.

Lemma censored_points_on_curve_witness :
  Forall (onCurve (steps Scenario.eventSeries)) (censoredPoints Scenario.eventSeries).
Proof.
  apply (censored_points_on_curve Runtime.NumberOfString Runtime.StringOfNumber
           Scenario.eventRows Scenario.eventMapping Scenario.eventSeries).
  left. series_eq.
Defined.

Lemma lookup_at_step_time_witness :
  exists a,
    stepAtRisk (Scenario.step (num 5) (num 50) 3) = Some a
    /\ getAtRiskAtTime Scenario.eventSeries (stepTime (Scenario.step (num 5) (num 50) 3))
       = AtRiskCount a.
Proof.
  apply (lookup_at_step_time Runtime.NumberOfString Runtime.StringOfNumber
           Scenario.eventRows Scenario.eventMapping Scenario.eventSeries
           (Scenario.step (num 5) (num 50) 3)).
  - left. series_eq.
  - right. left. reflexivity.
Defined.

Lemma event_lookup_is_a_count_witness :
  exists n,
    getAtRiskAtTime Scenario.eventSeries (num 7) = AtRiskCount n
    /\ (0 <= n <= seriesTotal Scenario.eventSeries)%Z.
Proof.
  apply (event_lookup_is_a_count Runtime.NumberOfString Runtime.StringOfNumber
           Scenario.eventRows Scenario.eventMapping Scenario.eventSeries (num 7)).
  left. series_eq.
Defined.

Lemma survival_lookup_is_a_dash_witness :
  getAtRiskAtTime Scenario.risingSeries (num 6) = AtRiskDash.
Proof.
  apply (survival_lookup_is_a_dash Runtime.NumberOfString Runtime.StringOfNumber
           Scenario.percentRows Scenario.percentMapping Scenario.risingSeries (num 6)).
  - left. series_eq.
  - intros [H | H]; vm_compute in H; discriminate H.
Defined.

Lemma latest_result_applied_witness :
  let c := componentRun Runtime.NumberOfString Runtime.StringOfNumber
                        [DataChanged Scenario.timeOnlyRows] in
  let h := deriveMappingHeuristically Runtime.NumberOfString Runtime.StringOfNumber
                                      Scenario.timeOnlyRows in
  latest c = 1%nat
  /\ view (componentStep Runtime.NumberOfString Runtime.StringOfNumber c
                         (Settled 1 (Some Scenario.answer)))
     = afterFetch h (Some Scenario.answer) false (view c).
Proof.
  intros c h. split; [vm_compute; reflexivity|].
  apply (latest_result_applied Runtime.NumberOfString Runtime.StringOfNumber
           [DataChanged Scenario.timeOnlyRows]
           {| runId := 1; runData := Scenario.timeOnlyRows; runHeuristic := h;
              runCancelled := false |}
           (Some Scenario.answer)).
  vm_compute. reflexivity.
Defined.


Lemma survival_row_is_drawn_witness :
  exists s,
    In s (buildSurvivalSeries Runtime.NumberOfString Runtime.StringOfNumber
                              Scenario.markedRows Scenario.percentMapping)
    /\ seriesGroup s = "X"
    /\ In {| stepTime := num 6; stepSurvival := num 50; stepAtRisk := None |} (steps s).
Proof.
  apply (survival_row_is_drawn Runtime.NumberOfString Runtime.StringOfNumber
           Scenario.markedRows Scenario.percentMapping
           (RowObject [("month", JsNumber (num 6)); ("pct", JsString "50%");
                       ("arm", JsString "X"); ("censored", JsString "yes")])
           "X" (num 6) (num 50)).
  - reflexivity.
  - right. left. reflexivity.
  - series_eq.
Defined.

Lemma survival_censored_on_curve_witness :
  Forall (onCurve (steps Scenario.markedSeries)) (censoredPoints Scenario.markedSeries).
Proof.
  apply (survival_censored_on_curve Runtime.NumberOfString Runtime.StringOfNumber
           Scenario.markedRows Scenario.percentMapping Scenario.markedSeries).
  left. series_eq.
Defined.

Lemma plotted_steps_are_the_steps_witness :
  plottedSteps Scenario.eventSeries = steps Scenario.eventSeries.
Proof.
  apply (plotted_steps_are_the_steps Runtime.NumberOfString Runtime.StringOfNumber
           Scenario.eventRows Scenario.eventMapping Scenario.eventSeries).
  - left. series_eq.
  - intros t [row [Hrow Hp]].
    destruct Hrow as [<- | [<- | [<- | [<- | []]]]];
      vm_compute in Hp; injection Hp as <-; apply numLeb_le; reflexivity.
Defined.

Lemma lookup_at_time_zero_witness :
  getAtRiskAtTime Scenario.eventSeries (num 0)
  = AtRiskCount (seriesTotal Scenario.eventSeries).
Proof.
  apply (lookup_at_time_zero Runtime.NumberOfString Runtime.StringOfNumber
           Scenario.eventRows Scenario.eventMapping Scenario.eventSeries).
  - left. series_eq.
  - intros t [row [Hrow Hp]].
    destruct Hrow as [<- | [<- | [<- | [<- | []]]]];
      vm_compute in Hp; injection Hp as <-; apply numLeb_le; reflexivity.
Defined.

Lemma pretty_label_reads_the_column_witness :
  prettifyLabel "pct" = "Pct"
  /\ getValue (RowObject [("month", JsNumber (num 6)); ("pct", JsNumber (num 50))])
              (Some (prettifyLabel "pct"))
     = JsNumber (num 50)
  /\ groupLabelOf Runtime.StringOfNumber (Some (prettifyLabel "pct")) "Pct"
                  (RowObject [("month", JsNumber (num 6)); ("pct", JsNumber (num 50))])
     = "50".
Proof.
  split; [reflexivity|].
  destruct (pretty_label_reads_the_column Runtime.StringOfNumber
              [("month", JsNumber (num 6)); ("pct", JsNumber (num 50))] "pct"
              (JsNumber (num 50)) "Pct") as [H1 H2].
  - right. left. reflexivity.
  - intros [H | [H | [H | []]]]; discriminate H.
  - vm_compute. discriminate.
  - intros k' v' [H | [H | []]] Hk; injection H as <- <-;
      [vm_compute in Hk; discriminate Hk | reflexivity].
  - split; [exact H1|]. rewrite (H2 eq_refl). vm_compute. reflexivity.
Defined.

Lemma heuristic_survival_group_witness :
  exists g,
    Some "Pct" = Some g
    /\ (g = prettifyLabel "pct"
        \/ (keyPresent g Scenario.percentOnlyRows /\ g <> "month" /\ g <> "pct")).
Proof.
  apply (heuristic_survival_group Runtime.NumberOfString Runtime.StringOfNumber
           Scenario.percentOnlyRows
           {| time := "month"; group := Some "Pct"; event := None; censored := None;
              survival := Some "pct" |}
           "pct").
  - vm_compute. reflexivity.
  - reflexivity.
Defined.
